(** * SyConn skeleton helpers: a shallow embedding of
    [syconn/reps/super_segmentation_helper.py] and its properties.

    Conventions.
    - Voxel coordinates are [np.uint32] values, kept as [Z] with the
      wrap-around modulo [2^32] written where the source computes on them
      before a conversion to floating point.
    - Physical lengths are Euclidean norms of integer vectors.  A comparison
      of two norms is carried out on their squares, which is exact; the
      rounding of [np.float32]/[np.float64] is not modelled.
    - Distances handed back by [scipy.spatial.cKDTree.query], and edge
      weights of [sso.weighted_graph()], are rationals ([Q]).
    - A [networkx] graph is a node dictionary in insertion order together
      with its edges in insertion order; the adjacency of a node lists its
      neighbours in the order the edges were inserted.  [G.edges()] goes
      through the same edges node by node; nothing below depends on the
      order or the orientation in which the edges are enumerated.
    - Loops of networkx and of this module that are not structurally
      recursive run on fuel, and are shown to finish within it. *)

From Stdlib Require Import ZArith QArith Lia List Bool Sorted.
From stdpp Require Import gmap strings list pretty.

Local Open Scope Z_scope.
#[local] Set Warnings "-clear-no-such-hyp".

(** ** Coordinates *)

Definition Pos : Type := Z * Z * Z.

Definition px (p : Pos) : Z := fst (fst p).
Definition py (p : Pos) : Z := snd (fst p).
Definition pz (p : Pos) : Z := snd p.

Definition uint32 (x : Z) : Z := x mod 2 ^ 32.

(** Squared Euclidean norm of a vector. *)
Definition norm2 (v : Pos) : Z := px v * px v + py v * py v + pz v * pz v.

Definition vsub (a b : Pos) : Pos := (px a - px b, py a - py b, pz a - pz b).
Definition vmul (a s : Pos) : Pos := (px a * px s, py a * py s, pz a * pz s).

(** [np.linalg.norm v < t] for an integer vector [v] of squared norm [n2]. *)
Definition norm_lt (n2 t : Z) : bool := (0 <? t) && (n2 <? t * t).

(** [np.linalg.norm v > t]. *)
Definition norm_gt (n2 t : Z) : bool := (t <? 0) || (t * t <? n2).

(** ** Exceptions *)

Inductive error :=
  AssertionError | ValueError | IndexError | KeyError | AttributeError
| NetworkXError.

(** The outcome of a computation that may raise, and whose model runs on
    fuel: a value, an exception, or fuel exhausted. *)
Inductive result (A : Type) :=
| Ok (a : A)
| Raise (e : error)
| OutOfFuel.
Arguments Ok {A} _.
Arguments Raise {A} _.
Arguments OutOfFuel {A}.

#[global] Instance result_bind : MBind result := fun A B k r =>
  match r with
  | Ok a => k a
  | Raise e => Raise e
  | OutOfFuel => OutOfFuel
  end.

(** ** numpy helpers *)

Module Np.

Fixpoint insert_by {A : Type} (leb : A -> A -> bool) (x : A) (l : list A)
    : list A :=
  match l with
  | [] => [x]
  | y :: l' => if leb x y then x :: l else y :: insert_by leb x l'
  end.

(** A stable sort: [np.sort], and [sorted(..., key=...)]. *)
Definition sort_by {A : Type} (leb : A -> A -> bool) (l : list A) : list A :=
  foldr (insert_by leb) [] l.

(** Drop the repeated values of a sorted array. *)
Fixpoint dedup_sorted {A : Type} (eqb : A -> A -> bool) (l : list A)
    : list A :=
  match l with
  | [] => []
  | x :: l' =>
      match l' with
      | y :: _ => if eqb x y then dedup_sorted eqb l' else x :: dedup_sorted eqb l'
      | [] => [x]
      end
  end.

(** [np.unique(values, return_counts=True)] followed by
    [prop_vals[np.argmax(cnts)]]: the smallest of the most frequent values. *)
Definition unique_counts (vals : list Z) : list (Z * nat) :=
  map (fun v => (v, length (filter (fun x => x = v) vals)))
      (dedup_sorted Z.eqb (sort_by Z.leb vals)).

Fixpoint argmax_from (best : Z * nat) (l : list (Z * nat)) : Z * nat :=
  match l with
  | [] => best
  | vc :: l' => argmax_from (if (snd best <? snd vc)%nat then vc else best) l'
  end.

Definition majority (vals : list Z) : error + Z :=
  match unique_counts vals with
  | [] => inl ValueError
  | vc :: l => inr (fst (argmax_from vc l))
  end.

End Np.

(** ** Radius Estimator *)

Module Radius.

Local Open Scope Q_scope.

Definition sort (l : list Q) : list Q := Np.sort_by Qle_bool l.

(** [np.median] of a one-dimensional array: the middle element of the sorted
    values, or the mean of the two middle ones.  (The empty array, for which
    numpy answers [nan], is given 0; no caller queries zero neighbours.) *)
Definition median (l : list Q) : Q :=
  let s := sort l in
  let n := length s in
  if Nat.even n
  then (nth (n / 2 - 1) s 0 + nth (n / 2) s 0) / 2
  else nth (n / 2) s 0.

(** The loop [for ii, el in enumerate(skel_node): diameters[ii] = ...];
    [dists] has one row per skeleton node.  An index outside [diameters]
    is numpy's [IndexError]. *)
Fixpoint assign_diameters (ii : nat) (dists : list (list Q))
    (diameters : list Q) : option (list Q) :=
  match dists with
  | [] => Some diameters
  | row :: rest =>
      if (ii <? length diameters)%nat
      then assign_diameters (S ii) rest (<[ii := median row * 2 / 10]> diameters)
      else None
  end.

(** [radius_correction_found_vertices]: [dists] is the distance matrix
    returned by [tree.query(skel_node * sso.scaling, num_found_vertices)],
    [diameters] the array [sso.skeleton['diameters']]. *)
Definition radius_correction_found_vertices (dists : list (list Q))
    (diameters : list Q) (plump_factor : Q) : option (list Q) :=
  match assign_diameters 0 dists diameters with
  | Some ds => Some (map (fun d => d * plump_factor) ds)
  | None => None
  end.

End Radius.

(** ** Stitcher: the bridging edge of one supervoxel-graph edge *)

Module Stitch.

(** Squared distance of two points in physical coordinates
    ([nodes * sso.scaling]). *)
Definition sqdist (scaling a b : Pos) : Z :=
  norm2 (vsub (vmul a scaling) (vmul b scaling)).

(** [node_ix_arr[sv_id_arr == sv]]. *)
Definition ixs_of (sv_id_arr : list nat) (sv : nat) : list nat :=
  filter (fun i => sv_id_arr !! i = Some sv) (seq 0 (length sv_id_arr)).

(** [ssv_skel['nodes'][sv_id_arr == sv]]. *)
Definition nodes_of (nodes : list Pos) (sv_id_arr : list nat) (sv : nat)
    : list Pos :=
  map (fun i => nth i nodes (0, 0, 0)) (ixs_of sv_id_arr sv).

(** [np.argmin] and [np.min] in one pass: the first smallest entry wins. *)
Fixpoint argmin_from (i : nat) (best : Z * nat) (l : list Z) : Z * nat :=
  match l with
  | [] => best
  | d :: l' => argmin_from (S i) (if d <? fst best then (d, i) else best) l'
  end.

Definition argmin (l : list Z) : option (Z * nat) :=
  match l with
  | [] => None
  | d :: l' => Some (argmin_from 1 (d, 0%nat) l')
  end.

(** One row of [tree.query(nodes2)] for the tree over [nodes1]: squared
    distance to, and index of, the nearest point of [nodes1]. *)
Definition query (scaling : Pos) (nodes1 : list Pos) (q : Pos)
    : option (Z * nat) :=
  argmin (map (fun p => sqdist scaling p q) nodes1).

Record candidate := mkCandidate {
  ix1 : nat;                (* global index of the node on the side of e1 *)
  ix2 : nat;                (* global index of the node on the side of e2 *)
  min_dists2 : Z;           (* np.min(dists), squared *)
  node_dist_check2 : Z      (* node_dist_check, squared *)
}.

(** The closest node pair of two supervoxels, [None] when one of them has
    no skeleton node ([continue  # SV without skeleton]). *)
Definition closest_pair (nodes : list Pos) (sv_id_arr : list nat)
    (scaling : Pos) (e1 e2 : nat) : option candidate :=
  let nodes1 := nodes_of nodes sv_id_arr e1 in
  let nodes2 := nodes_of nodes sv_id_arr e2 in
  let nodes1_ix := ixs_of sv_id_arr e1 in
  let nodes2_ix := ixs_of sv_id_arr e2 in
  if ((length nodes1 =? 0) || (length nodes2 =? 0))%nat then None
  else
    let res := map (fun q => default (0, 0%nat) (query scaling nodes1 q)) nodes2 in
    match argmin (map fst res) with
    | None => None
    | Some (dmin, j) =>
        let i2 := nth j nodes2_ix 0%nat in
        let i1 := nth (snd (nth j res (0, 0%nat))) nodes1_ix 0%nat in
        Some (mkCandidate i1 i2 dmin
                (sqdist scaling (nth i1 nodes (0, 0, 0)) (nth i2 nodes (0, 0, 0))))
    end.

(** The test [np.min(dists) < node_dist_check or node_dist_check >
    max_edge_length] that skips a candidate. *)
Definition skipped (c : candidate) (max_edge_length : Z) : bool :=
  (min_dists2 c <? node_dist_check2 c) || norm_gt (node_dist_check2 c) max_edge_length.

(** Body of the loop [for e1, e2 in g.edges()] of [from_sso_to_netkx_fast]:
    the edge appended to [edges], if any. *)
Definition bridge (nodes : list Pos) (sv_id_arr : list nat) (scaling : Pos)
    (max_edge_length : Z) (e1 e2 : nat) : option (nat * nat) :=
  match closest_pair nodes sv_id_arr scaling e1 e2 with
  | None => None
  | Some c => if skipped c max_edge_length then None else Some (ix1 c, ix2 c)
  end.

End Stitch.

(** ** networkx graphs *)

Module NX.

(** An [nx.Graph] whose nodes carry one attribute of type [A]. *)
Record Graph (A : Type) := mkGraph {
  nodes : list (nat * A);        (* G.nodes(data=...), insertion order *)
  edges : list (nat * nat)       (* G.edges(), insertion order *)
}.
Arguments mkGraph {A} _ _.
Arguments nodes {A} _.
Arguments edges {A} _.

Definition node_ids {A} (g : Graph A) : list nat := map fst (nodes g).

(** [G.node[n][...]]. *)
Fixpoint lookup_attr {A} (ns : list (nat * A)) (n : nat) : option A :=
  match ns with
  | [] => None
  | (m, p) :: ns' => if (m =? n)%nat then Some p else lookup_attr ns' n
  end.

(** [G.node[n]['position']]. *)
Definition position (g : Graph Pos) (n : nat) : Pos :=
  default (0, 0, 0) (lookup_attr (nodes g) n).

(** Node ids are unique and every edge joins two nodes of the graph. *)
Definition wf_graph {A} (g : Graph A) : bool :=
  bool_decide (NoDup (node_ids g))
  && forallb (fun e => bool_decide (fst e ∈ node_ids g)
                       && bool_decide (snd e ∈ node_ids g)) (edges g).

(** [list(G.neighbors(n))]. *)
Definition neighbors {A} (g : Graph A) (n : nat) : list nat :=
  flat_map (fun e =>
    if (fst e =? n)%nat then [snd e]
    else if (snd e =? n)%nat then [fst e] else []) (edges g).

(** [G.degree(n)]; a self-loop counts twice. *)
Definition degree {A} (g : Graph A) (n : nat) : nat :=
  length (neighbors g n)
  + length (filter (fun e => fst e = n /\ snd e = n) (edges g)).

(** [G.remove_node(n)] for a node of the graph. *)
Definition remove_node {A} (g : Graph A) (n : nat) : Graph A :=
  mkGraph (filter (fun np => fst np <> n) (nodes g))
          (filter (fun e => fst e <> n /\ snd e <> n) (edges g)).

(** *** Connected components *)

(** Two nodes are linked when an edge joins them, and connected when a
    chain of edges does. *)
Definition linked (es : list (nat * nat)) (x y : nat) : Prop := (x, y) ∈ es.

Definition connected (es : list (nat * nat)) : nat -> nat -> Prop :=
  rtsc (linked es).

(** A set of nodes that holds, with a node, all nodes connected to it. *)
Definition saturated (es : list (nat * nat)) (s : gset nat) : Prop :=
  forall x y, x ∈ s -> connected es x y -> y ∈ s.

Fixpoint pairwise_disjoint (l : list (gset nat)) : Prop :=
  match l with
  | [] => True
  | c :: l' => (forall c', c' ∈ l' -> c ## c') /\ pairwise_disjoint l'
  end.

(** One round of the breadth-first search: the set together with every
    neighbour of one of its members. *)
Definition expand (es : list (nat * nat)) (s : gset nat) : gset nat :=
  s ∪ list_to_set (flat_map (fun e =>
        (if decide (fst e ∈ s) then [snd e] else [])
        ++ (if decide (snd e ∈ s) then [fst e] else [])) es).

(** [set(_plain_bfs(G, v))]: as many rounds as the graph has nodes. *)
Definition component {A} (g : Graph A) (v : nat) : gset nat :=
  Nat.iter (length (nodes g)) (expand (edges g)) {[v]}.

Fixpoint cc_loop {A} (g : Graph A) (vs : list nat) (seen : gset nat)
    : list (gset nat) :=
  match vs with
  | [] => []
  | v :: vs' =>
      if decide (v ∈ seen) then cc_loop g vs' seen
      else let c := component g v in c :: cc_loop g vs' (seen ∪ c)
  end.

(** [nx.connected_components(G)]. *)
Definition connected_components {A} (g : Graph A) : list (gset nat) :=
  cc_loop g (node_ids g) ∅.

Definition number_connected_components {A} (g : Graph A) : nat :=
  length (connected_components g).

(** *** Minimum spanning tree (Kruskal, as [nx.minimum_spanning_tree]) *)

(** Square of the weight [np.linalg.norm((pos[u] - pos[v]) * scal)]; the
    difference of the two [np.uint32] rows wraps around. *)
Definition weight2 (g : Graph Pos) (scal : Pos) (e : nat * nat) : Z :=
  let d := vsub (position g (fst e)) (position g (snd e)) in
  norm2 (vmul (uint32 (px d), uint32 (py d), uint32 (pz d)) scal).

(** Stable sort of the edges by weight ([sorted(edges, key=weight)]). *)
Definition sort_by (key : nat * nat -> Z) (l : list (nat * nat))
    : list (nat * nat) :=
  Np.sort_by (fun e e' => key e <=? key e') l.

(** The union-find structure, seen as a labelling of the nodes by the
    representative of their set. *)
Definition union (uf : nat -> nat) (u v : nat) : nat -> nat :=
  fun x => if (uf x =? uf v)%nat then uf u else uf x.

Fixpoint kruskal (uf : nat -> nat) (es : list (nat * nat))
    : list (nat * nat) :=
  match es with
  | [] => []
  | e :: es' =>
      if (uf (fst e) =? uf (snd e))%nat then kruskal uf es'
      else e :: kruskal (union uf (fst e) (snd e)) es'
  end.

(** The labelling when Kruskal's loop is over. *)
Fixpoint kruskal_uf (uf : nat -> nat) (es : list (nat * nat)) : nat -> nat :=
  match es with
  | [] => uf
  | e :: es' =>
      if (uf (fst e) =? uf (snd e))%nat then kruskal_uf uf es'
      else kruskal_uf (union uf (fst e) (snd e)) es'
  end.

(** Number of sets of the union-find structure over the nodes [vs]. *)
Definition classes (uf : nat -> nat) (vs : list nat) : nat :=
  size (list_to_set (map uf vs) : gset nat).

(** [nx.minimum_spanning_tree(G)] after the edge weights have been set from
    the positions: the nodes of [G] and the edges Kruskal keeps. *)
Definition minimum_spanning_tree (scal : Pos) (g : Graph Pos) : Graph Pos :=
  mkGraph (nodes g) (kruskal id (sort_by (weight2 g scal) (edges g))).

End NX.

(** ** Array form of a skeleton *)

Module Skel.
Import NX.

(** [np.sort]. *)
Definition np_sort (l : list nat) : list nat := Np.sort_by Nat.leb l.

(** [np.unique]: the sorted distinct values. *)
Definition np_unique (l : list nat) : list nat :=
  Np.dedup_sorted Nat.eqb (np_sort l).

(** [np.array(list(G.edges())).reshape(-1)]. *)
Definition flatten_edges (es : list (nat * nat)) : list nat :=
  flat_map (fun e => [fst e; snd e]) es.

(** [for ii, ix in enumerate(temp_edges_sorted): temp_edges_dict[ix] = ii]. *)
Fixpoint enumerate_dict (ii : nat) (l : list nat) (d : gmap nat nat)
    : gmap nat nat :=
  match l with
  | [] => d
  | ix :: l' => enumerate_dict (S ii) l' (<[ix := ii]> d)
  end.

Definition temp_edges_dict {A} (g : Graph A) : gmap nat nat :=
  enumerate_dict 0 (np_unique (np_sort (flatten_edges (edges g)))) ∅.

(** The relabelled edge array; every looked-up id is a key of the
    dictionary, so the lookup cannot fail. *)
Definition relabel_edges {A} (g : Graph A) : list (nat * nat) :=
  let d := temp_edges_dict g in
  map (fun e => (default 0%nat (d !! fst e), default 0%nat (d !! snd e)))
      (edges g).

(** The node ids are met in strictly increasing order. *)
Fixpoint ascending (l : list nat) : bool :=
  match l with
  | [] => true
  | x :: l' =>
      match l' with
      | y :: _ => (x <? y)%nat && ascending l'
      | [] => true
      end
  end.

(** Every node is an end point of some edge. *)
Definition covered {A} (g : Graph A) : bool :=
  forallb (fun n => bool_decide (n ∈ flatten_edges (edges g))) (node_ids g).

Record skeleton := mkSkeleton {
  sk_nodes : list Pos;
  sk_diameters : list Q;
  sk_edges : list (nat * nat)
}.

(** [from_netkx_to_arr]: the positions in the order of [skel_nx.nodes()]
    (they are [np.uint32] already, the cast leaves them as they are), a zero
    diameter per node, and the relabelled edges. *)
Definition from_netkx_to_arr (g : Graph Pos) : skeleton :=
  mkSkeleton (map snd (nodes g))
             (map (fun _ => 0%Q) (nodes g))
             (relabel_edges g).

(** [from_netkx_to_sso]: the same arrays, behind
    [assert nx.number_connected_components(skel_nx) == 1]. *)
Definition from_netkx_to_sso (g : Graph Pos) : error + skeleton :=
  if (number_connected_components g =? 1)%nat
  then inr (from_netkx_to_arr g)
  else inl AssertionError.

(** Canonicalization, the end of [create_sso_skeleton_fast]: reweight the
    edges, take the minimum spanning tree, rebuild the arrays. *)
Definition canonicalize (scal : Pos) (g : Graph Pos) : error + skeleton :=
  from_netkx_to_sso (minimum_spanning_tree scal g).

End Skel.

(** ** Pruner *)

Module Pruner.
Import NX.

(** [convert_coord]: the first two axes are swapped, one is added to each
    ([np.uint32] arithmetic), and the result is scaled. *)
Definition convert_coord (coord_list scal : Pos) : Pos :=
  vmul (uint32 (py coord_list + 1), uint32 (px coord_list + 1),
        uint32 (pz coord_list + 1)) scal.

(** [nx.dfs_preorder_nodes], with the stack of child iterators that
    networkx keeps: the nodes in the order they are visited. *)
Fixpoint dfs_loop (fuel : nat) (g : Graph Pos) (stack : list (list nat))
    (visited : list nat) : result (list nat) :=
  match fuel with
  | O => OutOfFuel
  | S fuel' =>
      match stack with
      | [] => Ok visited
      | [] :: stack' => dfs_loop fuel' g stack' visited
      | (child :: children) :: stack' =>
          if bool_decide (child ∈ visited)
          then dfs_loop fuel' g (children :: stack') visited
          else dfs_loop fuel' g (neighbors g child :: children :: stack')
                        (visited ++ [child])
      end
  end.

(** The measure that bounds the rounds of the search: the entries and
    frames of the stack, and the edge ends at nodes not visited yet. *)
Definition unvisited (visited : list nat) (a : nat) : nat :=
  if bool_decide (a ∈ visited) then 0%nat else 1%nat.

Definition unvisited_ends (es : list (nat * nat)) (visited : list nat) : nat :=
  list_sum (map (fun e => (unvisited visited (fst e) + unvisited visited (snd e))%nat) es).

Definition stack_size (stack : list (list nat)) : nat :=
  list_sum (map (fun cs => (2 * length cs + 1)%nat) stack).

Definition dfs_fuel (g : Graph Pos) : nat := 4 * length (edges g) + 2.

Definition dfs_preorder_nodes (g : Graph Pos) (source : nat)
    : result (list nat) :=
  dfs_loop (dfs_fuel g) g [neighbors g source] [source].

(** The loop [for curr_node in dfs_preorder_nodes(nx_g, end_node)] up to its
    [break]: the nodes collected in [prune_nodes], and the branch node at
    which the loop stopped, if it met one. *)
Fixpoint walk_to_branch (g : Graph Pos) (order : list nat)
    (prune_nodes : list nat) : list nat * option nat :=
  match order with
  | [] => (prune_nodes, None)
  | curr_node :: rest =>
      if (2 <? degree g curr_node)%nat then (prune_nodes, Some curr_node)
      else walk_to_branch g rest (prune_nodes ++ [curr_node])
  end.

(** Square of [b_len], the straight-line distance between the converted
    positions of the end node and of the branch node. *)
Definition b_len2 (g : Graph Pos) (scal : Pos) (end_node curr_node : nat) : Z :=
  norm2 (vsub (convert_coord (position g end_node) scal)
              (convert_coord (position g curr_node) scal)).

(** [G.remove_node(n)], which raises on a node that is not in the graph. *)
Definition remove_node_checked (g : Graph Pos) (n : nat) : result (Graph Pos) :=
  if bool_decide (n ∈ node_ids g) then Ok (remove_node g n)
  else Raise NetworkXError.

Fixpoint remove_nodes (new_nx_g : Graph Pos) (prune_nodes : list nat)
    : result (Graph Pos) :=
  match prune_nodes with
  | [] => Ok new_nx_g
  | prune_node :: rest =>
      g' ← remove_node_checked new_nx_g prune_node; remove_nodes g' rest
  end.

(** The stub of an end node: the walked nodes, when the walk met a branch
    node closer than [len_thres]. *)
Definition stub (nx_g : Graph Pos) (scal : Pos) (len_thres : Z)
    (end_node : nat) : result (option (list nat)) :=
  order ← dfs_preorder_nodes nx_g end_node;
  match walk_to_branch nx_g order [] with
  | (prune_nodes, Some curr_node) =>
      if norm_lt (b_len2 nx_g scal end_node curr_node) len_thres
      then Ok (Some prune_nodes) else Ok None
  | (_, None) => Ok None
  end.

(** [{k for k, v in dict(nx_g.degree()).items() if v == 1}], here in the
    order of the nodes: the walks are read from the copy [nx_g], so the
    order in which the end nodes are taken does not change what is removed. *)
Definition end_nodes (g : Graph Pos) : list nat :=
  filter (fun k => degree g k = 1%nat) (node_ids g).

(** The loop [for end_node in end_nodes]: walks and degrees are read from
    the copy [nx_g], nodes are removed from [new_nx_g]. *)
Fixpoint prune_ends (nx_g : Graph Pos) (scal : Pos) (len_thres : Z)
    (new_nx_g : Graph Pos) (ends : list nat) : result (Graph Pos) :=
  match ends with
  | [] => Ok new_nx_g
  | end_node :: rest =>
      st ← stub nx_g scal len_thres end_node;
      g' ← match st with
           | Some prune_nodes => remove_nodes new_nx_g prune_nodes
           | None => Ok new_nx_g
           end;
      prune_ends nx_g scal len_thres g' rest
  end.

(** One round of [while not pruning_complete]. *)
Definition prune_pass (scal : Pos) (len_thres : Z) (g : Graph Pos)
    : result (Graph Pos) :=
  prune_ends g scal len_thres g (end_nodes g).

(** The loop [while not pruning_complete]: a round that removes no node is
    the last one. *)
Fixpoint prune_loop (fuel : nat) (scal : Pos) (len_thres : Z) (g : Graph Pos)
    : result (Graph Pos) :=
  match fuel with
  | O => OutOfFuel
  | S fuel' =>
      new_nx_g ← prune_pass scal len_thres g;
      if (length (nodes new_nx_g) =? length (nodes g))%nat then Ok new_nx_g
      else prune_loop fuel' scal len_thres new_nx_g
  end.

Definition pruned (scal : Pos) (len_thres : Z) (g : Graph Pos)
    : result (Graph Pos) :=
  prune_loop (S (length (nodes g))) scal len_thres g.

Section Stitching.

(** [syconn.proc.graphs.stitch_skel_nx], which is not part of this file. *)
Variable stitch_skel_nx : Graph Pos -> Graph Pos.

(** [prune_stub_branches], returning [new_nx_g]; [sso] is [None] in the call
    from [create_sso_skeleton_fast], where the warning that formats [sso.id]
    raises [AttributeError]. *)
Definition prune_stub_branches (sso : option nat) (nx_g : Graph Pos)
    (scal : Pos) (len_thres : Z) : result (Graph Pos) :=
  new_nx_g ← pruned scal len_thres nx_g;
  if (number_connected_components new_nx_g =? 1)%nat
  then Ok (minimum_spanning_tree scal new_nx_g)
  else match sso with
       | None => Raise AttributeError
       | Some _ => Ok (minimum_spanning_tree scal (stitch_skel_nx new_nx_g))
       end.

End Stitching.

(** Square of the physical length of an edge. *)
Definition edge_length2 (g : Graph Pos) (scal : Pos) (u v : nat) : Z :=
  norm2 (vmul (vsub (position g u) (position g v)) scal).

End Pruner.

(** ** Compartment Partitioner *)

Module Compartments.
Import NX.

(** [sso.weighted_graph(add_node_attr=(ax_pred_key,))]: node [n] carries
    [sso.skeleton[ax_pred_key][n]]. *)
Definition weighted_graph (axoness : list Z) (es : list (nat * nat))
    : Graph Z :=
  mkGraph (zip (seq 0 (length axoness)) axoness) es.

(** The copy of [g] without the nodes labelled 2. *)
Definition soma_free (g : Graph Z) : Graph Z :=
  foldl (fun sf nd => if (snd nd =? 2)%Z then remove_node sf (fst nd) else sf)
        g (nodes g).

(** [cc.nodes(data=True)] for the subgraph on the component [cc]. *)
Definition cc_nodes (g : Graph Z) (cc : gset nat) : list (nat * Z) :=
  filter (fun nd => fst nd ∈ cc) (nodes g).

(** The majority class of a component, with the bias towards class 0:
    a majority of class 1 below 66 % gives way to class 0. *)
Definition biased_majority (preds : list Z) : error + Z :=
  match Np.majority preds with
  | inl e => inl e
  | inr majority =>
      let cnt1 := length (filter (fun x => x = 1%Z) preds) in
      if (majority =? 1)%Z && (100 * cnt1 <? 66 * length preds)%nat
      then inr 0%Z else inr majority
  end.

(** The same rule, spelled out as a proposition on the counts. *)
Definition biased (majority : Z) (preds : list Z) : Z :=
  if decide (majority = 1%Z
             /\ (100 * length (filter (fun x => x = 1%Z) preds)
                 < 66 * length preds)%nat)
  then 0%Z else majority.

(** [for n in cc.nodes(): new_axoness_dc[n] = majority]. *)
Definition assign_cc (dc : gmap nat Z) (ns : list (nat * Z)) (majority : Z)
    : gmap nat Z :=
  foldl (fun d nd => <[fst nd := majority]> d) dc ns.

Fixpoint assign_ccs (sf : Graph Z) (ccs : list (gset nat)) (dc : gmap nat Z)
    : error + gmap nat Z :=
  match ccs with
  | [] => inr dc
  | cc :: rest =>
      match biased_majority (map snd (cc_nodes sf cc)) with
      | inl e => inl e
      | inr majority => assign_ccs sf rest (assign_cc dc (cc_nodes sf cc) majority)
      end
  end.

(** [majority_vote_compartments]: the array stored under
    [ax_pred_key + "_comp_maj"]. *)
Definition majority_vote_compartments (axoness : list Z)
    (es : list (nat * nat)) : error + list Z :=
  let g := weighted_graph axoness es in
  let sf := soma_free g in
  let new_axoness_dc : gmap nat Z := list_to_map (nodes g) in
  match assign_ccs sf (connected_components sf) new_axoness_dc with
  | inl e => inl e
  | inr dc => inr (map (fun n => default 0%Z (dc !! n)) (seq 0 (length axoness)))
  end.

End Compartments.

(** ** Window Aggregator *)

Module Window.

Local Open Scope Q_scope.

(** [sso.weighted_graph()]: the nodes are [0 .. number_of_nodes - 1]; an
    edge carries its physical length as ['weight']. *)
Record WGraph := mkWGraph {
  number_of_nodes : nat;
  wedges : list (nat * nat * Q)
}.

(** [G._adj[v].items()]. *)
Definition adj (g : WGraph) (v : nat) : list (nat * Q) :=
  flat_map (fun e =>
    let '(a, b, w) := e in
    if (a =? v)%nat then [(b, w)]
    else if (b =? v)%nat then [(a, w)] else []) (wedges g).

Definition Qltb (a b : Q) : bool := negb (Qle_bool b a).

(** The state of [_dijkstra_multisource]. *)
Record dstate := mkDstate {
  dist : gmap nat Q;                 (* final distances *)
  seen : gmap nat Q;                 (* best distances so far *)
  fringe : list (Q * nat * nat);     (* the heap, entries (d, next(c), v) *)
  counter : nat;                     (* the counter c *)
  path_keys : list nat               (* list(paths.keys()) *)
}.

Definition entry_leb (x y : Q * nat * nat) : bool :=
  let '(d, c, _) := x in
  let '(d', c', _) := y in
  Qltb d d' || (Qle_bool d d' && (c <=? c')%nat).

(** [heappop]: the smallest entry and the remaining heap. *)
Fixpoint pop_min (l : list (Q * nat * nat))
    : option ((Q * nat * nat) * list (Q * nat * nat)) :=
  match l with
  | [] => None
  | x :: l' =>
      match pop_min l' with
      | None => Some (x, [])
      | Some (m, rest) =>
          if entry_leb x m then Some (x, l') else Some (m, x :: rest)
      end
  end.

(** The body of [for u, e in G_succ[v].items()] for the node [v] popped
    with distance [dv]. *)
Definition relax (cutoff : Q) (dv : Q) (st : dstate) (ue : nat * Q)
    : error + dstate :=
  let '(u, cost) := ue in
  let vu_dist := dv + cost in
  if Qltb cutoff vu_dist then inr st
  else
    let pushed :=
      mkDstate (dist st) (<[u := vu_dist]> (seen st))
               (fringe st ++ [(vu_dist, counter st, u)])
               (S (counter st))
               (if bool_decide (u ∈ path_keys st) then path_keys st
                else path_keys st ++ [u]) in
    match dist st !! u with
    | Some u_dist => if Qltb vu_dist u_dist then inl ValueError else inr st
    | None =>
        match seen st !! u with
        | None => inr pushed
        | Some su => if Qltb vu_dist su then inr pushed else inr st
        end
    end.

Fixpoint relax_all (cutoff : Q) (dv : Q) (st : dstate) (l : list (nat * Q))
    : error + dstate :=
  match l with
  | [] => inr st
  | ue :: l' =>
      match relax cutoff dv st ue with
      | inl e => inl e
      | inr st' => relax_all cutoff dv st' l'
      end
  end.

(** The loop [while fringe].  Every round pops one heap entry, and a node
    pushes at most one entry per incident edge when it is finalised; [None]
    stands for a loop that has not finished within [fuel] rounds. *)
Fixpoint dijkstra_loop (fuel : nat) (g : WGraph) (cutoff : Q) (st : dstate)
    : option (error + dstate) :=
  match fuel with
  | O => None
  | S fuel' =>
      match pop_min (fringe st) with
      | None => Some (inr st)
      | Some ((d, _, v), rest) =>
          let st1 := mkDstate (dist st) (seen st) rest (counter st)
                              (path_keys st) in
          match dist st !! v with
          | Some _ => dijkstra_loop fuel' g cutoff st1
          | None =>
              let st2 := mkDstate (<[v := d]> (dist st)) (seen st) rest
                                  (counter st) (path_keys st) in
              match relax_all cutoff d st2 (adj g v) with
              | inl e => Some (inl e)
              | inr st3 => dijkstra_loop fuel' g cutoff st3
              end
          end
      end
  end.

(** Number of edge ends that are not finalised yet: with the size of the
    heap, the measure that bounds the rounds of the loop. *)
Definition open_end (d : gmap nat Q) (a : nat) : nat :=
  match d !! a with Some _ => 0%nat | None => 1%nat end.

Definition open_ends (es : list (nat * nat * Q)) (d : gmap nat Q) : nat :=
  list_sum (map (fun e => (open_end d (fst (fst e)) + open_end d (snd (fst e)))%nat) es).

Definition dijkstra_fuel (g : WGraph) : nat :=
  2 + 2 * length (wedges g).

(** [list(nx.single_source_dijkstra_path(g, n, max_dist).keys())]. *)
Definition single_source_dijkstra_path_keys (g : WGraph) (n : nat)
    (max_dist : Z) : option (error + list nat) :=
  let st0 := mkDstate ∅ {[n := 0]} [(0, 0%nat, n)] 1 [n] in
  match dijkstra_loop (dijkstra_fuel g) g (inject_Z max_dist) st0 with
  | None => None
  | Some (inl e) => Some (inl e)
  | Some (inr st) => Some (inr (path_keys st))
  end.

(** [sso.skeleton[prop_key][neighs]]. *)
Fixpoint take_ixs (prop : list Z) (neighs : list nat) : error + list Z :=
  match neighs with
  | [] => inr []
  | i :: l =>
      match prop !! i, take_ixs prop l with
      | None, _ => inl IndexError
      | Some x, inr xs => inr (x :: xs)
      | Some _, inl e => inl e
      end
  end.

(** One round of [for n in range(g.number_of_nodes())]. *)
Definition vote_at (g : WGraph) (prop : list Z) (max_dist : Z) (n : nat)
    : option (error + Z) :=
  match single_source_dijkstra_path_keys g n max_dist with
  | None => None
  | Some (inl e) => Some (inl e)
  | Some (inr neighs) =>
      match take_ixs prop neighs with
      | inl e => Some (inl e)
      | inr vals => Some (Np.majority vals)
      end
  end.

Fixpoint vote_all (g : WGraph) (prop : list Z) (max_dist : Z)
    (ns : list nat) : option (error + list Z) :=
  match ns with
  | [] => Some (inr [])
  | n :: ns' =>
      match vote_at g prop max_dist n with
      | None => None
      | Some (inl e) => Some (inl e)
      | Some (inr c) =>
          match vote_all g prop max_dist ns' with
          | None => None
          | Some (inl e) => Some (inl e)
          | Some (inr cs) => Some (inr (c :: cs))
          end
      end
  end.

(** ["%s_avg%d" % (prop_key, max_dist)]. *)
Definition avg_key (prop_key : string) (max_dist : Z) : string :=
  prop_key +:+ "_avg" +:+ pretty max_dist.

(** The outcome of a call: an exception, or the returned value ([None]
    unless [return_res]). *)
Definition outcome : Type := error + option (list Z).

(** [majorityvote_skeleton_property]: the outcome and the dictionary
    [sso.skeleton] after the call. *)
Definition majorityvote_skeleton_property (g : WGraph)
    (skeleton : gmap string (list Z)) (prop_key : string) (max_dist : Z)
    (return_res : bool) : option (outcome * gmap string (list Z)) :=
  match skeleton !! prop_key with
  | None => Some (inl ValueError, skeleton)
  | Some prop =>
      match vote_all g prop max_dist (seq 0 (number_of_nodes g)) with
      | None => None
      | Some (inl e) => Some (inl e, skeleton)
      | Some (inr avg_prop) =>
          if return_res then Some (inr (Some avg_prop), skeleton)
          else Some (inr None, <[avg_key prop_key max_dist := avg_prop]> skeleton)
      end
  end.

End Window.

(** ** Majority vote over an annotation *)

Module Anno.

Local Open Scope Q_scope.

(** A [SkeletonAnnotation]: the nodes in the order [getNodes()] gives them,
    with their scaled coordinates and their [data] dictionaries (values read
    through [int(...)]), and the edges. *)
Record SkeletonAnnotation := mkAnno {
  getNodes : list nat;
  getCoordinate_scaled : nat -> Pos;
  data : gmap nat (gmap string Z);
  anno_edges : list (nat * nat)
}.

(** Neighbours in [annotation_to_nx_graph(anno)]. *)
Definition neighbors (anno : SkeletonAnnotation) (n : nat) : list nat :=
  flat_map (fun e =>
    if (fst e =? n)%nat then [snd e]
    else if (snd e =? n)%nat then [fst e] else []) (anno_edges anno).

(** The children of one parent that [nx.bfs_edges] meets for the first
    time, and the visited set after them. *)
Fixpoint scan (visited : gset nat) (children : list nat)
    : list nat * gset nat :=
  match children with
  | [] => ([], visited)
  | c :: cs =>
      if decide (c ∈ visited) then scan visited cs
      else let '(new, v) := scan ({[c]} ∪ visited) cs in (c :: new, v)
  end.

(** Every node the search can meet. *)
Definition universe (anno : SkeletonAnnotation) (source : nat) : gset nat :=
  {[source]} ∪ list_to_set (flat_map (fun e => [fst e; snd e]) (anno_edges anno)).

(** [nx.bfs_edges]: one round per dequeued parent; [None] stands for a
    search that has not finished within [fuel] rounds. *)
Fixpoint bfs_loop (fuel : nat) (anno : SkeletonAnnotation)
    (queue : list nat) (visited : gset nat) : option (list (nat * nat)) :=
  match fuel with
  | O => None
  | S fuel' =>
      match queue with
      | [] => Some []
      | parent :: queue' =>
          let '(new, v) := scan visited (neighbors anno parent) in
          match bfs_loop fuel' anno (queue' ++ new) v with
          | None => None
          | Some es => Some (map (fun c => (parent, c)) new ++ es)
          end
      end
  end.

Definition bfs_edges (anno : SkeletonAnnotation) (source : nat)
    : option (list (nat * nat)) :=
  bfs_loop (2 + size (universe anno source)) anno [source] {[source]}.

Section PathLength.

(** [np.linalg.norm]: the Euclidean norm, a real number that the model
    takes as given. *)
Variable norm : Pos -> Q.

(** The loop [for edge in nx.bfs_edges(skel_graph, source_node)] of
    [nodes_in_pathlength], from the accumulated length [curr_path_length]. *)
Fixpoint collect (anno : SkeletonAnnotation) (max_path_len : Q)
    (curr_path_length : Q) (es : list (nat * nat)) : list nat :=
  match es with
  | [] => []
  | edge :: es' =>
      let next_node := snd edge in
      let curr_vec := vsub (getCoordinate_scaled anno next_node)
                           (getCoordinate_scaled anno (fst edge)) in
      let len := curr_path_length + norm curr_vec in
      if Window.Qltb max_path_len len then []
      else next_node :: collect anno max_path_len len es'
  end.

Fixpoint windows_of (anno : SkeletonAnnotation) (max_path_len : Q)
    (sources : list nat) : option (list (list nat)) :=
  match sources with
  | [] => Some []
  | source_node :: rest =>
      match bfs_edges anno source_node, windows_of anno max_path_len rest with
      | Some es, Some ws =>
          Some ((source_node :: collect anno max_path_len 0 es) :: ws)
      | _, _ => None
      end
  end.

(** [nodes_in_pathlength]. *)
Definition nodes_in_pathlength (anno : SkeletonAnnotation) (max_path_len : Q)
    : option (list (list nat)) :=
  windows_of anno max_path_len (getNodes anno).

End PathLength.

(** [int(n.data[key])]. *)
Definition pred_value (d : gmap nat (gmap string Z)) (key : string) (n : nat)
    : error + Z :=
  match d !! n with
  | None => inl KeyError
  | Some dn =>
      match dn !! key with
      | None => inl KeyError
      | Some v => inr v
      end
  end.

Fixpoint pred_values (d : gmap nat (gmap string Z)) (key : string)
    (ns : list nat) : error + list Z :=
  match ns with
  | [] => inr []
  | n :: ns' =>
      match pred_value d key n, pred_values d key ns' with
      | inl e, _ => inl e
      | inr _, inl e => inl e
      | inr v, inr vs => inr (v :: vs)
      end
  end.

(** The keys of a [Counter], in the order of their first occurrence. *)
Fixpoint counter_keys (l : list Z) : list Z :=
  match l with
  | [] => []
  | x :: l' => x :: filter (fun y => y <> x) (counter_keys l')
  end.

(** [Counter(l).most_common()[0][0]]: the value counted most often, the
    first one met among equals; [IndexError] on an empty list. *)
Definition most_common (l : list Z) : error + Z :=
  match map (fun v => (v, length (filter (fun x => x = v) l))) (counter_keys l) with
  | [] => inl IndexError
  | vc :: rest => inr (fst (Np.argmax_from vc rest))
  end.

(** [new_node.setDataElem(key, val)]. *)
Definition setDataElem (d : gmap nat (gmap string Z)) (n : nat)
    (key : string) (val : Z) : gmap nat (gmap string Z) :=
  <[n := <[key := val]> (default ∅ (d !! n))]> d.

(** The vote of one window: the values of the old annotation, without the
    value 2. *)
Definition vote (old : gmap nat (gmap string Z)) (prop : string)
    (nodes : list nat) : error + Z :=
  match pred_values old (prop +:+ "_pred") nodes with
  | inl e => inl e
  | inr vals => most_common (filter (fun v => v <> 2%Z) vals)
  end.

(** Body of the loop [for nodes in nearest_nodes_list]: [old] is the deep
    copy, [cur] the annotation being updated. *)
Definition vote_window (old cur : gmap nat (gmap string Z)) (prop : string)
    (nodes : list nat) : error + gmap nat (gmap string Z) :=
  match nodes with
  | [] => inl IndexError
  | curr_node_id :: _ =>
      let assign :=
        match vote old prop nodes with
        | inl e => inl e
        | inr new_ax => inr (setDataElem cur curr_node_id (prop +:+ "_pred") new_ax)
        end in
      if bool_decide (prop = "axoness") then
        match pred_value cur "axoness_pred" curr_node_id with
        | inl e => inl e
        | inr v =>
            if (v =? 2)%Z then inr (setDataElem cur curr_node_id "axoness_pred" 2%Z)
            else assign
        end
      else assign
  end.

Fixpoint vote_windows (old cur : gmap nat (gmap string Z)) (prop : string)
    (ws : list (list nat)) : error + gmap nat (gmap string Z) :=
  match ws with
  | [] => inr cur
  | nodes :: ws' =>
      match vote_window old cur prop nodes with
      | inl e => inl e
      | inr cur' => vote_windows old cur' prop ws'
      end
  end.

(** Two invariants of the loop, for a node [n].  [voted]: the node holds
    the vote of a window (one of [W]) that it heads.  [not_soma]: for
    axoness, the node does not hold the value 2. *)
Definition voted (W : list nat -> Prop) (old : gmap nat (gmap string Z))
    (prop : string) (n : nat) (cur : gmap nat (gmap string Z)) : Prop :=
  exists v w, W w /\ head w = Some n /\ vote old prop w = inr v
    /\ pred_value cur (prop +:+ "_pred") n = inr v.

Definition not_soma (prop : string) (n : nat)
    (cur : gmap nat (gmap string Z)) : Prop :=
  prop = "axoness" -> pred_value cur (prop +:+ "_pred") n <> inr 2%Z.

(** [majority_vote]: an exception, or the [data] of the annotation after
    the call. *)
Definition majority_vote (norm : Pos -> Q) (anno : SkeletonAnnotation)
    (prop : string) (max_dist : Q)
    : option (error + gmap nat (gmap string Z)) :=
  match nodes_in_pathlength norm anno max_dist with
  | None => None
  | Some nearest_nodes_list =>
      Some (vote_windows (data anno) (data anno) prop nearest_nodes_list)
  end.

End Anno.

(** ** Supervoxel agglomeration *)

Module Mergelist.

(** A [Dict[int, int]]: the items in insertion order; a dictionary holds a
    key once. *)
Definition mergelist : Type := list (nat * nat).

(** [mergelist[sv_id]]. *)
Fixpoint getitem (ml : mergelist) (sv_id : nat) : option nat :=
  match ml with
  | [] => None
  | (k, v) :: ml' => if (k =? sv_id)%nat then Some v else getitem ml' sv_id
  end.

(** [np.max(list(mergelist.keys()))], which raises on an empty list. *)
Definition np_max (l : list nat) : error + nat :=
  match l with
  | [] => inl ValueError
  | x :: l' => inr (foldl Nat.max x l')
  end.

(** The part of a [SuperSegmentationDataset] that the function writes. *)
Record ssd_state := mkSsd {
  mapping_dict : gmap nat (list nat);
  id_changer : list Z
}.

(** [for sv_id in mergelist.values(): ssd.mapping_dict[sv_id] = []]. *)
Definition reset_values (md : gmap nat (list nat)) (ml : mergelist)
    : gmap nat (list nat) :=
  foldl (fun md kv => <[snd kv := []]> md) md ml.

(** Body of [for sv_id in mergelist.keys()]. *)
Definition assign (ml : mergelist) (st : ssd_state) (sv_id : nat)
    : error + ssd_state :=
  match getitem ml sv_id with
  | None => inl KeyError
  | Some ssv_id =>
      match mapping_dict st !! ssv_id with
      | None => inl KeyError
      | Some svs =>
          if (sv_id <? length (id_changer st))%nat
          then inr (mkSsd (<[ssv_id := svs ++ [sv_id]]> (mapping_dict st))
                          (<[sv_id := Z.of_nat ssv_id]> (id_changer st)))
          else inl IndexError
      end
  end.

Fixpoint assign_all (ml : mergelist) (st : ssd_state) (keys : list nat)
    : error + ssd_state :=
  match keys with
  | [] => inr st
  | sv_id :: keys' =>
      match assign ml st sv_id with
      | inl e => inl e
      | inr st' => assign_all ml st' keys'
      end
  end.

(** [assemble_from_mergelist] for a mergelist given as a dictionary
    ([None] for the argument [None], on which [mergelist.values()] raises);
    [sv_in_version_dict] is the test ["sv" in ssd.version_dict]. *)
Definition assemble_from_mergelist (sv_in_version_dict : bool)
    (ssd : ssd_state) (ml : option mergelist) : error + ssd_state :=
  match ml with
  | None => inl AttributeError
  | Some ml =>
      if negb sv_in_version_dict then inl AssertionError
      else
        let md := reset_values (mapping_dict ssd) ml in
        match np_max (map fst ml) with
        | inl e => inl e
        | inr m => assign_all ml (mkSsd md (replicate (m + 1) (-1)%Z)) (map fst ml)
        end
  end.

(** The state after the items [P] of the mergelist [ml] have been
    entered, for the dictionary [md0] the dataset had and the largest
    key [m]. *)
Definition entered (ml : mergelist) (md0 : gmap nat (list nat)) (m : nat)
    (P : mergelist) (st : ssd_state) : Prop :=
  length (id_changer st) = (m + 1)%nat
  /\ (forall sv ssv, (sv, ssv) ∈ P -> id_changer st !! sv = Some (Z.of_nat ssv))
  /\ (forall sv, sv ∉ map fst P -> (sv <= m)%nat ->
        id_changer st !! sv = Some (-1)%Z)
  /\ (forall ssv, ssv ∈ map snd ml ->
        mapping_dict st !! ssv
        = Some (map fst (filter (fun kv => snd kv = ssv) P)))
  /\ (forall k, k ∉ map snd ml -> mapping_dict st !! k = md0 !! k).

End Mergelist.

(** ** Label counts per mesh vertex *)

Module SemSeg.

(** A [np.uint8] value. *)
Definition uint8 (x : Z) : Z := x mod 256.

(** [count_arr[vertex_ix][l]]. *)
Definition entry (count_arr : list (list Z)) (vertex_ix l : nat) : option Z :=
  match count_arr !! vertex_ix with
  | None => None
  | Some row => row !! l
  end.

(** [count_arr[vertex_ix][l] += 1] on an array of [np.uint8].  The
    function is compiled with [@jit(nopython=True)], which checks no bounds:
    [None] stands for an access outside the array, whose outcome is not
    defined. *)
Definition increment (count_arr : list (list Z)) (vertex_ix l : nat)
    : option (list (list Z)) :=
  match count_arr !! vertex_ix with
  | None => None
  | Some row =>
      match row !! l with
      | None => None
      | Some c => Some (<[vertex_ix := <[l := uint8 (c + 1)]> row]> count_arr)
      end
  end.

(** The loop [for ii in range(len(index_arr))], over the indices [iis]. *)
Fixpoint counter_loop (iis : list nat) (index_arr label_arr : list nat)
    (bg_label : nat) (count_arr : list (list Z)) : option (list (list Z)) :=
  match iis with
  | [] => Some count_arr
  | ii :: rest =>
      match index_arr !! ii with
      | None => None
      | Some vertex_ix =>
          if (vertex_ix =? bg_label)%nat
          then counter_loop rest index_arr label_arr bg_label count_arr
          else
            match label_arr !! ii with
            | None => None
            | Some l =>
                match increment count_arr vertex_ix l with
                | None => None
                | Some count_arr' =>
                    counter_loop rest index_arr label_arr bg_label count_arr'
                end
            end
      end
  end.

(** [semseg2mesh_counter]. *)
Definition semseg2mesh_counter (index_arr label_arr : list nat)
    (bg_label : nat) (count_arr : list (list Z)) : option (list (list Z)) :=
  counter_loop (seq 0 (length index_arr)) index_arr label_arr bg_label count_arr.

(** Number of the places [ii] among [iis] at which the vertex [v], which is
    not the background, is shown with the label [l]. *)
Definition hits (iis : list nat) (index_arr label_arr : list nat)
    (bg_label v l : nat) : nat :=
  length (filter (fun ii => index_arr !! ii = Some v /\ v <> bg_label
                            /\ label_arr !! ii = Some l) iis).

End SemSeg.

(** ** Ratio of symmetric synapses *)

Module SynRatio.

Local Open Scope Q_scope.

(** The exceptions of [syn_sign_ratio_celltype]: [None / 2] is a
    [TypeError]. *)
Inductive exn := TypeError | Exn (e : error).

(** A synapse of [ssv.syn_ssv]: the compartment label at its coordinate
    ([syn_axs]), and its attributes ['syn_sign'] and ['mesh_area'], which
    [load_so_attr_bulk(..., allow_missing=True)] gives as [None] when they
    are missing. *)
Record synapse := mkSynapse {
  syn_ax : Z;
  syn_sign : option Z;
  mesh_area : option Q
}.

(** [syn_axs[syn_axs == 3] = 1; syn_axs[syn_axs == 4] = 1]. *)
Definition bouton_to_axon (ax : Z) : Z :=
  if ((ax =? 3) || (ax =? 4))%Z then 1%Z else ax.

(** The loop [for syn_ix, syn in enumerate(ssv.syn_ssv)]: the pairs of
    [syn_signs] and [syn_sizes]. *)
Fixpoint collect (comp_types : list Z) (syns : list synapse)
    : exn + list (Z * Q) :=
  match syns with
  | [] => inr []
  | syn :: rest =>
      if bool_decide (bouton_to_axon (syn_ax syn) ∈ comp_types)
      then
        match mesh_area syn with
        | None => inl TypeError
        | Some area =>
            match syn_sign syn with
            | None => inl (Exn ValueError)
            | Some sign =>
                match collect comp_types rest with
                | inl e => inl e
                | inr l => inr ((sign, area / 2) :: l)
                end
            end
        end
      else collect comp_types rest
  end.

(** [np.sum]. *)
Definition Qsum (l : list Q) : Q := foldr Qplus 0 l.

(** [syn_sign_ratio_celltype]: [cached] is the stored attribute
    ["syn_sign_ratio"]. *)
Definition syn_sign_ratio_celltype (cached : option Q) (syns : list synapse)
    (weighted recompute : bool) (comp_types : option (list Z)) : exn + Q :=
  let comp_types := default [1%Z] comp_types in
  match (if recompute then None else cached) with
  | Some ratio => inr ratio
  | None =>
      if (length syns =? 0)%nat then inr (-1)
      else
        match collect comp_types syns with
        | inl e => inl e
        | inr l =>
            let syn_sizes := map snd l in
            if (length l =? 0)%nat || Qeq_bool (Qsum syn_sizes) 0 then inr (-1)
            else if weighted
            then inr (Qsum (map snd (filter (fun ss => fst ss = (-1)%Z) l))
                      / Qsum syn_sizes)
            else inr (inject_Z (Z.of_nat (length (filter (fun ss => fst ss = (-1)%Z) l)))
                      / inject_Z (Z.of_nat (length l)))
        end
  end.

End SynRatio.

(** ** Merging the skeletons of the supervoxels *)

Module Fragments.
Import Skel.

(** One supervoxel of [sso.sv_ids] with the arrays that
    [create_new_skeleton_sv_fast] returned for it. *)
Definition fragment : Type := nat * skeleton.

(** [np.cumsum]. *)
Fixpoint cumsum_from (acc : nat) (l : list nat) : list nat :=
  match l with
  | [] => []
  | x :: l' => (acc + x)%nat :: cumsum_from (acc + x) l'
  end.

(** [[0] + list(np.cumsum([len(el[0]) for el in res])[:-1])]. *)
Definition n_nodes_per_sv (res : list fragment) : list nat :=
  0%nat :: removelast (cumsum_from 0 (map (fun el => length (sk_nodes (snd el))) res)).

(** [res[ii][2] + int(n_nodes_per_sv[ii])]. *)
Definition shift (offset : nat) (es : list (nat * nat)) : list (nat * nat) :=
  map (fun e => (fst e + offset, snd e + offset)%nat) es.

(** The lists [nodes], [diameters], [edges] and [sv_id_arr] that the loop
    [for ii in range(len(res))] fills, from the index [ii] on. *)
Fixpoint collect (offsets : list nat) (ii : nat) (rest : list fragment)
    : list (list Pos) * list (list Q) * list (list (nat * nat)) * list (list nat) :=
  match rest with
  | [] => ([], [], [], [])
  | (sv_id, el) :: rest' =>
      let '(nodes, diameters, edges, sv_id_arr) := collect offsets (S ii) rest' in
      if (length (sk_nodes el) =? 0)%nat then (nodes, diameters, edges, sv_id_arr)
      else (sk_nodes el :: nodes,
            sk_diameters el :: diameters,
            shift (nth ii offsets 0%nat) (sk_edges el) :: edges,
            replicate (length (sk_nodes el)) sv_id :: sv_id_arr)
  end.

(** [np.concatenate], which raises on an empty list of arrays. *)
Definition np_concatenate {A} (arrays : list (list A)) : error + list A :=
  match arrays with
  | [] => inl ValueError
  | _ => inr (concat arrays)
  end.

(** The arrays appended by the loop [for e1, e2 in g.edges()]. *)
Definition bridges (nodes : list Pos) (sv_id_arr : list nat) (scaling : Pos)
    (max_edge_length : Z) (sv_graph : list (nat * nat))
    : list (list (nat * nat)) :=
  omap (fun e =>
          match Stitch.bridge nodes sv_id_arr scaling max_edge_length (fst e) (snd e) with
          | Some pr => Some [pr]
          | None => None
          end) sv_graph.

(** [from_sso_to_netkx_fast] up to [ssv_skel['edges'] = np.concatenate(edges)]:
    the arrays of [ssv_skel], and [sv_id_arr].  [res] lists the supervoxels
    in the order of [sso.sv_ids]; [sv_graph] holds the edges of
    [sso.load_sv_graph()]. *)
Definition merged_skeleton (res : list fragment) (sv_graph : list (nat * nat))
    (scaling : Pos) (max_edge_length : Z) : error + (skeleton * list nat) :=
  let '(nodes, diameters, edges, sv_id_arr) := collect (n_nodes_per_sv res) 0 res in
  match np_concatenate nodes with
  | inl e => inl e
  | inr ns =>
      match np_concatenate diameters with
      | inl e => inl e
      | inr ds =>
          match np_concatenate sv_id_arr with
          | inl e => inl e
          | inr ids =>
              let edges :=
                if (1 <? length res)%nat
                then edges ++ bridges ns ids scaling max_edge_length sv_graph
                else edges in
              match np_concatenate edges with
              | inl e => inl e
              | inr es => inr (mkSkeleton ns ds es, ids)
              end
          end
      end
  end.

(** Number of skeleton nodes of the supervoxels before the one at [ii]. *)
Definition nodes_before (res : list fragment) (ii : nat) : nat :=
  length (concat (map (fun el => sk_nodes (snd el)) (take ii res))).

End Fragments.

(** ** Sparsening a skeleton *)

Module Sparsify.
Import NX.

(** [G.has_edge(u, v)]. *)
Definition has_edge {A} (g : Graph A) (u v : nat) : bool :=
  existsb (fun e => ((fst e =? u) && (snd e =? v))
                    || ((fst e =? v) && (snd e =? u)))%nat (edges g).

(** [G.add_edge(u, v)] for two nodes of the graph: an edge that is there
    already is not added again. *)
Definition add_edge {A} (g : Graph A) (u v : nat) : Graph A :=
  if has_edge g u v then g else mkGraph (nodes g) (edges g ++ [(u, v)]).

Definition dot (a b : Pos) : Z := px a * px b + py a * py b + pz a * pz b.

(** [abs(dot_prod) > dot_prod_thresh] for the cosine [dot_prod] of the
    angle between two integer vectors.  Without rounding, the cosine exceeds
    a threshold [t >= 0] in absolute value when the square of the dot product
    exceeds [t^2] times the squared norms.  A vector of length 0 makes
    [dot_prod] a [nan], which compares false. *)
Definition dot_above (vl vr : Pos) (dot_prod_thresh : Q) : bool :=
  negb (norm2 vl =? 0) && negb (norm2 vr =? 0)
  && (Window.Qltb dot_prod_thresh 0
      || Window.Qltb (dot_prod_thresh * dot_prod_thresh
                      * inject_Z (norm2 vl * norm2 vr))%Q
                     (inject_Z (dot vl vr * dot vl vr))).

(** [np.linalg.norm v <= t] for an integer vector [v] of squared norm [n2]. *)
Definition norm_le (n2 t : Z) : bool := (0 <=? t) && (n2 <=? t * t).

(** The test that removes the node between [left_node] and [right_node]. *)
Definition removable (g : Graph Pos) (scal : Pos) (dot_prod_thresh : Q)
    (max_dist_thresh min_dist_thresh : Z)
    (visiting_node left_node right_node : nat) : bool :=
  let vector_left_node :=
    vmul (vsub (position g left_node) (position g visiting_node)) scal in
  let vector_right_node :=
    vmul (vsub (position g right_node) (position g visiting_node)) scal in
  let dist2 :=
    norm2 (vsub (vmul (position g right_node) scal)
                (vmul (position g left_node) scal)) in
  (dot_above vector_left_node vector_right_node dot_prod_thresh
   && norm_lt dist2 max_dist_thresh)
  || norm_le dist2 min_dist_thresh.

(** Body of the loop [for visiting_node in visiting_nodes]: the graph and
    the counter [change] after it. *)
Definition visit (scal : Pos) (dot_prod_thresh : Q)
    (max_dist_thresh min_dist_thresh : Z) (st : Graph Pos * nat)
    (visiting_node : nat) : result (Graph Pos * nat) :=
  let '(skel_nx, change) := st in
  if (degree skel_nx visiting_node =? 2)%nat
  then
    match neighbors skel_nx visiting_node with
    | left_node :: right_node :: _ =>
        if removable skel_nx scal dot_prod_thresh max_dist_thresh
                     min_dist_thresh visiting_node left_node right_node
        then Ok (add_edge (remove_node skel_nx visiting_node) left_node right_node,
                 S change)
        else Ok st
    | _ => Raise IndexError
    end
  else Ok st.

Fixpoint visit_all (scal : Pos) (dot_prod_thresh : Q)
    (max_dist_thresh min_dist_thresh : Z) (st : Graph Pos * nat)
    (visiting_nodes : list nat) : result (Graph Pos * nat) :=
  match visiting_nodes with
  | [] => Ok st
  | visiting_node :: rest =>
      st' ← visit scal dot_prod_thresh max_dist_thresh min_dist_thresh st
                  visiting_node;
      visit_all scal dot_prod_thresh max_dist_thresh min_dist_thresh st' rest
  end.

Section SetOrder.

(** [list({...})]: the order in which Python enumerates a set of node ids
    is left open. *)
Variable set_order : list nat -> list nat.

Definition visiting_nodes (g : Graph Pos) : list nat :=
  set_order (filter (fun k => degree g k = 2%nat) (node_ids g)).

(** The loop [while change > 0]. *)
Fixpoint sparsify_loop (fuel : nat) (scal : Pos) (dot_prod_thresh : Q)
    (max_dist_thresh min_dist_thresh : Z) (skel_nx : Graph Pos)
    : result (Graph Pos) :=
  match fuel with
  | O => OutOfFuel
  | S fuel' =>
      st ← visit_all scal dot_prod_thresh max_dist_thresh min_dist_thresh
                     (skel_nx, 0%nat) (visiting_nodes skel_nx);
      if (0 <? snd st)%nat
      then sparsify_loop fuel' scal dot_prod_thresh max_dist_thresh
                         min_dist_thresh (fst st)
      else Ok (fst st)
  end.

(** [sparsify_skeleton_fast]: every round but the last one removes a node. *)
Definition sparsify_skeleton_fast (g : Graph Pos) (scal : Pos)
    (dot_prod_thresh : Q) (max_dist_thresh min_dist_thresh : Z)
    : result (Graph Pos) :=
  sparsify_loop (S (length (nodes g))) scal dot_prod_thresh max_dist_thresh
                min_dist_thresh g.

End SetOrder.

(** An edge without its orientation. *)
Definition norm_edge (e : nat * nat) : nat * nat :=
  (Nat.min (fst e) (snd e), Nat.max (fst e) (snd e)).

(** A graph as [nx.Graph] keeps it: its nodes are distinct, its edges join
    nodes of the graph, and no edge is held twice.  [simple] graphs have no
    self-loop either. *)
Definition simple {A} (g : Graph A) : bool :=
  wf_graph g
  && forallb (fun e => negb (fst e =? snd e)%nat) (edges g)
  && bool_decide (NoDup (map norm_edge (edges g))).

(** What the loop keeps of the graph [g] it started from, in the graph
    [h] it has reached: [h] is simple, its nodes are nodes of [g] in their
    order and with their positions, two nodes of [h] are connected in [h]
    exactly when they are in [g], and every node of [g] is connected in [g]
    to a node of [h]. *)
Definition sparser (g h : Graph Pos) : Prop :=
  simple h = true
  /\ (exists S : list nat, nodes h = filter (fun np => fst np ∉ S) (nodes g))
  /\ (forall x y, x ∈ node_ids h -> y ∈ node_ids h ->
        connected (edges h) x y <-> connected (edges g) x y)
  /\ (forall x, x ∈ node_ids g ->
        exists y, y ∈ node_ids h /\ connected (edges g) x y).

(** No node of degree 2 of [h] passes the test that removes it. *)
Definition settled (scal : Pos) (dot_prod_thresh : Q)
    (max_dist_thresh min_dist_thresh : Z) (h : Graph Pos) (v : nat) : Prop :=
  degree h v = 2%nat ->
  exists l r, neighbors h v = [l; r]
    /\ removable h scal dot_prod_thresh max_dist_thresh min_dist_thresh v l r
       = false.

End Sparsify.

(** ** Sample inputs *)

Module Examples.

(** A path 2 - 4 - 7. *)
Definition path3 : NX.Graph Pos :=
  NX.mkGraph [(2%nat, (5, 5, 5)); (4%nat, (6, 5, 5)); (7%nat, (6, 6, 5))]
             [(2%nat, 4%nat); (7%nat, 4%nat)].

(** An edge 1 - 2 beside a node 0 that lies on no edge. *)
Definition isolated3 : NX.Graph Pos :=
  NX.mkGraph [(0%nat, (1, 1, 1)); (1%nat, (2, 2, 2)); (2%nat, (3, 3, 3))]
             [(1%nat, 2%nat)].

(** An edge 1 - 0 whose nodes were added in decreasing order of their ids. *)
Definition swapped2 : NX.Graph Pos :=
  NX.mkGraph [(1%nat, (2, 2, 2)); (0%nat, (1, 1, 1))] [(1%nat, 0%nat)].

(** A weighted path 0 - 1 - 2 and a skeleton with a ["myelin"] array. *)
Definition wpath3 : Window.WGraph :=
  Window.mkWGraph 3 [(0%nat, 1%nat, 5%Q); (1%nat, 2%nat, 7%Q)].

Definition myelin_skeleton : gmap string (list Z) :=
  {[ "myelin" := [1; 0; 1] ]}.

(** Two joined nodes 10 nm apart; node 0 is a soma node. *)
Definition soma_pair : Anno.SkeletonAnnotation :=
  Anno.mkAnno [0%nat; 1%nat]
    (fun n => if (n =? 0)%nat then (0, 0, 0) else (10, 0, 0))
    {[ 0%nat := {[ "axoness_pred" := 2; "spiness_pred" := 2 ]};
       1%nat := {[ "axoness_pred" := 1; "spiness_pred" := 2 ]} ]}
    [(0%nat, 1%nat)].

(** A branch node 0 with two long arms (to 3 and to 4) and a winding stub
    0 - 1 - 2 whose tip 2 lies next to the branch node. *)
Definition winding : NX.Graph Pos :=
  NX.mkGraph [(0%nat, (0, 0, 0)); (1%nat, (0, 0, 20)); (2%nat, (0, 0, 1));
              (3%nat, (100, 0, 0)); (4%nat, (0, 100, 0))]
             [(0%nat, 1%nat); (1%nat, 2%nat); (0%nat, 3%nat); (0%nat, 4%nat)].

(** What the pruner leaves of it for the threshold 10. *)
Definition pruned_winding : NX.Graph Pos :=
  NX.mkGraph [(0%nat, (0, 0, 0)); (3%nat, (100, 0, 0)); (4%nat, (0, 100, 0))]
             [(0%nat, 3%nat); (0%nat, 4%nat)].

(** A branch node 0 with a stub to node 1, 5 voxels away along the first
    axis, and two long arms. *)
Definition short_stub : NX.Graph Pos :=
  NX.mkGraph [(0%nat, (0, 0, 1000)); (1%nat, (5, 0, 1000));
              (2%nat, (0, 0, 0)); (3%nat, (0, 0, 2000))]
             [(0%nat, 1%nat); (0%nat, 2%nat); (0%nat, 3%nat)].

(** A square with a diagonal and a tail. *)
Definition kite : NX.Graph Pos :=
  NX.mkGraph [(0%nat, (0, 0, 0)); (1%nat, (10, 0, 0)); (2%nat, (10, 10, 0));
              (3%nat, (20, 10, 0))]
             [(0%nat, 1%nat); (1%nat, 2%nat); (2%nat, 0%nat); (2%nat, 3%nat)].

(** Its canonical skeleton for the scaling (10, 10, 20): the wrapped
    differences make the diagonal (2, 0) the lightest edge. *)
Definition kite_skeleton : Skel.skeleton :=
  Skel.mkSkeleton [(0, 0, 0); (10, 0, 0); (10, 10, 0); (20, 10, 0)]
                  [0%Q; 0%Q; 0%Q; 0%Q]
                  [(2%nat, 0%nat); (0%nat, 1%nat); (2%nat, 3%nat)].

(** Five nodes in a row: three of class 1, two of class 3. *)
Definition axon_row : list Z := [1; 1; 1; 3; 3].
Definition row_edges : list (nat * nat) :=
  [(0%nat, 1%nat); (1%nat, 2%nat); (2%nat, 3%nat); (3%nat, 4%nat)].

(** The norm, rounded down to an integer. *)
Definition floor_norm (v : Pos) : Q := inject_Z (Z.sqrt (norm2 v)).

(** Three supervoxels 7, 8 and 9; the second one has no skeleton. *)
Definition three_supervoxels : list Fragments.fragment :=
  [(7%nat, Skel.mkSkeleton [(0, 0, 0); (30, 0, 0)] [0%Q; 0%Q] [(0%nat, 1%nat)]);
   (8%nat, Skel.mkSkeleton [] [] []);
   (9%nat, Skel.mkSkeleton [(40, 0, 0); (100, 0, 0)] [0%Q; 0%Q] [(0%nat, 1%nat)])].

(** A path 0 - 1 - 2 - 3: node 1 lies on the line from node 0 to node 2,
    node 2 is a corner, 1000 voxels away from node 3. *)
Definition bent : NX.Graph Pos :=
  NX.mkGraph [(0%nat, (0, 0, 0)); (1%nat, (10, 0, 0)); (2%nat, (20, 0, 0));
              (3%nat, (20, 1000, 0))]
             [(0%nat, 1%nat); (1%nat, 2%nat); (2%nat, 3%nat)].

(** What sparsening leaves of it: node 1 is gone, its neighbours are joined. *)
Definition sparse_bent : NX.Graph Pos :=
  NX.mkGraph [(0%nat, (0, 0, 0)); (2%nat, (20, 0, 0)); (3%nat, (20, 1000, 0))]
             [(2%nat, 3%nat); (0%nat, 2%nat)].

End Examples.

(** * Properties *)

Lemma norm2_nonneg v : 0 <= norm2 v.
Proof. unfold norm2. nia. Qed.

(** ** Radius Estimator *)

Section RadiusFacts.
Import Radius.
Local Open Scope Q_scope.

Lemma assign_diameters_length dists : forall ii ds ds',
  assign_diameters ii dists ds = Some ds' -> length ds' = length ds.
Proof.
  induction dists as [|row rest IH]; intros ii ds ds' H; simpl in H.
  - congruence.
  - destruct (ii <? length ds)%nat; [|discriminate].
    apply IH in H. rewrite H. apply length_insert.
Qed.

Lemma assign_diameters_below dists : forall ii ds ds' j,
  assign_diameters ii dists ds = Some ds' -> (j < ii)%nat -> ds' !! j = ds !! j.
Proof.
  induction dists as [|row rest IH]; intros ii ds ds' j H Hj; simpl in H.
  - congruence.
  - destruct (ii <? length ds)%nat; [|discriminate].
    rewrite (IH _ _ _ j H) by lia.
    apply list_lookup_insert_ne. lia.
Qed.

Lemma assign_diameters_lookup dists : forall ii ds ds' j row,
  assign_diameters ii dists ds = Some ds' ->
  dists !! j = Some row ->
  ds' !! (ii + j)%nat = Some (median row * 2 / 10).
Proof.
  induction dists as [|r rest IH]; intros ii ds ds' j row H Hj; simpl in H.
  - discriminate.
  - destruct (ii <? length ds)%nat eqn:Hlt; [|discriminate].
    apply Nat.ltb_lt in Hlt.
    destruct j as [|j]; simpl in Hj.
    + injection Hj as ->. rewrite Nat.add_0_r.
      rewrite (assign_diameters_below _ _ _ _ ii H) by lia.
      apply list_lookup_insert_eq. exact Hlt.
    + replace (ii + S j)%nat with (S ii + j)%nat by lia.
      eapply IH; eauto.
Qed.

Lemma assign_diameters_total dists : forall ii ds,
  (ii + length dists <= length ds)%nat ->
  exists ds', assign_diameters ii dists ds = Some ds'.
Proof.
  induction dists as [|r rest IH]; intros ii ds Hlen; simpl in *.
  - eauto.
  - destruct (ii <? length ds)%nat eqn:Hlt.
    + apply IH. rewrite length_insert. lia.
    + apply Nat.ltb_ge in Hlt. lia.
Qed.

(** C2 (as the code has it): when the diameter array has an entry for every
    skeleton node, the call succeeds and the diameter of node [ii] becomes
    [median(dists[ii]) * 2 / 10 * plump_factor]. *)
Theorem radius_correction_diameter (dists : list (list Q)) (diameters : list Q)
    (plump_factor : Q) :
  (length dists <= length diameters)%nat ->
  exists ds, radius_correction_found_vertices dists diameters plump_factor = Some ds
    /\ length ds = length diameters
    /\ forall ii row, dists !! ii = Some row ->
         ds !! ii = Some (median row * 2 / 10 * plump_factor).
Proof.
  intros Hlen.
  destruct (assign_diameters_total dists 0 diameters) as [ds' Hds']; [simpl; lia|].
  unfold radius_correction_found_vertices. rewrite Hds'.
  eexists; split; [reflexivity|]. split.
  - rewrite length_map. eapply assign_diameters_length; eauto.
  - intros ii row Hrow.
    pose proof (assign_diameters_lookup _ _ _ _ _ _ Hds' Hrow) as Hl.
    simpl in Hl. rewrite list_lookup_fmap, Hl. reflexivity.
Qed.

Lemma radius_correction_diameter_witness :
  exists ds, radius_correction_found_vertices [[1; 3; 2]; [4; 8]] [0; 0] 3 = Some ds
    /\ length ds = length [0; 0]
    /\ forall ii row, [[1; 3; 2]; [4; 8]] !! ii = Some row ->
         ds !! ii = Some (median row * 2 / 10 * 3).
Proof. apply (radius_correction_diameter [[1; 3; 2]; [4; 8]] [0; 0] 3). simpl. lia. Defined.

(** C2 (as the spec states it) fails: a node whose single nearest surface
    vertex is at distance 10 gets diameter [10 * 2 / 10 = 2] (with
    [plump_factor = 1]), not twice the median, 20. *)
Lemma radius_correction_not_twice_median :
  radius_correction_found_vertices [[10]] [0] 1 = Some [10 * 2 / 10 * 1]
  /\ 10 * 2 / 10 * 1 == 2
  /\ ~ 10 * 2 / 10 * 1 == 2 * median [10] * 1.
Proof.
  split; [reflexivity|]. split; [reflexivity|].
  intros Heq. vm_compute in Heq. discriminate.
Qed.

End RadiusFacts.

(** ** Stitcher *)

Section StitchFacts.
Import Stitch.

Lemma norm_gt_spec n2 t : norm_gt n2 t = true <-> t < 0 \/ t * t < n2.
Proof.
  unfold norm_gt. rewrite orb_true_iff, !Z.ltb_lt. tauto.
Qed.

Lemma skipped_spec c L :
  skipped c L = true <->
  min_dists2 c < node_dist_check2 c \/ norm_gt (node_dist_check2 c) L = true.
Proof.
  unfold skipped. rewrite orb_true_iff, Z.ltb_lt. tauto.
Qed.

Lemma argmin_from_spec l : forall i best d j,
  argmin_from i best l = (d, j) ->
  (d, j) = best
  \/ ((i <= j)%nat /\ (j - i < length l)%nat /\ nth (j - i) l 0 = d).
Proof.
  induction l as [|x l IH]; intros i best d j H; simpl in H; [auto|].
  apply IH in H as [H|(Hi & Hj & Hn)].
  - destruct (x <? fst best); [|auto].
    injection H as -> ->. right. rewrite Nat.sub_diag. simpl.
    repeat split; lia.
  - right. replace (j - i)%nat with (S (j - S i)) by lia. simpl.
    repeat split; lia.
Qed.

Lemma argmin_spec l d j :
  argmin l = Some (d, j) -> (j < length l)%nat /\ nth j l 0 = d.
Proof.
  destruct l as [|x l]; [discriminate|]. simpl. intros [= H].
  apply argmin_from_spec in H as [[= -> ->]|(Hi & Hj & Hn)].
  - split; [lia|reflexivity].
  - destruct j as [|j]; [lia|]. simpl in *.
    rewrite Nat.sub_0_r in *. split; [lia|exact Hn].
Qed.

Lemma nth_nodes_of nodes sv_id_arr sv i :
  (i < length (ixs_of sv_id_arr sv))%nat ->
  nth i (nodes_of nodes sv_id_arr sv) (0, 0, 0)
  = nth (nth i (ixs_of sv_id_arr sv) 0%nat) nodes (0, 0, 0).
Proof.
  intros Hi. unfold nodes_of.
  rewrite (nth_indep _ _ (nth 0 nodes (0, 0, 0))) by (rewrite length_map; exact Hi).
  apply (map_nth (fun i => nth i nodes (0, 0, 0))).
Qed.

(** The candidate is the closest pair: its length is [np.min(dists)]. *)
Lemma closest_pair_exact nodes sv_id_arr scaling e1 e2 c :
  closest_pair nodes sv_id_arr scaling e1 e2 = Some c ->
  min_dists2 c = node_dist_check2 c.
Proof.
  unfold closest_pair.
  destruct ((length (nodes_of nodes sv_id_arr e1) =? 0)
            || (length (nodes_of nodes sv_id_arr e2) =? 0))%nat eqn:Hlen;
    [discriminate|].
  apply orb_false_iff in Hlen as [H1 H2].
  apply Nat.eqb_neq in H1, H2.
  set (nodes1 := nodes_of nodes sv_id_arr e1) in *.
  set (nodes2 := nodes_of nodes sv_id_arr e2) in *.
  set (res := map (fun q => default (0, 0%nat) (query scaling nodes1 q)) nodes2).
  destruct (argmin (map fst res)) as [[dmin j]|] eqn:Hmin; [|discriminate].
  intros [= <-]. simpl.
  apply argmin_spec in Hmin as [Hj Hd].
  rewrite length_map in Hj. unfold res in Hj. rewrite length_map in Hj.
  assert (Hj2 : (j < length (ixs_of sv_id_arr e2))%nat).
  { unfold nodes2, nodes_of in Hj. rewrite length_map in Hj. exact Hj. }
  assert (Hres : nth j res (0, 0%nat)
                 = default (0, 0%nat) (query scaling nodes1 (nth j nodes2 (0, 0, 0)))).
  { unfold res.
    rewrite (nth_indep _ _ (default (0, 0%nat) (query scaling nodes1 (0, 0, 0))))
      by (rewrite length_map; exact Hj).
    apply (map_nth (fun q => default (0, 0%nat) (query scaling nodes1 q))). }
  assert (Hfst : dmin = fst (nth j res (0, 0%nat))).
  { rewrite <- Hd.
    rewrite (nth_indep _ _ (fst (0, 0%nat)))
      by (rewrite length_map; unfold res; rewrite length_map; exact Hj).
    apply (map_nth fst). }
  rewrite Hfst, Hres. unfold query.
  destruct (argmin (map (fun p => sqdist scaling p (nth j nodes2 (0, 0, 0))) nodes1))
    as [[d i]|] eqn:Hq.
  2:{ destruct nodes1; [simpl in H1; congruence|discriminate]. }
  apply argmin_spec in Hq as [Hi Hq]. rewrite length_map in Hi. simpl.
  assert (Hi1 : (i < length (ixs_of sv_id_arr e1))%nat).
  { unfold nodes1, nodes_of in Hi. rewrite length_map in Hi. exact Hi. }
  rewrite <- Hq.
  rewrite (nth_indep _ _ (sqdist scaling (0, 0, 0) (nth j nodes2 (0, 0, 0))))
    by (rewrite length_map; exact Hi).
  rewrite (map_nth (fun p => sqdist scaling p (nth j nodes2 (0, 0, 0)))).
  unfold nodes1, nodes2. rewrite !nth_nodes_of by assumption. reflexivity.
Qed.

(** Hence, without rounding, only the bound [max_edge_length] can skip a
    candidate. *)
Lemma bridge_added_exact nodes sv_id_arr scaling max_edge_length e1 e2 pr :
  bridge nodes sv_id_arr scaling max_edge_length e1 e2 = Some pr <->
  exists c, closest_pair nodes sv_id_arr scaling e1 e2 = Some c
    /\ pr = (ix1 c, ix2 c)
    /\ norm_gt (node_dist_check2 c) max_edge_length = false.
Proof.
  unfold bridge. split.
  - destruct (closest_pair _ _ _ _ _) as [c|] eqn:Hc; [|discriminate].
    destruct (skipped c max_edge_length) eqn:Hs; [discriminate|].
    intros [= <-]. exists c. repeat split.
    unfold skipped in Hs. apply orb_false_iff in Hs as [_ Hs]. exact Hs.
  - intros (c & Hc & -> & Hn). rewrite Hc. unfold skipped.
    rewrite (closest_pair_exact _ _ _ _ _ _ Hc), Z.ltb_irrefl, Hn. reflexivity.
Qed.

(** C4 (as the code has it): for an adjacency edge whose two supervoxels
    both have skeleton nodes (so that a closest pair [c] exists), the
    bridging edge between the closest pair is appended exactly when neither
    [np.min(dists) < node_dist_check] nor [node_dist_check >
    max_edge_length] holds; either condition alone skips it. *)
Theorem bridge_added_iff (nodes : list Pos) (sv_id_arr : list nat)
    (scaling : Pos) (max_edge_length : Z) (e1 e2 : nat) (pr : nat * nat) :
  bridge nodes sv_id_arr scaling max_edge_length e1 e2 = Some pr <->
  exists c, closest_pair nodes sv_id_arr scaling e1 e2 = Some c
    /\ pr = (ix1 c, ix2 c)
    /\ ~ (min_dists2 c < node_dist_check2 c
          \/ norm_gt (node_dist_check2 c) max_edge_length = true).
Proof.
  unfold bridge. split.
  - destruct (closest_pair _ _ _ _ _) as [c|]; [|discriminate].
    destruct (skipped c max_edge_length) eqn:Hs; [discriminate|].
    intros [= <-]. exists c. repeat split.
    rewrite <- skipped_spec, Hs. discriminate.
  - intros (c & -> & -> & Hn).
    destruct (skipped c max_edge_length) eqn:Hs; [|reflexivity].
    exfalso. apply Hn, skipped_spec, Hs.
Qed.

(** C4 (as the spec states it) fails: two single-node supervoxels 2000 nm
    apart, with the bound 1500.  The length of the candidate does not exceed
    [np.min(dists)] (they coincide), so not both conditions hold, and yet no
    bridge is added. *)
Lemma bridge_skipped_on_one_condition :
  let nodes := [(0, 0, 0); (2000, 0, 0)] in
  let c := mkCandidate 0 1 4000000 4000000 in
  closest_pair nodes [7%nat; 9%nat] (1, 1, 1) 7 9 = Some c
  /\ ~ (min_dists2 c < node_dist_check2 c
        /\ norm_gt (node_dist_check2 c) 1500 = true)
  /\ bridge nodes [7%nat; 9%nat] (1, 1, 1) 1500 7 9 = None.
Proof.
  simpl. split; [reflexivity|]. split; [|reflexivity].
  intros [H _]. lia.
Qed.

End StitchFacts.

(** ** Array form of a skeleton *)

Section SkelFacts.
Import NX Skel Examples.

Lemma insert_by_elem {A} (leb : A -> A -> bool) x y l :
  y ∈ Np.insert_by leb x l <-> y = x \/ y ∈ l.
Proof.
  induction l as [|z l IH]; simpl.
  - set_solver.
  - destruct (leb x z); set_solver.
Qed.

Lemma sort_by_elem {A} (leb : A -> A -> bool) y l :
  y ∈ Np.sort_by leb l <-> y ∈ l.
Proof.
  induction l as [|x l IH]; simpl; [reflexivity|].
  rewrite insert_by_elem, IH. set_solver.
Qed.

Lemma insert_by_length {A} (leb : A -> A -> bool) x l :
  length (Np.insert_by leb x l) = S (length l).
Proof.
  induction l as [|z l IH]; simpl; [reflexivity|].
  destruct (leb x z); simpl; congruence.
Qed.

Lemma sort_by_length {A} (leb : A -> A -> bool) l :
  length (Np.sort_by leb l) = length l.
Proof.
  induction l as [|x l IH]; simpl; [reflexivity|].
  rewrite insert_by_length. congruence.
Qed.

Lemma np_sort_elem y l : y ∈ np_sort l <-> y ∈ l.
Proof. apply sort_by_elem. Qed.

Lemma insert_nat_sorted x l :
  StronglySorted le l -> StronglySorted le (Np.insert_by Nat.leb x l).
Proof.
  induction 1 as [|z l Hs IH Hall]; simpl.
  - repeat constructor.
  - destruct (x <=? z)%nat eqn:Hle.
    + apply Nat.leb_le in Hle. constructor; [constructor; assumption|].
      constructor; [exact Hle|].
      eapply Forall_impl; [exact Hall|]. intros; simpl in *; lia.
    + apply Nat.leb_gt in Hle. constructor; [exact IH|].
      apply Forall_forall. intros y Hy.
      rewrite insert_by_elem in Hy. destruct Hy as [->|Hy]; [lia|].
      rewrite Forall_forall in Hall. apply Hall, Hy.
Qed.

Lemma np_sort_sorted l : StronglySorted le (np_sort l).
Proof.
  induction l; simpl; [constructor|]. apply insert_nat_sorted. assumption.
Qed.

Lemma dedup_sorted_elem y l : y ∈ Np.dedup_sorted Nat.eqb l <-> y ∈ l.
Proof.
  induction l as [|x l IH]; [reflexivity|].
  cbn [Np.dedup_sorted]. destruct l as [|z l]; [reflexivity|].
  destruct (x =? z)%nat eqn:He.
  - apply Nat.eqb_eq in He as ->. rewrite IH. set_solver.
  - rewrite elem_of_cons, IH. set_solver.
Qed.

Lemma dedup_sorted_strict l :
  StronglySorted le l -> StronglySorted lt (Np.dedup_sorted Nat.eqb l).
Proof.
  induction 1 as [|x l Hs IH Hall]; [constructor|].
  cbn [Np.dedup_sorted]. destruct l as [|z l]; [repeat constructor|].
  destruct (x =? z)%nat eqn:He; [exact IH|].
  apply Nat.eqb_neq in He. constructor; [exact IH|].
  apply Forall_forall. intros y Hy.
  rewrite dedup_sorted_elem in Hy.
  apply StronglySorted_inv in Hs as [_ Hz].
  rewrite Forall_forall in Hall, Hz.
  pose proof (Hall z (list_elem_of_here _ _)).
  apply elem_of_cons in Hy as [->|Hy]; [lia|].
  apply Hz in Hy. lia.
Qed.

Lemma np_unique_elem y l : y ∈ np_unique l <-> y ∈ l.
Proof. unfold np_unique. rewrite dedup_sorted_elem. apply np_sort_elem. Qed.

Lemma np_unique_strict l : StronglySorted lt (np_unique l).
Proof. apply dedup_sorted_strict, np_sort_sorted. Qed.

Lemma ascending_strict l : ascending l = true -> StronglySorted lt l.
Proof.
  induction l as [|x l IH]; [constructor|].
  cbn [ascending]. destruct l as [|y l]; [repeat constructor|].
  intros [Hxy Hl]%andb_true_iff. apply Nat.ltb_lt in Hxy.
  specialize (IH Hl). constructor; [exact IH|].
  apply StronglySorted_inv in IH as [_ Hy].
  constructor; [exact Hxy|].
  eapply Forall_impl; [exact Hy|]. intros; simpl in *; lia.
Qed.

(** Two strictly increasing lists with the same elements are equal. *)
Lemma strict_sorted_ext (l1 : list nat) : forall l2,
  StronglySorted lt l1 -> StronglySorted lt l2 ->
  (forall x, x ∈ l1 <-> x ∈ l2) -> l1 = l2.
Proof.
  induction l1 as [|a l1 IH]; intros l2 H1 H2 Hext.
  - destruct l2 as [|b l2]; [reflexivity|].
    exfalso. specialize (Hext b). set_solver.
  - destruct l2 as [|b l2].
    { exfalso. specialize (Hext a). set_solver. }
    apply StronglySorted_inv in H1 as [H1 Ha].
    apply StronglySorted_inv in H2 as [H2 Hb].
    rewrite Forall_forall in Ha, Hb.
    assert (a = b) as ->.
    { pose proof (proj1 (Hext a) (list_elem_of_here _ _)) as Hab.
      pose proof (proj2 (Hext b) (list_elem_of_here _ _)) as Hba.
      apply elem_of_cons in Hab as [?|Hab]; [assumption|].
      apply elem_of_cons in Hba as [?|Hba]; [congruence|].
      apply Hb in Hab. apply Ha in Hba. lia. }
    f_equal. apply IH; [assumption..|].
    intros x. split; intros Hx.
    + pose proof (proj1 (Hext x) (list_elem_of_further _ _ _ Hx)) as Hx'.
      apply elem_of_cons in Hx' as [->|?]; [|assumption].
      apply Ha in Hx. lia.
    + pose proof (proj2 (Hext x) (list_elem_of_further _ _ _ Hx)) as Hx'.
      apply elem_of_cons in Hx' as [->|?]; [|assumption].
      apply Hb in Hx. lia.
Qed.

Lemma strict_sorted_NoDup (l : list nat) : StronglySorted lt l -> NoDup l.
Proof.
  induction 1 as [|a l Hs IH Ha]; constructor; [|assumption].
  intros Hin. rewrite Forall_forall in Ha.
  apply Ha in Hin. lia.
Qed.

Lemma enumerate_dict_notin l : forall ii d x,
  x ∉ l -> enumerate_dict ii l d !! x = d !! x.
Proof.
  induction l as [|y l IH]; intros ii d x Hx; simpl; [reflexivity|].
  rewrite IH by set_solver. apply lookup_insert_ne. set_solver.
Qed.

Lemma enumerate_dict_lookup l : forall ii d i x,
  NoDup l -> l !! i = Some x -> enumerate_dict ii l d !! x = Some (ii + i)%nat.
Proof.
  induction l as [|y l IH]; intros ii d i x Hnd Hi; [discriminate|].
  apply NoDup_cons in Hnd as [Hy Hnd]. simpl.
  destruct i as [|i]; simpl in Hi.
  - injection Hi as ->. rewrite enumerate_dict_notin by assumption.
    rewrite lookup_insert_eq. f_equal. lia.
  - rewrite (IH _ _ i x Hnd Hi). f_equal. lia.
Qed.

Lemma flatten_edges_elem x es :
  x ∈ flatten_edges es <-> exists e, e ∈ es /\ (x = fst e \/ x = snd e).
Proof.
  unfold flatten_edges. rewrite list_elem_of_In, in_flat_map.
  split; intros (e & He & Hx); exists e.
  - rewrite list_elem_of_In. simpl in Hx. intuition.
  - rewrite list_elem_of_In in He. simpl. intuition.
Qed.

Lemma lookup_attr_at {A} (ns : list (nat * A)) : forall i u p,
  NoDup (map fst ns) -> ns !! i = Some (u, p) -> lookup_attr ns u = Some p.
Proof.
  induction ns as [|[m q] ns IH]; intros i u p Hnd Hi; [discriminate|].
  simpl in Hnd. apply NoDup_cons in Hnd as [Hm Hnd]. simpl.
  destruct i as [|i]; simpl in Hi.
  - injection Hi as -> ->. rewrite Nat.eqb_refl. reflexivity.
  - destruct (m =? u)%nat eqn:He.
    + apply Nat.eqb_eq in He as ->. exfalso. apply Hm.
      apply list_elem_of_fmap. exists (u, p). split; [reflexivity|].
      eapply list_elem_of_lookup_2; eauto.
    + eapply IH; eauto.
Qed.

Lemma wf_graph_spec {A} (g : Graph A) :
  wf_graph g = true ->
  NoDup (node_ids g)
  /\ forall e, e ∈ edges g -> fst e ∈ node_ids g /\ snd e ∈ node_ids g.
Proof.
  unfold wf_graph. intros [Hnd Hes]%andb_true_iff.
  apply bool_decide_eq_true in Hnd. split; [assumption|].
  intros e He. rewrite forallb_forall in Hes.
  apply list_elem_of_In, Hes, andb_true_iff in He as [H1 H2].
  apply bool_decide_eq_true in H1, H2. auto.
Qed.

Lemma wf_graph_intro {A} (g : Graph A) :
  NoDup (node_ids g) ->
  (forall e, e ∈ edges g -> fst e ∈ node_ids g /\ snd e ∈ node_ids g) ->
  wf_graph g = true.
Proof.
  intros Hnd Hes. unfold wf_graph. apply andb_true_iff. split.
  - apply bool_decide_eq_true. exact Hnd.
  - apply forallb_forall. intros e He. rewrite <- list_elem_of_In in He.
    destruct (Hes e He). apply andb_true_iff.
    split; apply bool_decide_eq_true; assumption.
Qed.

(** When the nodes are met in increasing order of their ids and each of
    them lies on an edge, the sorted distinct end points are the node ids
    in iteration order. *)
Lemma temp_edges_sorted_node_ids {A} (g : Graph A) :
  wf_graph g = true -> ascending (node_ids g) = true -> covered g = true ->
  np_unique (np_sort (flatten_edges (edges g))) = node_ids g.
Proof.
  intros Hwf Hasc Hcov. apply wf_graph_spec in Hwf as [Hnd Hes].
  apply strict_sorted_ext.
  - apply np_unique_strict.
  - apply ascending_strict, Hasc.
  - intros x. rewrite np_unique_elem, np_sort_elem. split.
    + intros (e & He & [->| ->])%flatten_edges_elem; apply (Hes e He).
    + intros Hx. unfold covered in Hcov. rewrite forallb_forall in Hcov.
      apply list_elem_of_In, Hcov, bool_decide_eq_true in Hx. exact Hx.
Qed.

Lemma from_netkx_to_sso_arr g sk :
  from_netkx_to_sso g = inr sk -> sk = from_netkx_to_arr g.
Proof.
  unfold from_netkx_to_sso.
  destruct (number_connected_components g =? 1)%nat; congruence.
Qed.

Lemma node_at_position g i u :
  NoDup (node_ids g) -> node_ids g !! i = Some u ->
  (i < length (sk_nodes (from_netkx_to_arr g)))%nat
  /\ sk_nodes (from_netkx_to_arr g) !! i = Some (position g u).
Proof.
  intros Hnd Hi. unfold node_ids in *. simpl.
  rewrite list_lookup_fmap in Hi.
  destruct (nodes g !! i) as [[u' p]|] eqn:Hn; [|discriminate].
  simpl in Hi. injection Hi as ->.
  split.
  - rewrite length_map. eapply lookup_lt_Some, Hn.
  - rewrite list_lookup_fmap, Hn. simpl. f_equal.
    unfold position. rewrite (lookup_attr_at _ _ _ _ Hnd Hn). reflexivity.
Qed.

(** Where the rebuilds are right: for a graph whose nodes are met in
    increasing order of their ids and each lie on some edge, both rebuilds
    give every edge [(u, v)] the pair [(i, j)] of the places of [u] and [v]
    in the rebuilt node array: [i] and [j] are below the number of nodes,
    and the array holds the positions of [u] and [v] there. *)
Theorem rebuilt_edges_index_nodes (g : Graph Pos) (sk : skeleton)
    (k u v : nat) :
  wf_graph g = true -> ascending (node_ids g) = true -> covered g = true ->
  sk = from_netkx_to_arr g \/ from_netkx_to_sso g = inr sk ->
  edges g !! k = Some (u, v) ->
  exists i j,
    sk_edges sk !! k = Some (i, j)
    /\ (i < length (sk_nodes sk))%nat /\ (j < length (sk_nodes sk))%nat
    /\ node_ids g !! i = Some u /\ node_ids g !! j = Some v
    /\ sk_nodes sk !! i = Some (position g u)
    /\ sk_nodes sk !! j = Some (position g v).
Proof.
  intros Hwf Hasc Hcov Hsk Hk.
  assert (sk = from_netkx_to_arr g) as ->.
  { destruct Hsk as [?|?]; [assumption|]. apply from_netkx_to_sso_arr; assumption. }
  pose proof (temp_edges_sorted_node_ids g Hwf Hasc Hcov) as Hsorted.
  destruct (wf_graph_spec g Hwf) as [Hnd Hes].
  assert (He : (u, v) ∈ edges g) by (eapply list_elem_of_lookup_2; eauto).
  destruct (Hes _ He) as [Hu Hv]. simpl in Hu, Hv.
  apply list_elem_of_lookup in Hu as [i Hi], Hv as [j Hj].
  assert (Hdict : forall x n, node_ids g !! n = Some x ->
            temp_edges_dict g !! x = Some n).
  { intros x n Hx. unfold temp_edges_dict. rewrite Hsorted.
    rewrite (enumerate_dict_lookup _ 0 _ n x Hnd Hx). reflexivity. }
  exists i, j.
  destruct (node_at_position g i u Hnd Hi) as [Hil Hip].
  destruct (node_at_position g j v Hnd Hj) as [Hjl Hjp].
  repeat split; try assumption.
  simpl. unfold relabel_edges. rewrite list_lookup_fmap, Hk. simpl.
  rewrite (Hdict u i Hi), (Hdict v j Hj). reflexivity.
Qed.

Lemma rebuilt_edges_index_nodes_witness :
  exists i j,
    sk_edges (from_netkx_to_arr path3) !! 1%nat = Some (i, j)
    /\ (i < length (sk_nodes (from_netkx_to_arr path3)))%nat
    /\ (j < length (sk_nodes (from_netkx_to_arr path3)))%nat
    /\ node_ids path3 !! i = Some 7%nat /\ node_ids path3 !! j = Some 4%nat
    /\ sk_nodes (from_netkx_to_arr path3) !! i = Some (position path3 7)
    /\ sk_nodes (from_netkx_to_arr path3) !! j = Some (position path3 4).
Proof.
  apply (rebuilt_edges_index_nodes path3 (from_netkx_to_arr path3) 1 7 4);
    solve [reflexivity | left; reflexivity].
Defined.


(** The order of the nodes matters as well: with the two nodes of an edge
    met in decreasing order of their ids, both rebuilds give the edge
    [(1, 0)] the indices [(1, 0)], while place 1 of the node array holds
    node 0.  The graphs this module builds number their nodes as they add
    them, and removing nodes keeps the order. *)
Lemma rebuilt_edge_out_of_order :
  wf_graph swapped2 = true
  /\ covered swapped2 = true
  /\ ascending (node_ids swapped2) = false
  /\ from_netkx_to_sso swapped2 = inr (from_netkx_to_arr swapped2)
  /\ sk_edges (from_netkx_to_arr swapped2) = [(1%nat, 0%nat)]
  /\ sk_nodes (from_netkx_to_arr swapped2)
     = [position swapped2 1; position swapped2 0]
  /\ position swapped2 1 <> position swapped2 0.
Proof. repeat split; try reflexivity; vm_compute; congruence. Qed.

End SkelFacts.

(** ** Window Aggregator *)

Section WindowFacts.
Import Window.
Local Open Scope Q_scope.

Lemma pop_min_length l x rest :
  pop_min l = Some (x, rest) -> length l = S (length rest).
Proof.
  revert x rest. induction l as [|y l IH]; intros x rest H; [discriminate|].
  simpl in H. destruct (pop_min l) as [[m r]|] eqn:Hp.
  - specialize (IH _ _ eq_refl).
    destruct (entry_leb y m); injection H as <- <-; simpl; lia.
  - injection H as <- <-. destruct l; [reflexivity|].
    simpl in Hp. destruct (pop_min l) as [[? ?]|]; [|discriminate].
    destruct (entry_leb _ _); discriminate.
Qed.

Lemma relax_dist_fringe cutoff dv st ue st' :
  relax cutoff dv st ue = inr st' ->
  dist st' = dist st /\ (length (fringe st') <= S (length (fringe st)))%nat.
Proof.
  unfold relax. destruct ue as [u cost].
  destruct (Qltb cutoff (dv + cost)); [intros [= <-]; split; [reflexivity|lia]|].
  destruct (dist st !! u).
  { destruct (Qltb _ _); [discriminate|]. intros [= <-]; split; [reflexivity|lia]. }
  assert (forall st0, inr (B := dstate) (A := error)
            (mkDstate (dist st) (<[u := dv + cost]> (seen st))
               (fringe st ++ [(dv + cost, counter st, u)]) (S (counter st))
               (if bool_decide (u ∈ path_keys st) then path_keys st
                else path_keys st ++ [u])) = inr st0 ->
          dist st0 = dist st
          /\ (length (fringe st0) <= S (length (fringe st)))%nat) as Hpush.
  { intros st0 [= <-]. simpl. rewrite length_app. simpl. split; [reflexivity|lia]. }
  destruct (seen st !! u).
  - destruct (Qltb _ _); [apply Hpush|].
    intros [= <-]; split; [reflexivity|lia].
  - apply Hpush.
Qed.

Lemma relax_all_dist_fringe cutoff dv l : forall st st',
  relax_all cutoff dv st l = inr st' ->
  dist st' = dist st
  /\ (length (fringe st') <= length (fringe st) + length l)%nat.
Proof.
  induction l as [|ue l IH]; intros st st' H; simpl in H.
  - injection H as <-. split; [reflexivity|lia].
  - destruct (relax cutoff dv st ue) as [e|st1] eqn:Hr; [discriminate|].
    apply relax_dist_fringe in Hr as [Hd Hf].
    apply IH in H as [Hd' Hf']. split; [congruence|]. simpl. lia.
Qed.

Lemma open_end_insert v x d y :
  (open_end (<[v := x]> d) y <= open_end d y)%nat.
Proof.
  unfold open_end. destruct (decide (v = y)) as [->|Hne].
  - rewrite lookup_insert_eq. destruct (d !! y); lia.
  - rewrite lookup_insert_ne by assumption. lia.
Qed.

Lemma open_ends_finalise g v d x :
  d !! v = None ->
  (open_ends (wedges g) (<[v := x]> d) + length (adj g v)
   <= open_ends (wedges g) d)%nat.
Proof.
  intros Hv. unfold open_ends, adj.
  induction (wedges g) as [|[[a b] w] es IH]; simpl; [lia|].
  rewrite length_app.
  assert (Hat1 : open_end (<[v := x]> d) v = 0%nat).
  { unfold open_end. rewrite lookup_insert_eq. reflexivity. }
  assert (Hat2 : open_end d v = 1%nat).
  { unfold open_end. rewrite Hv. reflexivity. }
  pose proof (open_end_insert v x d a). pose proof (open_end_insert v x d b).
  destruct (a =? v)%nat eqn:Hav.
  - apply Nat.eqb_eq in Hav as ->. simpl. lia.
  - destruct (b =? v)%nat eqn:Hbv.
    + apply Nat.eqb_eq in Hbv as ->. simpl. lia.
    + simpl. lia.
Qed.

(** The loop of Dijkstra's algorithm finishes within its fuel. *)
Lemma dijkstra_loop_total g cutoff : forall fuel st,
  (length (fringe st) + open_ends (wedges g) (dist st) < fuel)%nat ->
  exists r, dijkstra_loop fuel g cutoff st = Some r.
Proof.
  induction fuel as [|fuel IH]; intros st Hpot; [lia|].
  simpl. destruct (pop_min (fringe st)) as [[[[d c] v] rest]|] eqn:Hp; [|eauto].
  apply pop_min_length in Hp.
  destruct (dist st !! v) eqn:Hv.
  - apply IH. simpl. lia.
  - destruct (relax_all _ _ _ _) as [e|st3] eqn:Hr; [eauto|].
    apply relax_all_dist_fringe in Hr as [Hd Hf]. simpl in Hd, Hf.
    apply IH. rewrite Hd.
    pose proof (open_ends_finalise g v (dist st) d Hv). lia.
Qed.

Lemma open_ends_bound es d : (open_ends es d <= 2 * length es)%nat.
Proof.
  unfold open_ends, open_end.
  induction es as [|[[a b] w] es IH]; simpl; [lia|].
  destruct (d !! a), (d !! b); simpl; lia.
Qed.

Lemma single_source_dijkstra_path_keys_total g n max_dist :
  exists r, single_source_dijkstra_path_keys g n max_dist = Some r.
Proof.
  unfold single_source_dijkstra_path_keys.
  edestruct (dijkstra_loop_total g (inject_Z max_dist) (dijkstra_fuel g)) as [r Hr];
    [|rewrite Hr; destruct r; eauto].
  simpl. pose proof (open_ends_bound (wedges g) ∅). unfold dijkstra_fuel. lia.
Qed.

Lemma vote_at_total g prop max_dist n :
  exists r, vote_at g prop max_dist n = Some r.
Proof.
  unfold vote_at.
  destruct (single_source_dijkstra_path_keys_total g n max_dist) as [[e|ks] ->];
    [eauto|].
  destruct (take_ixs prop ks); eauto.
Qed.

Lemma vote_all_total g prop max_dist ns :
  exists r, vote_all g prop max_dist ns = Some r.
Proof.
  induction ns as [|n ns [r IH]]; simpl; [eauto|].
  destruct (vote_at_total g prop max_dist n) as [[e|c] ->]; [eauto|].
  rewrite IH. destruct r; eauto.
Qed.

Lemma vote_all_lookup g prop max_dist ns : forall avg i c,
  vote_all g prop max_dist ns = Some (inr avg) ->
  avg !! i = Some c ->
  exists n, ns !! i = Some n /\ vote_at g prop max_dist n = Some (inr c).
Proof.
  induction ns as [|n ns IH]; intros avg i c H Hi; simpl in H.
  - injection H as <-. discriminate.
  - destruct (vote_at g prop max_dist n) as [[e|c0]|] eqn:Hv; try discriminate.
    destruct (vote_all g prop max_dist ns) as [[e|cs]|] eqn:Hvs; try discriminate.
    injection H as <-. destruct i as [|i]; simpl in Hi.
    + injection Hi as <-. exists n. split; [reflexivity|assumption].
    + destruct (IH cs i c eq_refl Hi) as (m & Hm & Hvm). exists m. auto.
Qed.

Lemma vote_all_length g prop max_dist ns : forall avg,
  vote_all g prop max_dist ns = Some (inr avg) -> length avg = length ns.
Proof.
  induction ns as [|n ns IH]; intros avg H; simpl in H.
  - injection H as <-. reflexivity.
  - destruct (vote_at g prop max_dist n) as [[e|c0]|]; try discriminate.
    destruct (vote_all g prop max_dist ns) as [[e|cs]|]; try discriminate.
    injection H as <-. simpl. f_equal. apply IH. reflexivity.
Qed.

Lemma append_neq_self (s t : string) : s +:+ t = s -> t = EmptyString.
Proof.
  induction s as [|a s IH]; simpl; [auto|].
  intros [= H]. auto.
Qed.

Lemma avg_key_fresh prop_key max_dist : avg_key prop_key max_dist <> prop_key.
Proof.
  unfold avg_key. intros H. apply append_neq_self in H. discriminate.
Qed.

(** Every call has an outcome. *)
Lemma majorityvote_skeleton_property_total g sk prop_key max_dist return_res :
  exists r, majorityvote_skeleton_property g sk prop_key max_dist return_res = Some r.
Proof.
  unfold majorityvote_skeleton_property.
  destruct (sk !! prop_key) as [prop|]; [|eauto].
  destruct (vote_all_total g prop max_dist (seq 0 (number_of_nodes g)))
    as [[e|avg] ->]; [eauto|].
  destruct return_res; eauto.
Qed.

(** An exception of the loop over the nodes is the exception of the first
    node whose round raises; every earlier round has produced its value. *)
Lemma vote_all_error g prop max_dist ns : forall e,
  vote_all g prop max_dist ns = Some (inl e) ->
  exists i n, ns !! i = Some n
    /\ vote_at g prop max_dist n = Some (inl e)
    /\ forall j m, (j < i)%nat -> ns !! j = Some m ->
         exists c, vote_at g prop max_dist m = Some (inr c).
Proof.
  induction ns as [|n ns IH]; intros e H; simpl in H; [discriminate|].
  destruct (vote_at g prop max_dist n) as [[e0|c0]|] eqn:Hv; try discriminate.
  - injection H as ->. exists 0%nat, n. split; [reflexivity|].
    split; [exact Hv|]. intros j m Hj. lia.
  - destruct (vote_all g prop max_dist ns) as [[e1|cs]|] eqn:Hvs; try discriminate.
    injection H as ->.
    destruct (IH e eq_refl) as (i & m & Hi & Hm & Hbefore).
    exists (S i), m. split; [exact Hi|]. split; [exact Hm|].
    intros [|j] m' Hj Hm'; simpl in Hm'.
    + injection Hm' as <-. eauto.
    + apply (Hbefore j); [lia|exact Hm'].
Qed.

(** C7: the call always has an outcome, of one of two kinds.  In both, the
    array stored under [prop_key] and every key other than the derived key
    ["<prop_key>_avg<max_dist>"] read as before.
    - An exception, with the dictionary as it was: [ValueError] when
      [prop_key] is missing, otherwise the exception of the first node whose
      vote over the ORIGINAL array [skeleton[prop_key]] raises.
    - A result [avg_prop] with one entry per node, the entry of node [n]
      being the vote over the ORIGINAL array in the window of [n].  With
      [return_res] it is returned and the dictionary is as it was; without,
      [None] is returned and the dictionary is the old one with [avg_prop]
      stored under the derived key, and nothing else changed. *)
Theorem majorityvote_read_then_write (g : WGraph)
    (skeleton : gmap string (list Z)) (prop_key : string) (max_dist : Z)
    (return_res : bool) :
  exists out skeleton',
    majorityvote_skeleton_property g skeleton prop_key max_dist return_res
      = Some (out, skeleton')
    /\ skeleton' !! prop_key = skeleton !! prop_key
    /\ (forall k, k <> avg_key prop_key max_dist -> skeleton' !! k = skeleton !! k)
    /\ ((exists e,
           out = inl e /\ skeleton' = skeleton
           /\ (skeleton !! prop_key = None /\ e = ValueError
               \/ exists prop n,
                    skeleton !! prop_key = Some prop
                    /\ (n < number_of_nodes g)%nat
                    /\ vote_at g prop max_dist n = Some (inl e)
                    /\ forall m, (m < n)%nat ->
                         exists c, vote_at g prop max_dist m = Some (inr c)))
        \/ exists prop avg_prop,
             skeleton !! prop_key = Some prop
             /\ length avg_prop = number_of_nodes g
             /\ (forall n, (n < number_of_nodes g)%nat ->
                   exists c, avg_prop !! n = Some c
                     /\ vote_at g prop max_dist n = Some (inr c))
             /\ (if return_res
                 then out = inr (Some avg_prop) /\ skeleton' = skeleton
                 else out = inr None
                      /\ skeleton' = <[avg_key prop_key max_dist := avg_prop]> skeleton
                      /\ skeleton' !! avg_key prop_key max_dist = Some avg_prop)).
Proof.
  unfold majorityvote_skeleton_property.
  destruct (skeleton !! prop_key) as [prop|] eqn:Hprop.
  2:{ exists (inl ValueError), skeleton. repeat split; [|left]; eauto 8. }
  destruct (vote_all_total g prop max_dist (seq 0 (number_of_nodes g)))
    as [[e|avg] Hv]; rewrite Hv.
  { exists (inl e), skeleton. split; [reflexivity|]. split; [assumption|].
    split; [reflexivity|]. left. exists e. split; [reflexivity|].
    split; [reflexivity|]. right.
    destruct (vote_all_error _ _ _ _ _ Hv) as (i & n & Hi & Hn & Hbefore).
    apply lookup_seq in Hi as [-> Hlt]. simpl in Hlt.
    exists prop, i. repeat split; try assumption.
    intros m Hm. apply (Hbefore m m Hm). apply lookup_seq. split; [reflexivity|lia]. }
  assert (Hlen : length avg = number_of_nodes g).
  { rewrite (vote_all_length _ _ _ _ _ Hv). apply length_seq. }
  assert (Hvotes : forall n, (n < number_of_nodes g)%nat ->
            exists c, avg !! n = Some c
              /\ vote_at g prop max_dist n = Some (inr c)).
  { intros n Hn. destruct (lookup_lt_is_Some_2 avg n) as [c Hc]; [lia|].
    exists c. split; [exact Hc|].
    destruct (vote_all_lookup _ _ _ _ _ _ _ Hv Hc) as (m & Hm & Hvm).
    apply lookup_seq in Hm as [-> _]. exact Hvm. }
  destruct return_res.
  { exists (inr (Some avg)), skeleton. split; [reflexivity|].
    split; [assumption|]. split; [reflexivity|]. right.
    exists prop, avg. auto. }
  exists (inr None), (<[avg_key prop_key max_dist := avg]> skeleton).
  split; [reflexivity|]. split.
  { rewrite lookup_insert_ne by apply avg_key_fresh. assumption. }
  split.
  { intros k Hk. apply lookup_insert_ne. congruence. }
  right. exists prop, avg. repeat split; try assumption.
  apply lookup_insert_eq.
Qed.

(** C9: when [prop_key] is not a key of the skeleton, the call raises
    [ValueError] and leaves the skeleton as it was: nothing is computed and
    no key is added. *)
Theorem majorityvote_missing_property (g : WGraph)
    (skeleton : gmap string (list Z)) (prop_key : string) (max_dist : Z)
    (return_res : bool) :
  skeleton !! prop_key = None ->
  majorityvote_skeleton_property g skeleton prop_key max_dist return_res
    = Some (inl ValueError, skeleton).
Proof.
  intros H. unfold majorityvote_skeleton_property. rewrite H. reflexivity.
Qed.

Lemma adj_weight g v u w :
  (u, w) ∈ adj g v -> exists a b, (a, b, w) ∈ wedges g.
Proof.
  unfold adj. rewrite list_elem_of_In, in_flat_map.
  intros ([[a b] w'] & He & Hin). rewrite <- list_elem_of_In in He.
  destruct (a =? v)%nat; [|destruct (b =? v)%nat]; simpl in Hin;
    try destruct Hin as [[= <- <-]|[]]; try contradiction; eauto.
Qed.

(** With cutoff 0, an edge of positive weight is never relaxed. *)
Lemma relax_all_cutoff_zero dv st l :
  dv == 0 -> (forall u w, (u, w) ∈ l -> 0 < w) ->
  relax_all (inject_Z 0) dv st l = inr st.
Proof.
  intros Hdv. induction l as [|[u w] l IH]; intros Hpos; simpl; [reflexivity|].
  assert (Hw : 0 < w) by (apply (Hpos u); left).
  assert (Hlt : Qltb (inject_Z 0) (dv + w) = true).
  { unfold Qltb. apply negb_true_iff, not_true_is_false.
    rewrite Qle_bool_iff. intros Hle. rewrite Hdv, Qplus_0_l in Hle.
    apply (Qlt_irrefl 0). eapply Qlt_le_trans; [exact Hw|exact Hle]. }
  rewrite Hlt. apply IH. intros u' w' Hin. apply (Hpos u'). right. exact Hin.
Qed.

Lemma dijkstra_cutoff_zero g n :
  (forall a b w, (a, b, w) ∈ wedges g -> 0 < w) ->
  single_source_dijkstra_path_keys g n 0 = Some (inr [n]).
Proof.
  intros Hpos. unfold single_source_dijkstra_path_keys, dijkstra_fuel.
  cbn [dijkstra_loop Nat.add pop_min fringe dist].
  rewrite lookup_empty.
  rewrite relax_all_cutoff_zero.
  - reflexivity.
  - reflexivity.
  - intros u w Hin. apply adj_weight in Hin as (a & b & Hin). eauto.
Qed.

Lemma majority_singleton x : Np.majority [x] = inr x.
Proof. reflexivity. Qed.

Lemma vote_all_cutoff_zero g prop :
  (forall a b w, (a, b, w) ∈ wedges g -> 0 < w) ->
  forall l start, drop start prop = l ->
    vote_all g prop 0 (seq start (length l)) = Some (inr l).
Proof.
  intros Hpos. induction l as [|x l IH]; intros start Hdrop; [reflexivity|].
  assert (Hx : prop !! start = Some x).
  { pose proof (lookup_drop prop start 0) as H.
    rewrite Hdrop, Nat.add_0_r in H. simpl in H. congruence. }
  assert (Hl : drop (S start) prop = l).
  { pose proof (drop_drop prop 1 start) as H.
    rewrite Hdrop in H. simpl in H. rewrite Nat.add_1_r in H.
    rewrite drop_0 in H. congruence. }
  cbn [length seq vote_all]. unfold vote_at.
  rewrite (dijkstra_cutoff_zero g start Hpos). cbn [take_ixs]. rewrite Hx.
  rewrite majority_singleton, (IH _ Hl). reflexivity.
Qed.

(** C6: on a skeleton with positive edge weights, and a property array with
    one entry per node, the vote with [max_dist = 0] is the property array
    itself, returned ([return_res]) or stored under the derived key. *)
Theorem majorityvote_distance_zero (g : WGraph)
    (skeleton : gmap string (list Z)) (prop_key : string) (prop : list Z) :
  (forall a b w, (a, b, w) ∈ wedges g -> 0 < w) ->
  skeleton !! prop_key = Some prop ->
  length prop = number_of_nodes g ->
  majorityvote_skeleton_property g skeleton prop_key 0 true
    = Some (inr (Some prop), skeleton)
  /\ majorityvote_skeleton_property g skeleton prop_key 0 false
    = Some (inr None, <[avg_key prop_key 0 := prop]> skeleton).
Proof.
  intros Hpos Hkey Hlen. unfold majorityvote_skeleton_property.
  rewrite Hkey, <- Hlen, (vote_all_cutoff_zero g prop Hpos prop 0 eq_refl).
  split; reflexivity.
Qed.

Lemma majorityvote_distance_zero_witness :
  majorityvote_skeleton_property Examples.wpath3 Examples.myelin_skeleton
      "myelin" 0 true
    = Some (inr (Some [1; 0; 1]%Z), Examples.myelin_skeleton)
  /\ majorityvote_skeleton_property Examples.wpath3 Examples.myelin_skeleton
      "myelin" 0 false
    = Some (inr None, <[avg_key "myelin" 0 := [1; 0; 1]%Z]> Examples.myelin_skeleton).
Proof.
  apply (majorityvote_distance_zero Examples.wpath3 Examples.myelin_skeleton
           "myelin" [1; 0; 1]%Z).
  - intros a b w H.
    apply elem_of_cons in H as [[= _ _ ->]|H]; [reflexivity|].
    apply elem_of_cons in H as [[= _ _ ->]|H]; [reflexivity|].
    inversion H.
  - reflexivity.
  - reflexivity.
Defined.

Lemma majorityvote_missing_property_witness :
  majorityvote_skeleton_property Examples.wpath3 Examples.myelin_skeleton
      "axoness" 10000 false
    = Some (inl ValueError, Examples.myelin_skeleton).
Proof.
  apply (majorityvote_missing_property Examples.wpath3 Examples.myelin_skeleton
           "axoness" 10000 false).
  reflexivity.
Defined.

End WindowFacts.

(** ** Majority vote over an annotation *)

Section AnnoFacts.
Import Anno.

Lemma scan_measure (u : gset nat) children : forall visited new v,
  (forall c, c ∈ children -> c ∈ u) ->
  scan visited children = (new, v) ->
  (size (u ∖ v) + length new <= size (u ∖ visited))%nat.
Proof.
  induction children as [|c cs IH]; intros visited new v Hu H; simpl in H.
  - injection H as <- <-. simpl. lia.
  - destruct (decide (c ∈ visited)) as [Hc|Hc].
    + eapply IH; [|exact H]. intros; apply Hu; set_solver.
    + destruct (scan ({[c]} ∪ visited) cs) as [new' v'] eqn:Hs.
      injection H as <- <-.
      assert (Hcs : forall c0, c0 ∈ cs -> c0 ∈ u) by (intros; apply Hu; set_solver).
      pose proof (IH _ _ _ Hcs Hs) as Hle.
      assert (Hcu : c ∈ u) by (apply Hu; set_solver).
      assert (Hsplit : u ∖ visited = {[c]} ∪ u ∖ ({[c]} ∪ visited)).
      { apply set_eq. intros x. rewrite elem_of_union, !elem_of_difference,
          elem_of_union, elem_of_singleton.
        destruct (decide (x = c)) as [->|]; intuition. }
      rewrite Hsplit.
      rewrite (size_union {[c]} (u ∖ ({[c]} ∪ visited))) by set_solver.
      rewrite size_singleton. simpl. lia.
Qed.

Lemma neighbors_universe anno source n c :
  c ∈ neighbors anno n -> c ∈ universe anno source.
Proof.
  unfold neighbors, universe. rewrite list_elem_of_In, in_flat_map.
  intros (e & He & Hc). apply elem_of_union_r, elem_of_list_to_set.
  rewrite list_elem_of_In, in_flat_map. exists e. split; [assumption|].
  destruct (fst e =? n)%nat; [|destruct (snd e =? n)%nat];
    simpl in *; intuition.
Qed.

Lemma bfs_loop_total anno source : forall fuel queue visited,
  (length queue + size (universe anno source ∖ visited) < fuel)%nat ->
  exists es, bfs_loop fuel anno queue visited = Some es.
Proof.
  induction fuel as [|fuel IH]; intros queue visited Hm; [lia|].
  simpl. destruct queue as [|parent queue]; [eauto|].
  destruct (scan visited (neighbors anno parent)) as [new v] eqn:Hs.
  pose proof (scan_measure (universe anno source) _ _ _ _
                (fun c => neighbors_universe anno source parent c) Hs) as Hle.
  destruct (IH (queue ++ new) v) as [es ->]; [|eauto].
  rewrite length_app. simpl in Hm. lia.
Qed.

Lemma bfs_edges_total anno source : exists es, bfs_edges anno source = Some es.
Proof.
  apply (bfs_loop_total anno source). simpl.
  assert (Hsub : universe anno source ∖ {[source]} ⊆ universe anno source)
    by set_solver.
  apply subseteq_size in Hsub. lia.
Qed.

Lemma windows_of_total norm anno max_path_len sources :
  exists ws, windows_of norm anno max_path_len sources = Some ws.
Proof.
  induction sources as [|n ns [ws IH]]; simpl; [eauto|].
  destruct (bfs_edges_total anno n) as [es ->]. rewrite IH. eauto.
Qed.

(** Every node of the annotation heads a window. *)
Lemma windows_of_heads norm anno max_path_len sources : forall ws,
  windows_of norm anno max_path_len sources = Some ws ->
  map head ws = map Some sources.
Proof.
  induction sources as [|n ns IH]; intros ws H; simpl in H.
  - injection H as <-. reflexivity.
  - destruct (bfs_edges anno n); [|discriminate].
    destruct (windows_of norm anno max_path_len ns); [|discriminate].
    injection H as <-. simpl. f_equal. apply IH. reflexivity.
Qed.

Lemma majority_vote_total norm anno prop max_dist :
  exists r, majority_vote norm anno prop max_dist = Some r.
Proof.
  unfold majority_vote, nodes_in_pathlength.
  destruct (windows_of_total norm anno max_dist (getNodes anno)) as [ws ->].
  eauto.
Qed.

Lemma pred_values_all_two d key ns :
  (forall n, n ∈ ns -> pred_value d key n = inr 2%Z) ->
  exists vals, pred_values d key ns = inr vals
    /\ filter (fun v => v <> 2%Z) vals = [].
Proof.
  induction ns as [|n ns IH]; intros H; simpl.
  - exists []. auto.
  - rewrite (H n) by left.
    destruct IH as (vals & -> & Hf); [intros; apply H; right; assumption|].
    exists (2%Z :: vals). split; [reflexivity|].
    rewrite filter_cons_False by (intros Hne; apply Hne; reflexivity).
    exact Hf.
Qed.

Lemma vote_all_two old prop nodes :
  (forall n, n ∈ nodes -> pred_value old (prop +:+ "_pred") n = inr 2%Z) ->
  vote old prop nodes = inl IndexError.
Proof.
  intros H. unfold vote.
  destruct (pred_values_all_two _ _ _ H) as (vals & -> & ->). reflexivity.
Qed.

Lemma vote_windows_all_two old prop w ws : forall cur,
  prop <> "axoness" -> w ∈ ws ->
  (forall n, n ∈ w -> pred_value old (prop +:+ "_pred") n = inr 2%Z) ->
  exists e, vote_windows old cur prop ws = inl e.
Proof.
  induction ws as [|w0 ws IH]; intros cur Hprop Hw Hall; [inversion Hw|].
  simpl. apply elem_of_cons in Hw as [<-|Hw].
  - unfold vote_window. destruct w as [|src rest]; [eauto|].
    rewrite bool_decide_eq_false_2 by assumption.
    rewrite (vote_all_two old prop _ Hall). eauto.
  - destruct (vote_window old cur prop w0) as [e|cur']; [eauto|].
    apply IH; assumption.
Qed.

Lemma argmax_from_in best l :
  Np.argmax_from best l = best \/ Np.argmax_from best l ∈ l.
Proof.
  revert best. induction l as [|vc l IH]; intros best; simpl; [auto|].
  destruct (snd best <? snd vc)%nat.
  - destruct (IH vc) as [->|H]; right; [left|right; assumption].
  - destruct (IH best) as [->|H]; [auto|]. right. right. assumption.
Qed.

Lemma counter_keys_in x l : x ∈ counter_keys l -> x ∈ l.
Proof.
  induction l as [|y l IH]; simpl; [auto|].
  intros [->|H]%elem_of_cons; [left|].
  right. apply IH. apply list_elem_of_filter in H as [_ H]. exact H.
Qed.

Lemma most_common_in l v : most_common l = inr v -> v ∈ l.
Proof.
  unfold most_common.
  destruct (map _ (counter_keys l)) as [|vc rest] eqn:Hm; [discriminate|].
  intros [= <-].
  assert (Hin : Np.argmax_from vc rest ∈ vc :: rest).
  { destruct (argmax_from_in vc rest) as [->|H]; [left|right; assumption]. }
  rewrite <- Hm in Hin. apply list_elem_of_fmap in Hin as (k & -> & Hk).
  simpl. apply counter_keys_in, Hk.
Qed.

(** The value 2 takes no part in a vote: the winner is one of the other
    values of the window. *)
Lemma vote_not_two old prop nodes v :
  vote old prop nodes = inr v ->
  v <> 2%Z /\ exists vals, pred_values old (prop +:+ "_pred") nodes = inr vals
                 /\ most_common (filter (fun x => x <> 2%Z) vals) = inr v.
Proof.
  unfold vote. destruct (pred_values _ _ _) as [e|vals]; [discriminate|].
  intros H. split; [|eauto].
  apply most_common_in, list_elem_of_filter in H as [H _]. exact H.
Qed.

Lemma pred_value_set_eq d n key v :
  pred_value (setDataElem d n key v) key n = inr v.
Proof.
  unfold pred_value, setDataElem. rewrite lookup_insert_eq, lookup_insert_eq.
  reflexivity.
Qed.

Lemma pred_value_set_ne d n m key key' v :
  n <> m -> pred_value (setDataElem d n key v) key' m = pred_value d key' m.
Proof.
  intros H. unfold pred_value, setDataElem.
  rewrite lookup_insert_ne by assumption. reflexivity.
Qed.

Section VoteInvariant.

Variables (old : gmap nat (gmap string Z)) (prop : string) (n : nat).
Variable W : list nat -> Prop.

Local Abbreviation voted := (Anno.voted W old prop n).
Local Abbreviation not_soma := (Anno.not_soma prop n).

Lemma voted_not_two cur : voted cur ->
  exists v, pred_value cur (prop +:+ "_pred") n = inr v /\ v <> 2%Z.
Proof.
  intros (v & w & _ & _ & Hv & Hn). exists v. split; [assumption|].
  apply vote_not_two in Hv as [Hv _]. exact Hv.
Qed.

Lemma vote_window_step cur cur' w :
  W w -> not_soma cur -> vote_window old cur prop w = inr cur' ->
  not_soma cur' /\ (voted cur -> voted cur') /\ (head w = Some n -> voted cur').
Proof.
  intros HW Hns Hstep. unfold vote_window in Hstep.
  destruct w as [|src rest]; [discriminate|].
  assert (Hassign : forall c,
            match vote old prop (src :: rest) with
            | inl e => inl e
            | inr new_ax => inr (setDataElem cur src (prop +:+ "_pred") new_ax)
            end = inr c ->
            not_soma c /\ (voted cur -> voted c)
            /\ (head (src :: rest) = Some n -> voted c)).
  { intros c Hc. destruct (vote old prop (src :: rest)) as [e|v] eqn:Hv;
      [discriminate|]. injection Hc as <-.
    destruct (decide (src = n)) as [->|Hne].
    - assert (Hvoted : voted (setDataElem cur n (prop +:+ "_pred") v)).
      { exists v, (n :: rest). rewrite pred_value_set_eq. auto. }
      split; [|auto]. intros _.
      destruct (voted_not_two _ Hvoted) as (v' & Hv' & Hne).
      rewrite Hv'. congruence.
    - split; [|split].
      + intros Hp. rewrite pred_value_set_ne by assumption. auto.
      + intros (v' & w' & ? & ? & ? & Hn). exists v', w'.
        rewrite pred_value_set_ne by assumption. auto.
      + simpl. intros [= ?]. contradiction. }
  destruct (bool_decide (prop = "axoness")) eqn:Hax; [|apply Hassign, Hstep].
  apply bool_decide_eq_true in Hax.
  destruct (pred_value cur "axoness_pred" src) as [e|v] eqn:Hsrc; [discriminate|].
  destruct (v =? 2)%Z eqn:Hv2; [|apply Hassign, Hstep].
  apply Z.eqb_eq in Hv2 as ->. injection Hstep as <-.
  assert (Hne : src <> n).
  { intros ->. apply (Hns Hax). rewrite Hax. exact Hsrc. }
  split; [|split].
  - intros Hp. rewrite pred_value_set_ne by assumption. auto.
  - intros (v' & w' & ? & ? & ? & Hn). exists v', w'.
    rewrite pred_value_set_ne by assumption. auto.
  - simpl. intros [= ?]. contradiction.
Qed.

Lemma vote_windows_voted ws : forall cur d',
  (forall w, w ∈ ws -> W w) -> not_soma cur ->
  vote_windows old cur prop ws = inr d' ->
  voted cur \/ Some n ∈ map head ws -> voted d'.
Proof.
  induction ws as [|w ws IH]; intros cur d' HW Hns Hrun Hor; simpl in Hrun.
  - injection Hrun as <-. destruct Hor as [?|Hin]; [assumption|inversion Hin].
  - destruct (vote_window old cur prop w) as [e|cur'] eqn:Hstep; [discriminate|].
    destruct (vote_window_step cur cur' w (HW w (list_elem_of_here _ _)) Hns Hstep)
      as (Hns' & Hkeep & Hnew).
    apply (IH cur' d'); [intros; apply HW; right; assumption|assumption..|].
    destruct Hor as [Hv|Hin]; [left; auto|].
    simpl in Hin. apply elem_of_cons in Hin as [Hh|Hin]; [left|right; assumption].
    apply Hnew. congruence.
Qed.

(** For axoness, a node with the value 2 keeps it through every window. *)
Lemma vote_windows_soma ws : forall cur d',
  vote_windows old cur "axoness" ws = inr d' ->
  pred_value cur "axoness_pred" n = inr 2%Z ->
  pred_value d' "axoness_pred" n = inr 2%Z.
Proof.
  induction ws as [|w ws IH]; intros cur d' Hrun Hn; simpl in Hrun.
  - injection Hrun as <-. exact Hn.
  - destruct (vote_window old cur "axoness" w) as [e|cur'] eqn:Hstep;
      [discriminate|].
    apply (IH cur' d' Hrun). unfold vote_window in Hstep.
    destruct w as [|src rest]; [discriminate|].
    rewrite bool_decide_eq_true_2 in Hstep by reflexivity.
    destruct (decide (src = n)) as [->|Hne].
    + rewrite Hn in Hstep. simpl in Hstep. injection Hstep as <-.
      apply pred_value_set_eq.
    + destruct (pred_value cur "axoness_pred" src) as [e|v]; [discriminate|].
      destruct (v =? 2)%Z.
      * injection Hstep as <-. rewrite pred_value_set_ne by assumption. exact Hn.
      * destruct (vote old "axoness" (src :: rest)); [discriminate|].
        injection Hstep as <-. rewrite pred_value_set_ne by assumption. exact Hn.
Qed.

End VoteInvariant.

(** C10: (1) every call of [majority_vote] has an outcome.  (2) For a
    property other than axoness, a window all of whose nodes, the source
    among them, carry the value 2 makes the call raise an exception.
    (3) For axoness, a node that carries the value 2 carries it after the
    call.  (4) Every other node carries, after the call, the vote of a
    window it heads; the vote is taken over the values of the window that
    differ from 2, so it is not 2. *)
Theorem majority_vote_value_two (norm : Pos -> Q) (anno : SkeletonAnnotation)
    (prop : string) (max_dist : Q) :
  (exists r, majority_vote norm anno prop max_dist = Some r)
  /\ (prop <> "axoness" ->
      forall ws w, nodes_in_pathlength norm anno max_dist = Some ws ->
        w ∈ ws ->
        (forall n, n ∈ w -> pred_value (data anno) (prop +:+ "_pred") n = inr 2%Z) ->
        exists e, majority_vote norm anno prop max_dist = Some (inl e))
  /\ (forall d' n, majority_vote norm anno prop max_dist = Some (inr d') ->
        n ∈ getNodes anno ->
        (prop = "axoness" ->
         pred_value (data anno) "axoness_pred" n = inr 2%Z ->
         pred_value d' "axoness_pred" n = inr 2%Z)
        /\ ((prop = "axoness" ->
             pred_value (data anno) "axoness_pred" n <> inr 2%Z) ->
            exists ws w v,
              nodes_in_pathlength norm anno max_dist = Some ws
              /\ w ∈ ws /\ head w = Some n
              /\ vote (data anno) prop w = inr v
              /\ pred_value d' (prop +:+ "_pred") n = inr v /\ v <> 2%Z)).
Proof.
  split; [apply majority_vote_total|]. split.
  - intros Hprop ws w Hws Hw Hall. unfold majority_vote. rewrite Hws.
    destruct (vote_windows_all_two (data anno) prop w ws (data anno) Hprop Hw Hall)
      as [e ->]. eauto.
  - intros d' n Hrun Hn. unfold majority_vote in Hrun.
    destruct (nodes_in_pathlength norm anno max_dist) as [ws|] eqn:Hws;
      [|discriminate].
    injection Hrun as Hrun. split.
    + intros -> H2. eapply vote_windows_soma; eauto.
    + intros Hns.
      assert (Hhead : Some n ∈ map head ws).
      { unfold nodes_in_pathlength in Hws.
        rewrite (windows_of_heads _ _ _ _ _ Hws).
        apply list_elem_of_fmap. eauto. }
      destruct (vote_windows_voted (data anno) prop n (fun w => w ∈ ws) ws
                  (data anno) d') as (v & w & Hw & Hh & Hv & Hd);
        [auto| |assumption|auto|].
      { intros Hax. subst prop. apply Hns. reflexivity. }
      exists ws, w, v. repeat split; try assumption.
      apply vote_not_two in Hv as [Hv _]. exact Hv.
Qed.

Example majority_vote_spiness_all_two :
  nodes_in_pathlength Examples.floor_norm Examples.soma_pair 100
    = Some [[0%nat; 1%nat]; [1%nat; 0%nat]]
  /\ majority_vote Examples.floor_norm Examples.soma_pair "spiness" 100
    = Some (inl IndexError).
Proof. split; vm_compute; reflexivity. Qed.

Example majority_vote_axoness_soma :
  exists d', majority_vote Examples.floor_norm Examples.soma_pair "axoness" 100
               = Some (inr d')
    /\ pred_value d' "axoness_pred" 0 = inr 2%Z
    /\ pred_value d' "axoness_pred" 1 = inr 1%Z.
Proof. eexists. split; [vm_compute; reflexivity|]. split; reflexivity. Qed.

End AnnoFacts.

(** ** Connected components *)

Section ComponentFacts.
Import NX.

Lemma expand_elem es (s : gset nat) x :
  x ∈ expand es s <-> x ∈ s \/ exists y, y ∈ s /\ sc (linked es) y x.
Proof.
  unfold expand. rewrite elem_of_union, elem_of_list_to_set.
  rewrite list_elem_of_In, in_flat_map.
  split; (intros [H|H]; [left; exact H|right]).
  - destruct H as (e & He & Hx). rewrite <- list_elem_of_In in He.
    apply in_app_or in Hx as [Hx|Hx].
    + destruct (decide (fst e ∈ s)); [|contradiction].
      destruct Hx as [<-|[]]. exists (fst e). split; [assumption|].
      left. unfold linked. destruct e; exact He.
    + destruct (decide (snd e ∈ s)); [|contradiction].
      destruct Hx as [<-|[]]. exists (snd e). split; [assumption|].
      right. unfold linked. destruct e; exact He.
  - destruct H as (y & Hy & [Hl|Hl]); unfold linked in Hl.
    + exists (y, x). rewrite <- list_elem_of_In. split; [assumption|].
      apply in_or_app. left. simpl. destruct (decide (y ∈ s)); [left; reflexivity|contradiction].
    + exists (x, y). rewrite <- list_elem_of_In. split; [assumption|].
      apply in_or_app. right. simpl. destruct (decide (y ∈ s)); [left; reflexivity|contradiction].
Qed.

Lemma expand_subseteq es (s : gset nat) : s ⊆ expand es s.
Proof. intros x Hx. apply expand_elem. left. exact Hx. Qed.

Lemma iter_expand_sound es v k x :
  x ∈ Nat.iter k (expand es) {[v]} -> connected es v x.
Proof.
  revert x. induction k as [|k IH]; intros x Hx; simpl in Hx.
  - apply elem_of_singleton in Hx as ->. reflexivity.
  - apply expand_elem in Hx as [Hx|(y & Hy & Hl)]; [auto|].
    unfold connected, rtsc. eapply rtc_r; [apply IH, Hy|exact Hl].
Qed.

Lemma iter_expand_start es v k : v ∈ Nat.iter k (expand es) {[v]}.
Proof.
  induction k as [|k IH]; simpl; [set_solver|]. apply expand_subseteq, IH.
Qed.

(** A set that a round does not enlarge holds everything connected to one
    of its members. *)
Lemma closed_connected es (s : gset nat) v x :
  expand es s = s -> v ∈ s -> connected es v x -> x ∈ s.
Proof.
  intros Hc Hv Hr. revert Hv. unfold connected, rtsc in Hr.
  induction Hr as [|a b c Hab Hbc IH]; intros Hv; [assumption|].
  apply IH. rewrite <- Hc. apply expand_elem. right. eauto.
Qed.

Lemma iter_expand_within es (u : gset nat) v k :
  (forall e, e ∈ es -> fst e ∈ u /\ snd e ∈ u) -> v ∈ u ->
  Nat.iter k (expand es) {[v]} ⊆ u.
Proof.
  intros Hes Hv. induction k as [|k IH]; simpl; [set_solver|].
  intros x Hx. apply expand_elem in Hx as [Hx|(y & Hy & [Hl|Hl])]; [auto|..].
  - apply (Hes _ Hl).
  - apply (Hes _ Hl).
Qed.

(** Each round adds a node, or the set is closed already. *)
Lemma iter_expand_progress es v k :
  let s := Nat.iter k (expand es) {[v]} in
  expand es s = s \/ (k + 1 <= size s)%nat.
Proof.
  induction k as [|k IH]; cbv zeta.
  - right. change (Nat.iter 0 (expand es) {[v]}) with ({[v]} : gset nat).
    pose proof (size_singleton (C := gset nat) v). lia.
  - cbv zeta in IH. rewrite Nat.iter_succ.
    set (s := Nat.iter k (expand es) {[v]}) in *.
    destruct IH as [Hc|Hsz]; [left; rewrite Hc; exact Hc|].
    destruct (decide (expand es s = s)) as [Hc|Hn].
    + left. rewrite Hc. exact Hc.
    + right. assert (Hss : s ⊂ expand es s).
      { split; [apply expand_subseteq|]. intros Hsub. apply Hn.
        apply set_eq. intros x. split; [apply Hsub|apply expand_subseteq]. }
      apply subset_size in Hss. lia.
Qed.

Lemma wf_graph_edges {A} (g : Graph A) :
  wf_graph g = true ->
  forall e, e ∈ edges g ->
    fst e ∈ (list_to_set (node_ids g) : gset nat)
    /\ snd e ∈ (list_to_set (node_ids g) : gset nat).
Proof.
  intros Hwf e He. rewrite !elem_of_list_to_set.
  apply (wf_graph_spec g Hwf), He.
Qed.

Lemma component_closed {A} (g : Graph A) v :
  wf_graph g = true -> v ∈ node_ids g ->
  expand (edges g) (component g v) = component g v.
Proof.
  intros Hwf Hv. unfold component.
  destruct (iter_expand_progress (edges g) v (length (nodes g))) as [Hc|Hsz];
    [exact Hc|exfalso].
  assert (Hsub : Nat.iter (length (nodes g)) (expand (edges g)) {[v]}
                 ⊆ (list_to_set (node_ids g) : gset nat)).
  { apply iter_expand_within; [apply wf_graph_edges, Hwf|].
    apply elem_of_list_to_set, Hv. }
  apply subseteq_size in Hsub.
  destruct (wf_graph_spec g Hwf) as [Hnd _].
  rewrite (size_list_to_set _ Hnd) in Hsub.
  unfold node_ids in Hsub. rewrite length_map in Hsub. lia.
Qed.

(** The computed component of a node is the set of nodes connected to it. *)
Lemma component_spec {A} (g : Graph A) v x :
  wf_graph g = true -> v ∈ node_ids g ->
  x ∈ component g v <-> connected (edges g) v x.
Proof.
  intros Hwf Hv. split.
  - apply iter_expand_sound.
  - apply closed_connected; [apply component_closed; assumption|].
    apply iter_expand_start.
Qed.

Lemma component_nodes {A} (g : Graph A) v x :
  wf_graph g = true -> v ∈ node_ids g -> x ∈ component g v -> x ∈ node_ids g.
Proof.
  intros Hwf Hv Hx.
  apply (iter_expand_within (edges g) (list_to_set (node_ids g)) v) in Hx.
  - apply elem_of_list_to_set in Hx. exact Hx.
  - apply wf_graph_edges, Hwf.
  - apply elem_of_list_to_set, Hv.
Qed.

Lemma cc_loop_spec {A} (g : Graph A) : wf_graph g = true ->
  forall vs seen,
    (forall v, v ∈ vs -> v ∈ node_ids g) -> saturated (edges g) seen ->
    (forall c, c ∈ cc_loop g vs seen ->
       c ## seen /\ exists v, v ∈ vs /\ c = component g v)
    /\ pairwise_disjoint (cc_loop g vs seen)
    /\ (forall v, v ∈ vs -> v ∈ seen \/ exists c, c ∈ cc_loop g vs seen /\ v ∈ c).
Proof.
  intros Hwf. induction vs as [|v vs IH]; intros seen Hvs Hsat; simpl.
  - split; [|split]; [intros c Hc; inversion Hc|exact I|intros v Hv; inversion Hv].
  - assert (Hvs' : forall v0, v0 ∈ vs -> v0 ∈ node_ids g)
      by (intros; apply Hvs; right; assumption).
    destruct (decide (v ∈ seen)) as [Hin|Hnin].
    + destruct (IH seen Hvs' Hsat) as (H1 & H2 & H3).
      split; [|split]; [|exact H2|].
      * intros c Hc. destruct (H1 c Hc) as [Hd (v0 & Hv0 & ->)].
        split; [exact Hd|]. exists v0. split; [right; assumption|reflexivity].
      * intros v0 [->|Hv0]%elem_of_cons; [left; assumption|auto].
    + assert (Hv : v ∈ node_ids g) by (apply Hvs; left).
      assert (Hsat' : saturated (edges g) (seen ∪ component g v)).
      { intros x y [Hx|Hx]%elem_of_union Hxy; apply elem_of_union.
        - left. eapply Hsat; eauto.
        - right. apply component_spec; [assumption..|].
          apply component_spec in Hx; [|assumption..].
          unfold connected in *. etransitivity; eauto. }
      destruct (IH (seen ∪ component g v) Hvs' Hsat') as (H1 & H2 & H3).
      assert (Hdisj : component g v ## seen).
      { intros x Hx Hs. apply Hnin. apply (Hsat x v Hs).
        apply component_spec in Hx; [|assumption..].
        unfold connected in *. symmetry. exact Hx. }
      split; [|split].
      * intros c [->|Hc]%elem_of_cons.
        -- split; [exact Hdisj|]. exists v. split; [left|reflexivity].
        -- destruct (H1 c Hc) as [Hd (v0 & Hv0 & ->)].
           split; [set_solver|]. exists v0. split; [right; assumption|reflexivity].
      * split; [|exact H2]. intros c' Hc'.
        destruct (H1 c' Hc') as [Hd _]. set_solver.
      * intros v0 [->|Hv0]%elem_of_cons.
        -- right. exists (component g v). split; [left|].
           apply iter_expand_start.
        -- destruct (H3 v0 Hv0) as [[Hs|Hc]%elem_of_union|(c & Hc & Hvc)].
           ++ left; assumption.
           ++ right. exists (component g v). split; [left|assumption].
           ++ right. exists c. split; [right; assumption|assumption].
Qed.

Lemma saturated_empty es : saturated es ∅.
Proof. intros x y Hx. set_solver. Qed.

(** The components are pairwise disjoint; each is the component of one of
    its nodes, and every node lies in one. *)
Lemma connected_components_spec {A} (g : Graph A) : wf_graph g = true ->
  pairwise_disjoint (connected_components g)
  /\ (forall c, c ∈ connected_components g ->
        exists v, v ∈ node_ids g /\ c = component g v)
  /\ (forall v, v ∈ node_ids g ->
        exists c, c ∈ connected_components g /\ v ∈ c).
Proof.
  intros Hwf.
  destruct (cc_loop_spec g Hwf (node_ids g) ∅ (fun _ H => H) (saturated_empty _))
    as (H1 & H2 & H3).
  split; [exact H2|]. split.
  - intros c Hc. apply (H1 c Hc).
  - intros v Hv. destruct (H3 v Hv) as [Hs|?]; [set_solver|assumption].
Qed.

End ComponentFacts.

(** ** Minimum spanning tree *)

Section KruskalFacts.
Import NX.

Lemma connected_mono es es' x y :
  (forall e, e ∈ es -> e ∈ es') -> connected es x y -> connected es' x y.
Proof.
  intros Hsub. unfold connected, rtsc. apply rtc_subrel.
  intros a b [H|H]; [left|right]; apply Hsub, H.
Qed.

Lemma union_classes uf vs u v :
  u ∈ vs -> v ∈ vs -> uf u <> uf v ->
  (classes (union uf u v) vs + 1 = classes uf vs)%nat.
Proof.
  intros Hu Hv Hne. unfold classes.
  set (L := list_to_set (map uf vs) : gset nat).
  assert (HL' : (list_to_set (map (union uf u v) vs) : gset nat) = L ∖ {[uf v]}).
  { apply set_eq. intros x.
    rewrite elem_of_difference, elem_of_singleton.
    unfold L. rewrite !elem_of_list_to_set, !list_elem_of_fmap. split.
    - intros (y & -> & Hy). unfold union.
      destruct (Nat.eqb_spec (uf y) (uf v)) as [He|He]; split; eauto.
    - intros [(y & -> & Hy) Hx]. exists y. split; [|assumption].
      unfold union. destruct (Nat.eqb_spec (uf y) (uf v)); [contradiction|reflexivity]. }
  rewrite HL'.
  assert (Hin : uf v ∈ L).
  { unfold L. rewrite elem_of_list_to_set, list_elem_of_fmap. eauto. }
  assert (Hsplit : L = {[uf v]} ∪ L ∖ {[uf v]}).
  { apply set_eq. intros x. rewrite elem_of_union, elem_of_difference,
      elem_of_singleton. destruct (decide (x = uf v)) as [->|]; intuition. }
  rewrite Hsplit at 2.
  rewrite (size_union {[uf v]} (L ∖ {[uf v]})) by set_solver.
  pose proof (size_singleton (C := gset nat) (uf v)). lia.
Qed.

(** Every edge Kruskal keeps merges two sets. *)
Lemma kruskal_classes vs es : forall uf,
  (forall e, e ∈ es -> fst e ∈ vs /\ snd e ∈ vs) ->
  (length (kruskal uf es) + classes (kruskal_uf uf es) vs = classes uf vs)%nat.
Proof.
  induction es as [|e es IH]; intros uf Hes; simpl; [reflexivity|].
  assert (Hes' : forall e0, e0 ∈ es -> fst e0 ∈ vs /\ snd e0 ∈ vs)
    by (intros; apply Hes; right; assumption).
  destruct (Nat.eqb_spec (uf (fst e)) (uf (snd e))) as [He|He]; [apply IH, Hes'|].
  simpl. rewrite <- (union_classes uf vs (fst e) (snd e));
    [|apply Hes; left..|assumption].
  rewrite <- (IH (union uf (fst e) (snd e)) Hes'). lia.
Qed.

Lemma union_same uf u v x y : uf x = uf y -> union uf u v x = union uf u v y.
Proof. unfold union. intros ->. reflexivity. Qed.

Lemma kruskal_uf_same es : forall uf x y,
  uf x = uf y -> kruskal_uf uf es x = kruskal_uf uf es y.
Proof.
  induction es as [|e es IH]; intros uf x y H; simpl; [exact H|].
  destruct (uf (fst e) =? uf (snd e))%nat; apply IH; [exact H|].
  apply union_same, H.
Qed.

(** When the loop is over, the two ends of every edge it went through are
    in one set. *)
Lemma kruskal_uf_edges es : forall uf e,
  e ∈ es -> kruskal_uf uf es (fst e) = kruskal_uf uf es (snd e).
Proof.
  induction es as [|e0 es IH]; intros uf e He; [inversion He|]. simpl.
  apply elem_of_cons in He as [->|He].
  - destruct (Nat.eqb_spec (uf (fst e0)) (uf (snd e0))) as [Heq|Hne].
    + apply kruskal_uf_same, Heq.
    + apply kruskal_uf_same. unfold union.
      rewrite Nat.eqb_refl.
      destruct (Nat.eqb_spec (uf (fst e0)) (uf (snd e0))); [contradiction|reflexivity].
  - destruct (uf (fst e0) =? uf (snd e0))%nat; apply IH, He.
Qed.

Lemma kruskal_subset es : forall uf e, e ∈ kruskal uf es -> e ∈ es.
Proof.
  induction es as [|e0 es IH]; intros uf e He; simpl in He; [inversion He|].
  destruct (uf (fst e0) =? uf (snd e0))%nat.
  - right. eapply IH, He.
  - apply elem_of_cons in He as [->|He]; [left|right; eapply IH, He].
Qed.

(** A labelling that agrees on the two ends of every edge agrees on
    connected nodes. *)
Lemma connected_same_label es (f : nat -> nat) x y :
  (forall e, e ∈ es -> f (fst e) = f (snd e)) -> connected es x y -> f x = f y.
Proof.
  intros Hes Hc. unfold connected, rtsc in Hc.
  induction Hc as [|a b c Hab _ IH]; [reflexivity|].
  rewrite <- IH. destruct Hab as [H|H]; unfold linked in H.
  - apply (Hes _ H).
  - symmetry. apply (Hes _ H).
Qed.

(** The sets of the union-find structure are the connected components of
    the edges kept so far. *)
Lemma union_connected uf t u v :
  (forall x y, uf x = uf y -> connected t x y) ->
  forall x y, union uf u v x = union uf u v y -> connected (t ++ [(u, v)]) x y.
Proof.
  intros Hinv x y Hxy.
  assert (Hold : forall a b, uf a = uf b -> connected (t ++ [(u, v)]) a b).
  { intros a b Hab. eapply connected_mono; [|apply Hinv, Hab].
    intros e He. apply elem_of_app. left. exact He. }
  assert (Huv : connected (t ++ [(u, v)]) v u).
  { unfold connected. apply rtsc_rl. unfold linked. apply elem_of_app. right. left. }
  unfold union in Hxy. unfold connected in *.
  destruct (Nat.eqb_spec (uf x) (uf v)) as [Hx|Hx];
    destruct (Nat.eqb_spec (uf y) (uf v)) as [Hy|Hy].
  - apply Hold. congruence.
  - transitivity v; [apply Hold, Hx|]. transitivity u; [exact Huv|apply Hold, Hxy].
  - transitivity u; [apply Hold, Hxy|]. transitivity v; [symmetry; exact Huv|].
    apply Hold. congruence.
  - apply Hold, Hxy.
Qed.

Lemma kruskal_uf_connected es : forall uf t,
  (forall x y, uf x = uf y -> connected t x y) ->
  forall x y, kruskal_uf uf es x = kruskal_uf uf es y ->
    connected (t ++ kruskal uf es) x y.
Proof.
  induction es as [|e es IH]; intros uf t Hinv x y Hxy; simpl in *.
  - rewrite app_nil_r. apply Hinv, Hxy.
  - destruct (uf (fst e) =? uf (snd e))%nat; [apply (IH uf t Hinv), Hxy|].
    rewrite cons_middle, app_assoc.
    apply (IH (union uf (fst e) (snd e)) (t ++ [e])); [|exact Hxy].
    destruct e as [u v]. apply union_connected, Hinv.
Qed.

End KruskalFacts.

(** ** Canonicalization *)

Section CanonicalFacts.
Import NX Skel.

Lemma cc_loop_nil {A} (g : Graph A) vs : forall seen,
  cc_loop g vs seen = [] <-> forall v, v ∈ vs -> v ∈ seen.
Proof.
  induction vs as [|v vs IH]; intros seen; simpl.
  - split; [intros _ v Hv; inversion Hv|reflexivity].
  - destruct (decide (v ∈ seen)) as [Hin|Hnin].
    + rewrite IH. split; [intros H v0 [->|?]%elem_of_cons; auto|].
      intros H v0 Hv0. apply H. right. exact Hv0.
    + split; [discriminate|]. intros H. exfalso. apply Hnin, H. left.
Qed.

(** One component: the graph has a node, and all its nodes are connected. *)
Lemma one_component_connected {A} (g : Graph A) :
  number_connected_components g = 1%nat ->
  node_ids g <> []
  /\ forall x y, x ∈ node_ids g -> y ∈ node_ids g -> connected (edges g) x y.
Proof.
  unfold number_connected_components, connected_components.
  destruct (node_ids g) as [|v0 vs] eqn:Hids; [discriminate|].
  simpl. destruct (decide (v0 ∈ ∅)) as [Hin|_]; [set_solver|].
  simpl. intros [= Hlen]. split; [discriminate|].
  apply length_zero_iff_nil in Hlen.
  assert (Hall : forall x, x ∈ v0 :: vs -> connected (edges g) v0 x).
  { intros x [->|Hx]%elem_of_cons; [reflexivity|].
    pose proof (proj1 (cc_loop_nil g vs _) Hlen x Hx) as Hin.
    apply elem_of_union in Hin as [Hin|Hin]; [set_solver|].
    eapply iter_expand_sound, Hin. }
  intros x y Hx Hy. unfold connected in *.
  transitivity v0; [symmetry; apply Hall, Hx|apply Hall, Hy].
Qed.

Lemma connected_one_component {A} (g : Graph A) :
  wf_graph g = true -> node_ids g <> [] ->
  (forall x y, x ∈ node_ids g -> y ∈ node_ids g -> connected (edges g) x y) ->
  number_connected_components g = 1%nat.
Proof.
  intros Hwf Hne Hall.
  unfold number_connected_components, connected_components.
  destruct (node_ids g) as [|v0 vs] eqn:Hids; [congruence|].
  simpl. destruct (decide (v0 ∈ ∅)) as [Hin|_]; [set_solver|].
  simpl. f_equal. apply length_zero_iff_nil, cc_loop_nil.
  intros v Hv. apply elem_of_union. right.
  apply component_spec; [assumption|rewrite Hids; left|].
  apply Hall; [left|right; assumption].
Qed.

Lemma mst_edges_subset scal (g : Graph Pos) e :
  e ∈ edges (minimum_spanning_tree scal g) -> e ∈ edges g.
Proof.
  simpl. intros He. apply kruskal_subset in He.
  unfold sort_by in He. rewrite sort_by_elem in He. exact He.
Qed.

Lemma mst_wf scal (g : Graph Pos) :
  wf_graph g = true -> wf_graph (minimum_spanning_tree scal g) = true.
Proof.
  intros Hwf. destruct (wf_graph_spec g Hwf) as [Hnd Hes].
  apply wf_graph_intro; [exact Hnd|].
  intros e He. apply (Hes e), (mst_edges_subset scal), He.
Qed.

(** The spanning forest connects exactly the nodes the graph connects. *)
Lemma mst_connected scal (g : Graph Pos) x y :
  connected (edges (minimum_spanning_tree scal g)) x y
  <-> connected (edges g) x y.
Proof.
  split.
  - apply connected_mono. intros e. apply mst_edges_subset.
  - intros Hc. simpl.
    set (es := sort_by (weight2 g scal) (edges g)).
    apply (kruskal_uf_connected es id []).
    + intros a b Hab. unfold id in Hab. subst b. reflexivity.
    + apply (connected_same_label (edges g)); [|exact Hc].
      intros e He. apply kruskal_uf_edges. unfold es, sort_by.
      rewrite sort_by_elem. exact He.
Qed.

Lemma classes_id vs : NoDup vs -> classes id vs = length vs.
Proof.
  intros Hnd. unfold classes. rewrite map_id. apply size_list_to_set, Hnd.
Qed.

Lemma classes_constant (f : nat -> nat) vs v0 :
  v0 ∈ vs -> (forall x, x ∈ vs -> f x = f v0) -> classes f vs = 1%nat.
Proof.
  intros Hv0 Hall. unfold classes.
  assert (Heq : (list_to_set (map f vs) : gset nat) = {[f v0]}).
  { apply set_eq. intros x.
    rewrite elem_of_list_to_set, list_elem_of_fmap, elem_of_singleton. split.
    - intros (y & -> & Hy). apply Hall, Hy.
    - intros ->. eauto. }
  rewrite Heq. apply (size_singleton (C := gset nat)).
Qed.

(** A connected spanning forest of [N] nodes has [N - 1] edges. *)
Lemma mst_edge_count scal (g : Graph Pos) :
  wf_graph g = true ->
  number_connected_components (minimum_spanning_tree scal g) = 1%nat ->
  length (nodes g) = S (length (edges (minimum_spanning_tree scal g))).
Proof.
  intros Hwf Hone. destruct (wf_graph_spec g Hwf) as [Hnd Hes].
  destruct (one_component_connected _ Hone) as [Hne Hall].
  change (node_ids (minimum_spanning_tree scal g)) with (node_ids g) in *.
  simpl in *. set (es := sort_by (weight2 g scal) (edges g)) in *.
  assert (Hes' : forall e, e ∈ es -> fst e ∈ node_ids g /\ snd e ∈ node_ids g).
  { intros e He. apply Hes. unfold es, sort_by in He.
    rewrite sort_by_elem in He. exact He. }
  pose proof (kruskal_classes (node_ids g) es id Hes') as Hcount.
  rewrite (classes_id _ Hnd) in Hcount.
  destruct (node_ids g) as [|v0 vs] eqn:Hids; [congruence|].
  rewrite (classes_constant (kruskal_uf id es) (v0 :: vs) v0) in Hcount.
  - unfold node_ids in Hids. apply (f_equal length) in Hids.
    rewrite length_map in Hids. rewrite Hids. simpl in *. lia.
  - left.
  - intros x Hx. apply (connected_same_label (kruskal id es)).
    + intros e He. apply kruskal_uf_edges. eapply kruskal_subset, He.
    + apply Hall; [exact Hx|left].
Qed.

Lemma relabel_connected {A} (g : Graph A) x y :
  connected (edges g) x y ->
  connected (relabel_edges g)
    (default 0%nat (temp_edges_dict g !! x))
    (default 0%nat (temp_edges_dict g !! y)).
Proof.
  unfold connected.
  apply (rtsc_congruence (fun u => default 0%nat (temp_edges_dict g !! u))).
  intros a b Hab. unfold linked, relabel_edges in *.
  apply list_elem_of_fmap. exists (a, b). split; [reflexivity|exact Hab].
Qed.

Lemma connected_endpoint es x y :
  connected es x y -> x <> y -> x ∈ flatten_edges es.
Proof.
  intros Hc Hne. unfold connected, rtsc in Hc.
  destruct Hc as [|a b c Hab _]; [congruence|].
  apply flatten_edges_elem. destruct Hab as [H|H]; unfold linked in H.
  - exists (a, b). auto.
  - exists (b, a). auto.
Qed.

(** In a graph of a single component that has an edge, every node lies on
    an edge. *)
Lemma one_component_covered {A} (g : Graph A) k u v :
  wf_graph g = true -> number_connected_components g = 1%nat ->
  edges g !! k = Some (u, v) -> covered g = true.
Proof.
  intros Hwf Hone Hk. destruct (one_component_connected g Hone) as [_ Hall].
  destruct (wf_graph_spec g Hwf) as [_ Hes].
  assert (He : (u, v) ∈ edges g) by (eapply list_elem_of_lookup_2; eauto).
  unfold covered. apply forallb_forall. intros n Hn.
  apply list_elem_of_In in Hn. apply bool_decide_eq_true.
  destruct (decide (n = u)) as [->|Hne].
  - apply flatten_edges_elem. exists (u, v). auto.
  - apply (connected_endpoint _ n u); [|exact Hne].
    apply Hall; [exact Hn|]. apply (Hes _ He).
Qed.

(** Behind its assert, [from_netkx_to_sso] meets no node without an edge:
    for a graph whose nodes are met in increasing order of their ids, every
    skeleton it returns gives each edge the places of its two end points in
    the rebuilt node array. *)
Lemma from_netkx_to_sso_edges_index_nodes (g : Graph Pos) (sk : skeleton)
    (k u v : nat) :
  wf_graph g = true -> ascending (node_ids g) = true ->
  from_netkx_to_sso g = inr sk ->
  edges g !! k = Some (u, v) ->
  exists i j,
    sk_edges sk !! k = Some (i, j)
    /\ (i < length (sk_nodes sk))%nat /\ (j < length (sk_nodes sk))%nat
    /\ node_ids g !! i = Some u /\ node_ids g !! j = Some v
    /\ sk_nodes sk !! i = Some (position g u)
    /\ sk_nodes sk !! j = Some (position g v).
Proof.
  intros Hwf Hasc Hrun Hk.
  apply (rebuilt_edges_index_nodes g sk k u v Hwf Hasc); [|right; exact Hrun|exact Hk].
  apply (one_component_covered g k u v Hwf); [|exact Hk].
  unfold from_netkx_to_sso in Hrun.
  destruct (Nat.eqb_spec (number_connected_components g) 1); [assumption|discriminate].
Qed.

(** In a connected graph with a single node, or with every node on an
    edge, each place of the rebuilt node array is the new id of a node. *)
Lemma relabel_onto {A} (g : Graph A) i :
  wf_graph g = true ->
  (forall x y, x ∈ node_ids g -> y ∈ node_ids g -> connected (edges g) x y) ->
  (2 <= length (nodes g))%nat -> (i < length (nodes g))%nat ->
  exists u, u ∈ node_ids g /\ default 0%nat (temp_edges_dict g !! u) = i.
Proof.
  intros Hwf Hall Htwo Hi. destruct (wf_graph_spec g Hwf) as [Hnd Hes].
  set (S := np_unique (np_sort (flatten_edges (edges g)))).
  assert (HS : forall x, x ∈ S <-> x ∈ node_ids g).
  { intros x. unfold S. rewrite np_unique_elem, np_sort_elem. split.
    - intros (e & He & [->| ->])%flatten_edges_elem; apply (Hes e He).
    - intros Hx.
      assert (exists y, y ∈ node_ids g /\ x <> y) as (y & Hy & Hxy).
      { unfold node_ids in *. destruct (nodes g) as [|[a ?] [|[b ?] l]];
          simpl in *; try lia.
        apply NoDup_cons in Hnd as [Hab _].
        destruct (decide (x = a)) as [->|Hxa].
        - exists b. split; [right; left|]. intros ->. apply Hab. left.
        - exists a. split; [left|assumption]. }
      eapply connected_endpoint; eauto. }
  assert (HndS : NoDup S) by apply strict_sorted_NoDup, np_unique_strict.
  assert (Hlen : length S = length (nodes g)).
  { rewrite <- (length_map fst (nodes g)). apply Permutation_length.
    apply NoDup_Permutation; assumption. }
  destruct (lookup_lt_is_Some_2 S i) as [u Hu]; [lia|].
  exists u. split; [apply HS; eapply list_elem_of_lookup_2, Hu|].
  unfold temp_edges_dict. fold S.
  rewrite (enumerate_dict_lookup S 0 ∅ i u HndS Hu). reflexivity.
Qed.

(** C1: whenever Canonicalization (edge reweighting, minimum spanning tree,
    rebuild of the arrays behind the assertion of [from_netkx_to_sso])
    yields a skeleton, that skeleton has one edge less than it has nodes and
    is one connected component: the spanning tree passes networkx's count,
    and any two places of the node array are joined by a chain of rows of
    the edge array. *)
Theorem canonicalize_tree_invariant (scal : Pos) (g : Graph Pos)
    (sk : skeleton) :
  wf_graph g = true ->
  canonicalize scal g = inr sk ->
  length (sk_nodes sk) = S (length (sk_edges sk))
  /\ number_connected_components (minimum_spanning_tree scal g) = 1%nat
  /\ forall i j, (i < length (sk_nodes sk))%nat -> (j < length (sk_nodes sk))%nat ->
       connected (sk_edges sk) i j.
Proof.
  intros Hwf Hrun. unfold canonicalize, from_netkx_to_sso in Hrun.
  destruct (Nat.eqb_spec (number_connected_components (minimum_spanning_tree scal g)) 1)
    as [Hone|]; [|discriminate].
  injection Hrun as <-.
  pose proof (mst_edge_count scal g Hwf Hone) as Hcount.
  set (t := minimum_spanning_tree scal g) in *.
  assert (Hn : length (sk_nodes (from_netkx_to_arr t)) = length (nodes g)).
  { simpl. apply length_map. }
  assert (He : length (sk_edges (from_netkx_to_arr t)) = length (edges t)).
  { simpl. unfold relabel_edges. apply length_map. }
  split; [rewrite Hn, He; exact Hcount|]. split; [exact Hone|].
  rewrite Hn. intros i j Hi Hj.
  destruct (one_component_connected t Hone) as [_ Hall].
  destruct (le_lt_dec 2 (length (nodes g))) as [Htwo|Hsmall].
  - destruct (relabel_onto t i (mst_wf scal g Hwf) Hall Htwo Hi) as (u & Hu & <-).
    destruct (relabel_onto t j (mst_wf scal g Hwf) Hall Htwo Hj) as (v & Hv & <-).
    apply (relabel_connected t), Hall; assumption.
  - assert (i = j) as -> by lia. reflexivity.
Qed.

Lemma canonicalize_tree_invariant_witness :
  length (sk_nodes Examples.kite_skeleton)
    = S (length (sk_edges Examples.kite_skeleton))
  /\ number_connected_components
       (minimum_spanning_tree (10, 10, 20) Examples.kite) = 1%nat
  /\ forall i j, (i < length (sk_nodes Examples.kite_skeleton))%nat ->
       (j < length (sk_nodes Examples.kite_skeleton))%nat ->
       connected (sk_edges Examples.kite_skeleton) i j.
Proof.
  apply (canonicalize_tree_invariant (10, 10, 20) Examples.kite
           Examples.kite_skeleton).
  - vm_compute. reflexivity.
  - vm_compute. reflexivity.
Defined.

(** Canonicalization succeeds on every connected graph, and only there. *)
Lemma canonicalize_total (scal : Pos) (g : Graph Pos) :
  wf_graph g = true ->
  (number_connected_components g = 1%nat ->
   exists sk, canonicalize scal g = inr sk)
  /\ (number_connected_components g <> 1%nat ->
      canonicalize scal g = inl AssertionError).
Proof.
  intros Hwf.
  assert (Hiff : number_connected_components (minimum_spanning_tree scal g) = 1%nat
                 <-> number_connected_components g = 1%nat).
  { split; intros Hone; destruct (one_component_connected _ Hone) as [Hne Hall].
    - apply connected_one_component; [assumption..|].
      intros x y Hx Hy. apply (mst_connected scal). apply Hall; assumption.
    - apply connected_one_component; [apply mst_wf, Hwf|exact Hne|].
      intros x y Hx Hy. apply mst_connected. apply Hall; assumption. }
  unfold canonicalize, from_netkx_to_sso.
  destruct (Nat.eqb_spec (number_connected_components (minimum_spanning_tree scal g)) 1)
    as [Hone|Hnone]; split; intros H.
  - eauto.
  - exfalso. apply H, Hiff, Hone.
  - exfalso. apply Hnone, Hiff, H.
  - reflexivity.
Qed.

End CanonicalFacts.

(** ** Compartment Partitioner *)

Section CompartmentFacts.
Import NX Compartments.

Lemma remove_node_nodes {A} (g : Graph A) n x :
  x ∈ nodes (remove_node g n) <-> x ∈ nodes g /\ fst x <> n.
Proof. unfold remove_node. simpl. rewrite list_elem_of_filter. tauto. Qed.

Lemma remove_node_wf {A} (g : Graph A) n :
  wf_graph g = true -> wf_graph (remove_node g n) = true.
Proof.
  intros Hwf. destruct (wf_graph_spec g Hwf) as [Hnd Hes].
  assert (Hids : forall x, x ∈ node_ids (remove_node g n)
                   <-> x ∈ node_ids g /\ x <> n).
  { intros x. unfold node_ids. rewrite !list_elem_of_fmap. split.
    - intros (nd & -> & Hin). apply remove_node_nodes in Hin as [Hin Hne]. eauto.
    - intros [(nd & -> & Hin) Hne]. exists nd. split; [reflexivity|].
      apply remove_node_nodes. auto. }
  apply wf_graph_intro.
  - unfold node_ids, remove_node. simpl. unfold node_ids in Hnd.
    clear -Hnd. induction (nodes g) as [|a l IH]; simpl; [constructor|].
    simpl in Hnd. apply NoDup_cons in Hnd as [Ha Hl].
    rewrite filter_cons. destruct (decide (fst a <> n)); [|auto].
    simpl. apply NoDup_cons. split; [|auto].
    intros Hin. apply Ha. apply list_elem_of_fmap in Hin as (y & -> & Hy).
    apply list_elem_of_filter in Hy as [_ Hy]. apply list_elem_of_fmap. eauto.
  - intros e He. unfold remove_node in He. simpl in He.
    apply list_elem_of_filter in He as [[H1 H2] He].
    destruct (Hes e He). rewrite !Hids. auto.
Qed.

Lemma soma_free_fold l : forall g : Graph Z,
  wf_graph g = true ->
  wf_graph (foldl (fun sf nd => if (snd nd =? 2)%Z
                                then remove_node sf (fst nd) else sf) g l) = true
  /\ forall x,
       x ∈ nodes (foldl (fun sf nd => if (snd nd =? 2)%Z
                                      then remove_node sf (fst nd) else sf) g l)
       <-> x ∈ nodes g /\ ~ (fst x, 2%Z) ∈ l.
Proof.
  induction l as [|a l IH]; intros g Hwf; cbn [foldl].
  - split; [assumption|]. intros x. split; [|tauto].
    intros Hx. split; [assumption|]. intros Hnil. inversion Hnil.
  - destruct a as [n d]. cbn [fst snd]. destruct (d =? 2)%Z eqn:Ha.
    + apply Z.eqb_eq in Ha. subst d.
      destruct (IH (remove_node g n) (remove_node_wf g _ Hwf)) as [Hw Hx].
      split; [exact Hw|]. intros x. rewrite Hx, remove_node_nodes, elem_of_cons.
      split.
      * intros [[Hin Hne] Hl]. split; [assumption|].
        intros [[= Heq]|Hin']; [contradiction|contradiction].
      * intros [Hin Hn]. split; [split; [assumption|]|tauto].
        intros Heq. apply Hn. left. rewrite <- Heq. reflexivity.
    + apply Z.eqb_neq in Ha.
      destruct (IH g Hwf) as [Hw Hx]. split; [exact Hw|].
      intros x. rewrite Hx, elem_of_cons.
      split; intros [Hin Hn]; (split; [assumption|]).
      * intros [[= _ Heq]|Hin']; [congruence|contradiction].
      * tauto.
Qed.

Lemma soma_free_spec (g : Graph Z) :
  wf_graph g = true ->
  wf_graph (soma_free g) = true
  /\ forall n d, (n, d) ∈ nodes (soma_free g) <->
       (n, d) ∈ nodes g /\ ~ (n, 2%Z) ∈ nodes g.
Proof.
  intros Hwf. destruct (soma_free_fold (nodes g) g Hwf) as [Hw Hx].
  split; [exact Hw|]. intros n d. apply (Hx (n, d)).
Qed.

Lemma assign_cc_lookup ns : forall (dc : gmap nat Z) m n,
  assign_cc dc ns m !! n = if decide (n ∈ map fst ns) then Some m else dc !! n.
Proof.
  unfold assign_cc. induction ns as [|a ns IH]; intros dc m n; simpl.
  - destruct (decide (n ∈ [])) as [H|_]; [inversion H|reflexivity].
  - rewrite IH. destruct (decide (n ∈ map fst ns)) as [Hin|Hnin].
    + rewrite decide_True by (right; assumption). reflexivity.
    + destruct (decide (n = fst a)) as [->|Hne].
      * rewrite decide_True by left. apply lookup_insert_eq.
      * rewrite decide_False by (intros [?|?]%elem_of_cons; contradiction).
        apply lookup_insert_ne. congruence.
Qed.

Lemma cc_nodes_ids (g : Graph Z) cc n :
  n ∈ map fst (cc_nodes g cc) <-> n ∈ node_ids g /\ n ∈ cc.
Proof.
  unfold cc_nodes, node_ids. rewrite !list_elem_of_fmap. split.
  - intros (nd & -> & Hin). apply list_elem_of_filter in Hin as [Hc Hin]. eauto.
  - intros [(nd & -> & Hin) Hc]. exists nd. split; [reflexivity|].
    apply list_elem_of_filter. auto.
Qed.

Lemma dedup_sorted_nonempty {A} (eqb : A -> A -> bool) l :
  l <> [] -> Np.dedup_sorted eqb l <> [].
Proof.
  induction l as [|x l IH]; [congruence|]. intros _. cbn [Np.dedup_sorted].
  destruct l as [|y l]; [discriminate|].
  destruct (eqb x y); [apply IH; discriminate|discriminate].
Qed.

Lemma dedup_sorted_elem_Z y l : y ∈ Np.dedup_sorted Z.eqb l <-> y ∈ l.
Proof.
  induction l as [|x l IH]; [reflexivity|].
  cbn [Np.dedup_sorted]. destruct l as [|z l]; [reflexivity|].
  destruct (Z.eqb_spec x z) as [->|Hne].
  - rewrite IH. set_solver.
  - rewrite elem_of_cons, IH. set_solver.
Qed.

Lemma argmax_from_max best l :
  (snd best <= snd (Np.argmax_from best l))%nat
  /\ forall vc, vc ∈ l -> (snd vc <= snd (Np.argmax_from best l))%nat.
Proof.
  revert best. induction l as [|x l IH]; intros best; simpl.
  - split; [lia|]. intros vc Hvc. inversion Hvc.
  - destruct (Nat.ltb_spec (snd best) (snd x)) as [Hlt|Hge].
    + destruct (IH x) as [Hx Hl]. split; [lia|].
      intros vc [->|Hvc]%elem_of_cons; auto.
    + destruct (IH best) as [Hb Hl]. split; [exact Hb|].
      intros vc [->|Hvc]%elem_of_cons; [lia|auto].
Qed.

(** [Np.majority] returns a value of the list that no other value
    outnumbers. *)
Lemma majority_most_frequent l m :
  Np.majority l = inr m ->
  m ∈ l
  /\ forall v, (length (filter (fun x => x = v) l)
               <= length (filter (fun x => x = m) l))%nat.
Proof.
  unfold Np.majority.
  destruct (Np.unique_counts l) as [|vc rest] eqn:Hu; [discriminate|].
  intros [= <-].
  assert (Hin : Np.argmax_from vc rest ∈ Np.unique_counts l).
  { rewrite Hu. destruct (argmax_from_in vc rest) as [->|H]; [left|right; exact H]. }
  unfold Np.unique_counts in Hin.
  apply list_elem_of_fmap in Hin as (w & Hw & Hwin).
  rewrite Hw. simpl.
  rewrite dedup_sorted_elem_Z, sort_by_elem in Hwin. split; [exact Hwin|].
  intros v. destruct (decide (v ∈ l)) as [Hv|Hv].
  - assert (Hvin : (v, length (filter (fun x => x = v) l)) ∈ vc :: rest).
    { rewrite <- Hu. unfold Np.unique_counts. apply list_elem_of_fmap.
      exists v. split; [reflexivity|].
      rewrite dedup_sorted_elem_Z, sort_by_elem. exact Hv. }
    destruct (argmax_from_max vc rest) as [Hb Hl].
    assert (Hle : (length (filter (fun x => x = v) l)
                   <= snd (Np.argmax_from vc rest))%nat).
    { apply elem_of_cons in Hvin as [<-|Hvin]; [exact Hb|apply (Hl _ Hvin)]. }
    rewrite Hw in Hle. exact Hle.
  - assert (Hnil : filter (fun x => x = v) l = []).
    { clear -Hv. induction l as [|a l IH]; [reflexivity|].
      rewrite filter_cons. destruct (decide (a = v)) as [->|_].
      - exfalso. apply Hv. left.
      - apply IH. intros H. apply Hv. right. exact H. }
    rewrite Hnil. simpl. lia.
Qed.

Lemma majority_nonempty l : l <> [] -> exists m, Np.majority l = inr m.
Proof.
  intros Hl. unfold Np.majority, Np.unique_counts.
  destruct (Np.dedup_sorted Z.eqb (Np.sort_by Z.leb l)) as [|v vs] eqn:Hd.
  - exfalso. revert Hd. apply dedup_sorted_nonempty.
    intros Hs. apply (f_equal length) in Hs. rewrite sort_by_length in Hs.
    destruct l; [congruence|discriminate].
  - simpl. eauto.
Qed.

Lemma biased_majority_spec preds m :
  biased_majority preds = inr m <->
  exists majority, Np.majority preds = inr majority /\ m = biased majority preds.
Proof.
  unfold biased_majority.
  destruct (Np.majority preds) as [e|maj];
    [split; [discriminate|intros (? & [=] & _)]|].
  assert (Hb : (if (maj =? 1)%Z
                   && (100 * length (filter (fun x => x = 1%Z) preds)
                       <? 66 * length preds)%nat
                then inr 0%Z else inr maj)
               = inr (A := error) (biased maj preds)).
  { unfold biased. destruct (Z.eqb_spec maj 1) as [H1|H1];
      destruct (Nat.ltb_spec (100 * length (filter (fun x => x = 1%Z) preds))
                  (66 * length preds)) as [H2|H2]; simpl.
    - rewrite decide_True by tauto. reflexivity.
    - rewrite decide_False by lia. reflexivity.
    - rewrite decide_False by tauto. reflexivity.
    - rewrite decide_False by tauto. reflexivity. }
  rewrite Hb. split.
  - intros [= <-]. eauto.
  - intros (? & [= <-] & ->). reflexivity.
Qed.

Lemma assign_ccs_spec sf ccs : forall dc : gmap nat Z,
  pairwise_disjoint ccs ->
  (forall cc, cc ∈ ccs -> cc_nodes sf cc <> []) ->
  exists dc', assign_ccs sf ccs dc = inr dc'
    /\ (forall n, (forall cc, cc ∈ ccs -> n ∉ map fst (cc_nodes sf cc)) ->
          dc' !! n = dc !! n)
    /\ (forall cc n, cc ∈ ccs -> n ∈ cc -> n ∈ node_ids sf ->
          exists m, biased_majority (map snd (cc_nodes sf cc)) = inr m
            /\ dc' !! n = Some m).
Proof.
  induction ccs as [|cc rest IH]; intros dc Hdisj Hne; simpl.
  - exists dc. split; [reflexivity|]. split; [auto|].
    intros cc n Hcc. inversion Hcc.
  - destruct Hdisj as [Hhead Hrest].
    destruct (majority_nonempty (map snd (cc_nodes sf cc))) as [maj Hmaj].
    { intros Hnil. apply (Hne cc (list_elem_of_here _ _)).
      destruct (cc_nodes sf cc); [reflexivity|discriminate]. }
    assert (Hm : biased_majority (map snd (cc_nodes sf cc))
                 = inr (biased maj (map snd (cc_nodes sf cc)))).
    { apply biased_majority_spec. eauto. }
    rewrite Hm.
    destruct (IH (assign_cc dc (cc_nodes sf cc) (biased maj (map snd (cc_nodes sf cc))))
                Hrest) as (dc' & Hrun & Hkeep & Hset).
    { intros cc' Hcc'. apply Hne. right. assumption. }
    exists dc'. split; [exact Hrun|]. split.
    + intros n Hn. rewrite Hkeep by (intros; apply Hn; right; assumption).
      rewrite assign_cc_lookup.
      rewrite decide_False by (apply Hn; left). reflexivity.
    + intros cc0 n Hcc0 Hin Hids.
      apply elem_of_cons in Hcc0 as [->|Hcc0]; [|apply Hset; assumption].
      exists (biased maj (map snd (cc_nodes sf cc))). split; [exact Hm|].
      rewrite Hkeep.
      * rewrite assign_cc_lookup, decide_True; [reflexivity|].
        apply cc_nodes_ids. auto.
      * intros cc' Hcc' Hn'. apply cc_nodes_ids in Hn' as [_ Hn'].
        apply (Hhead cc' Hcc' n Hin Hn').
Qed.

Lemma weighted_graph_nodes axoness es n d :
  (n, d) ∈ nodes (weighted_graph axoness es) <-> axoness !! n = Some d.
Proof.
  unfold weighted_graph. simpl. rewrite list_elem_of_lookup. split.
  - intros (i & Hi). apply lookup_zip_Some in Hi as [Hs Hd].
    apply lookup_seq in Hs as [-> _]. exact Hd.
  - intros Hd. exists n. apply lookup_zip_Some. split; [|exact Hd].
    apply lookup_seq. split; [reflexivity|]. eapply lookup_lt_Some, Hd.
Qed.

Lemma weighted_graph_ids axoness es :
  node_ids (weighted_graph axoness es) = seq 0 (length axoness).
Proof.
  unfold node_ids, weighted_graph. simpl. apply fst_zip.
  rewrite length_seq. lia.
Qed.

(** C5 (as the code has it): on a well-formed skeleton the call succeeds and
    returns one label per node.  Every node of a connected component of the
    soma-free graph gets the component's majority class (the smallest of the
    most frequent labels), except that a majority of class 1 with a share
    below 66 % gives class 0; the nodes labelled 2 keep the label 2. *)
Theorem compartments_majority (axoness : list Z) (es : list (nat * nat)) :
  wf_graph (weighted_graph axoness es) = true ->
  exists arr,
    majority_vote_compartments axoness es = inr arr
    /\ length arr = length axoness
    /\ (forall cc n,
          cc ∈ connected_components (soma_free (weighted_graph axoness es)) ->
          n ∈ cc ->
          exists majority,
            Np.majority
              (map snd (cc_nodes (soma_free (weighted_graph axoness es)) cc))
              = inr majority
            /\ arr !! n
               = Some (biased majority
                   (map snd (cc_nodes (soma_free (weighted_graph axoness es)) cc))))
    /\ (forall n, axoness !! n = Some 2%Z -> arr !! n = Some 2%Z).
Proof.
  intros Hwf. set (g := weighted_graph axoness es) in *.
  destruct (soma_free_spec g Hwf) as [Hwsf Hsf].
  set (sf := soma_free g) in *.
  destruct (connected_components_spec sf Hwsf) as (Hdisj & Hcomp & _).
  assert (Hsub : forall n, n ∈ node_ids sf -> n ∈ node_ids g).
  { intros n (nd & -> & Hin)%list_elem_of_fmap. destruct nd as [n d].
    apply Hsf in Hin as [Hin _]. apply list_elem_of_fmap. exists (n, d). auto. }
  assert (Hlt : forall n, n ∈ node_ids g -> (n < length axoness)%nat).
  { intros n Hn. unfold g in Hn. rewrite weighted_graph_ids in Hn.
    apply elem_of_seq in Hn. lia. }
  destruct (assign_ccs_spec sf (connected_components sf) (list_to_map (nodes g)) Hdisj)
    as (dc & Hrun & Hkeep & Hset).
  { intros cc Hcc Hnil. destruct (Hcomp cc Hcc) as (v & Hv & ->).
    assert (Hin : v ∈ map fst (cc_nodes sf (component sf v))).
    { apply cc_nodes_ids. split; [assumption|]. apply iter_expand_start. }
    rewrite Hnil in Hin. inversion Hin. }
  assert (Harr : forall n, (n < length axoness)%nat ->
            map (fun n => default 0%Z (dc !! n)) (seq 0 (length axoness)) !! n
            = Some (default 0%Z (dc !! n))).
  { intros n Hn. rewrite list_lookup_fmap, lookup_seq_lt by assumption.
    reflexivity. }
  unfold majority_vote_compartments. fold g. fold sf. rewrite Hrun.
  eexists. split; [reflexivity|]. split; [|split].
  - rewrite length_map, length_seq. reflexivity.
  - intros cc n Hcc Hn.
    assert (Hids : n ∈ node_ids sf).
    { destruct (Hcomp cc Hcc) as (v & Hv & ->).
      eapply component_nodes; eauto. }
    destruct (Hset cc n Hcc Hn Hids) as (m & Hm & Hdc).
    apply biased_majority_spec in Hm as (maj & Hmaj & ->).
    exists maj. split; [exact Hmaj|].
    rewrite Harr by (apply Hlt, Hsub, Hids). rewrite Hdc. reflexivity.
  - intros n Hn.
    assert (Hg : (n, 2%Z) ∈ nodes g) by (apply weighted_graph_nodes, Hn).
    rewrite Harr by (eapply lookup_lt_Some, Hn).
    rewrite Hkeep.
    + destruct (wf_graph_spec g Hwf) as [Hnd _].
      apply (elem_of_list_to_map (M := gmap nat)) in Hg; [|exact Hnd].
      rewrite Hg. reflexivity.
    + intros cc Hcc Hin. apply cc_nodes_ids in Hin as [Hin _].
      apply list_elem_of_fmap in Hin as ([n' d] & Heq & Hin). simpl in Heq.
      subst n'. apply Hsf in Hin as [_ Hno]. contradiction.
Qed.

Lemma compartments_majority_witness :
  exists arr,
    majority_vote_compartments [1; 0; 2; 1; 1]%Z Examples.row_edges = inr arr
    /\ length arr = length [1; 0; 2; 1; 1]%Z
    /\ (forall cc n,
          cc ∈ connected_components
                 (soma_free (weighted_graph [1; 0; 2; 1; 1]%Z Examples.row_edges)) ->
          n ∈ cc ->
          exists majority,
            Np.majority
              (map snd (cc_nodes
                 (soma_free (weighted_graph [1; 0; 2; 1; 1]%Z Examples.row_edges)) cc))
              = inr majority
            /\ arr !! n
               = Some (biased majority
                   (map snd (cc_nodes
                      (soma_free (weighted_graph [1; 0; 2; 1; 1]%Z Examples.row_edges))
                      cc))))
    /\ (forall n, [1; 0; 2; 1; 1]%Z !! n = Some 2%Z -> arr !! n = Some 2%Z).
Proof.
  apply (compartments_majority [1; 0; 2; 1; 1]%Z Examples.row_edges).
  vm_compute. reflexivity.
Defined.

(** C5 (as the spec states it) fails: in a component with three nodes of
    class 1 and two of class 3 the majority, class 1, has a share of 60 %;
    the runner-up is class 3, and class 0 has no vote at all, yet every node
    of the component is given class 0. *)
Lemma compartments_not_runner_up :
  connected_components (soma_free (weighted_graph Examples.axon_row Examples.row_edges))
    = [{[0%nat; 1%nat; 2%nat; 3%nat; 4%nat]}]
  /\ Np.unique_counts Examples.axon_row = [(1, 3%nat); (3, 2%nat)]
  /\ majority_vote_compartments Examples.axon_row Examples.row_edges
      = inr [0; 0; 0; 0; 0].
Proof. repeat split; vm_compute; reflexivity. Qed.

End CompartmentFacts.

(** ** Pruner *)

Section PrunerFacts.
Import NX Pruner.

Lemma bind_Ok {A B} (r : result A) (k : A -> result B) b :
  (r ≫= k) = Ok b <-> exists a, r = Ok a /\ k a = Ok b.
Proof.
  destruct r as [a| |]; simpl; split.
  - eauto.
  - intros (a' & [= <-] & H). exact H.
  - discriminate.
  - intros (? & [=] & _).
  - discriminate.
  - intros (? & [=] & _).
Qed.

Lemma bind_no_timeout {A B} (r : result A) (k : A -> result B) :
  r <> OutOfFuel -> (forall a, r = Ok a -> k a <> OutOfFuel) ->
  (r ≫= k) <> OutOfFuel.
Proof.
  destruct r as [a| |]; simpl; intros Hr Hk; [apply Hk; reflexivity|discriminate|congruence].
Qed.

(** *** The depth-first search finishes within its fuel *)

Lemma unvisited_visit visited c a :
  (unvisited (visited ++ [c]) a <= unvisited visited a)%nat.
Proof.
  unfold unvisited. destruct (bool_decide (a ∈ visited)) eqn:Ha.
  - apply bool_decide_eq_true in Ha.
    rewrite bool_decide_eq_true_2 by (apply elem_of_app; auto). lia.
  - destruct (bool_decide (a ∈ visited ++ [c])); lia.
Qed.

Lemma unvisited_ends_visit (g : Graph Pos) visited c :
  c ∉ visited ->
  (unvisited_ends (edges g) (visited ++ [c]) + length (neighbors g c)
   <= unvisited_ends (edges g) visited)%nat.
Proof.
  intros Hc. unfold unvisited_ends, neighbors.
  induction (edges g) as [|[a b] es IH]; simpl; [lia|].
  rewrite length_app.
  assert (H1 : unvisited (visited ++ [c]) c = 0%nat).
  { unfold unvisited. rewrite bool_decide_eq_true_2; [reflexivity|].
    apply elem_of_app. right. left. }
  assert (H2 : unvisited visited c = 1%nat).
  { unfold unvisited. rewrite bool_decide_eq_false_2 by assumption. reflexivity. }
  pose proof (unvisited_visit visited c a). pose proof (unvisited_visit visited c b).
  destruct (Nat.eqb_spec a c) as [->|Ha]; [simpl; lia|].
  destruct (Nat.eqb_spec b c) as [->|Hb]; simpl; lia.
Qed.

Lemma unvisited_ends_bound es visited :
  (unvisited_ends es visited <= 2 * length es)%nat.
Proof.
  unfold unvisited_ends, unvisited.
  induction es as [|[a b] es IH]; simpl; [lia|].
  destruct (bool_decide (a ∈ visited)), (bool_decide (b ∈ visited)); simpl; lia.
Qed.

Lemma dfs_loop_total (g : Graph Pos) : forall fuel stack visited,
  (stack_size stack + 2 * unvisited_ends (edges g) visited < fuel)%nat ->
  exists order, dfs_loop fuel g stack visited = Ok order.
Proof.
  induction fuel as [|fuel IH]; intros stack visited Hm; [lia|].
  simpl. destruct stack as [|[|child children] stack]; [eauto|..].
  - apply IH. unfold stack_size in *. simpl in *. lia.
  - destruct (bool_decide (child ∈ visited)) eqn:Hc.
    + apply IH. unfold stack_size in *. simpl in *. lia.
    + apply bool_decide_eq_false in Hc.
      pose proof (unvisited_ends_visit g visited child Hc).
      apply IH. unfold stack_size in *. simpl in *. lia.
Qed.

Lemma dfs_preorder_nodes_total (g : Graph Pos) source :
  exists order, dfs_preorder_nodes g source = Ok order.
Proof.
  apply dfs_loop_total. unfold dfs_fuel, stack_size. simpl.
  pose proof (unvisited_ends_visit g [] source) as Hv.
  pose proof (unvisited_ends_bound (edges g) []).
  simpl in Hv. specialize (Hv ltac:(intros Hn; inversion Hn)). lia.
Qed.

Lemma dfs_loop_extends (g : Graph Pos) : forall fuel stack visited order,
  dfs_loop fuel g stack visited = Ok order -> exists ext, order = visited ++ ext.
Proof.
  induction fuel as [|fuel IH]; intros stack visited order H; [discriminate|].
  simpl in H. destruct stack as [|[|child children] stack].
  - injection H as <-. exists []. rewrite app_nil_r. reflexivity.
  - eapply IH, H.
  - destruct (bool_decide (child ∈ visited)); [eapply IH, H|].
    apply IH in H as [ext ->]. exists (child :: ext).
    rewrite <- app_assoc. reflexivity.
Qed.

Lemma walk_to_branch_extends (g : Graph Pos) order : forall acc ns b,
  walk_to_branch g order acc = (ns, b) -> exists ext, ns = acc ++ ext.
Proof.
  induction order as [|c rest IH]; intros acc ns b H; simpl in H.
  - injection H as <- _. exists []. rewrite app_nil_r. reflexivity.
  - destruct (2 <? degree g c)%nat.
    + injection H as <- _. exists []. rewrite app_nil_r. reflexivity.
    + apply IH in H as [ext ->]. exists (c :: ext).
      rewrite <- app_assoc. reflexivity.
Qed.

(** The stub of an end node, when there is one, holds the end node. *)
Lemma stub_Some (g : Graph Pos) scal len_thres end_node ns :
  stub g scal len_thres end_node = Ok (Some ns) <->
  exists order b,
    dfs_preorder_nodes g end_node = Ok order
    /\ walk_to_branch g order [] = (ns, Some b)
    /\ norm_lt (b_len2 g scal end_node b) len_thres = true.
Proof.
  unfold stub. rewrite bind_Ok. split.
  - intros (order & Hd & Hw). exists order.
    destruct (walk_to_branch g order []) as [ns' [b|]]; [|discriminate].
    destruct (norm_lt _ _) eqn:Hn; [|discriminate].
    injection Hw as <-. eauto.
  - intros (order & b & Hd & Hw & Hn). exists order. split; [exact Hd|].
    rewrite Hw, Hn. reflexivity.
Qed.

Lemma stub_None (g : Graph Pos) scal len_thres end_node :
  stub g scal len_thres end_node = Ok None ->
  forall order ns b,
    dfs_preorder_nodes g end_node = Ok order ->
    walk_to_branch g order [] = (ns, Some b) ->
    norm_lt (b_len2 g scal end_node b) len_thres = false.
Proof.
  unfold stub. rewrite bind_Ok. intros (order' & Hd' & Hw') order ns b Hd Hw.
  rewrite Hd in Hd'. injection Hd' as <-. rewrite Hw in Hw'.
  destruct (norm_lt _ _); [discriminate|reflexivity].
Qed.

Lemma stub_nonempty (g : Graph Pos) scal len_thres end_node ns :
  degree g end_node = 1%nat ->
  stub g scal len_thres end_node = Ok (Some ns) -> end_node ∈ ns.
Proof.
  intros Hdeg (order & b & Hd & Hw & _)%stub_Some.
  apply dfs_loop_extends in Hd as [ext ->]. simpl in Hw.
  rewrite Hdeg in Hw. simpl in Hw.
  apply walk_to_branch_extends in Hw as [ext' ->]. left.
Qed.

Lemma stub_no_timeout (g : Graph Pos) scal len_thres end_node :
  stub g scal len_thres end_node <> OutOfFuel.
Proof.
  unfold stub. destruct (dfs_preorder_nodes_total g end_node) as [order ->].
  simpl. destruct (walk_to_branch g order []) as [ns [b|]]; [|discriminate].
  destruct (norm_lt _ _); discriminate.
Qed.

(** *** Removing nodes *)

Lemma remove_node_length (g : Graph Pos) n :
  (length (nodes (remove_node g n)) <= length (nodes g))%nat.
Proof. unfold remove_node. simpl. apply length_filter. Qed.

Lemma remove_node_length_lt (g : Graph Pos) n :
  n ∈ node_ids g -> (length (nodes (remove_node g n)) < length (nodes g))%nat.
Proof.
  unfold remove_node, node_ids. simpl. induction (nodes g) as [|a l IH]; intros Hn.
  - inversion Hn.
  - rewrite filter_cons. destruct (decide (fst a <> n)) as [Hne|He]; simpl.
    + apply elem_of_cons in Hn as [Hn|Hn]; [congruence|].
      specialize (IH Hn). lia.
    + pose proof (length_filter (fun np : nat * Pos => fst np <> n) l). lia.
Qed.

Lemma remove_node_ids (g : Graph Pos) n x :
  x ∈ node_ids (remove_node g n) <-> x ∈ node_ids g /\ x <> n.
Proof.
  unfold node_ids. rewrite !list_elem_of_fmap. split.
  - intros (nd & -> & Hin). apply remove_node_nodes in Hin as [Hin Hne]. eauto.
  - intros [(nd & -> & Hin) Hne]. exists nd. split; [reflexivity|].
    apply remove_node_nodes. auto.
Qed.

Lemma remove_nodes_spec ns : forall (g g' : Graph Pos),
  remove_nodes g ns = Ok g' ->
  (length (nodes g') + length ns <= length (nodes g))%nat
  /\ forall x, x ∈ node_ids g' <-> x ∈ node_ids g /\ x ∉ ns.
Proof.
  induction ns as [|n ns IH]; intros g g' H; simpl in H.
  - injection H as <-. split; [simpl; lia|]. intros x. split; [|tauto].
    intros Hx. split; [assumption|]. intros Hn. inversion Hn.
  - apply bind_Ok in H as (g1 & Hrm & Hrest). unfold remove_node_checked in Hrm.
    destruct (bool_decide (n ∈ node_ids g)) eqn:Hin; [|discriminate].
    apply bool_decide_eq_true in Hin. injection Hrm as <-.
    destruct (IH _ _ Hrest) as [Hlen Hids].
    pose proof (remove_node_length_lt g n Hin). split; [simpl; lia|].
    intros x. rewrite Hids, remove_node_ids, not_elem_of_cons. tauto.
Qed.

Lemma remove_nodes_no_timeout ns : forall g : Graph Pos,
  remove_nodes g ns <> OutOfFuel.
Proof.
  induction ns as [|n ns IH]; intros g; simpl; [discriminate|].
  unfold remove_node_checked. destruct (bool_decide (n ∈ node_ids g)); simpl.
  - apply IH.
  - discriminate.
Qed.

(** *** One round *)

Lemma prune_ends_spec (nx_g : Graph Pos) scal len_thres ends :
  (forall e, e ∈ ends -> degree nx_g e = 1%nat) ->
  forall new_g new_g',
    prune_ends nx_g scal len_thres new_g ends = Ok new_g' ->
    (length (nodes new_g') <= length (nodes new_g))%nat
    /\ (length (nodes new_g') = length (nodes new_g) ->
        new_g' = new_g
        /\ forall e, e ∈ ends -> stub nx_g scal len_thres e = Ok None)
    /\ (forall x, x ∈ node_ids new_g' -> x ∈ node_ids new_g)
    /\ (forall x, x ∈ node_ids new_g -> x ∉ node_ids new_g' ->
        exists e ns, e ∈ ends /\ stub nx_g scal len_thres e = Ok (Some ns)
                     /\ x ∈ ns).
Proof.
  induction ends as [|e ends IH]; intros Hdeg new_g new_g' H; simpl in H.
  - injection H as <-. split; [lia|]. split; [|split].
    + intros _. split; [reflexivity|]. intros e He. inversion He.
    + auto.
    + intros x Hx Hnx. contradiction.
  - apply bind_Ok in H as (st & Hst & H).
    apply bind_Ok in H as (g1 & Hg1 & Hrest).
    assert (Hdeg' : forall e0, e0 ∈ ends -> degree nx_g e0 = 1%nat)
      by (intros; apply Hdeg; right; assumption).
    destruct (IH Hdeg' _ _ Hrest) as (Hle & Heq & Hsub & Hrem).
    destruct st as [ns|].
    + destruct (remove_nodes_spec _ _ _ Hg1) as [Hlen Hids].
      assert (Hin : e ∈ ns) by (eapply stub_nonempty; [apply Hdeg; left|exact Hst]).
      assert (Hpos : (0 < length ns)%nat) by (destruct ns; [inversion Hin|simpl; lia]).
      split; [lia|]. split; [intros; lia|]. split.
      * intros x Hx. apply Hsub, Hids in Hx. tauto.
      * intros x Hx Hnx. destruct (decide (x ∈ ns)) as [Hxn|Hxn].
        -- exists e, ns. split; [left|auto].
        -- destruct (Hrem x) as (e' & ns' & He' & Hs' & Hx'); [apply Hids; auto|assumption|].
           exists e', ns'. split; [right; assumption|auto].
    + injection Hg1 as <-. split; [exact Hle|]. split; [|split; [exact Hsub|]].
      * intros Hl. destruct (Heq Hl) as [-> Hnone]. split; [reflexivity|].
        intros e0 [->|He0]%elem_of_cons; [exact Hst|apply Hnone, He0].
      * intros x Hx Hnx. destruct (Hrem x Hx Hnx) as (e' & ns' & He' & Hs').
        exists e', ns'. split; [right; assumption|exact Hs'].
Qed.

Lemma prune_ends_no_timeout (nx_g : Graph Pos) scal len_thres ends :
  forall new_g, prune_ends nx_g scal len_thres new_g ends <> OutOfFuel.
Proof.
  induction ends as [|e ends IH]; intros new_g; simpl; [discriminate|].
  apply bind_no_timeout; [apply stub_no_timeout|]. intros st _.
  apply bind_no_timeout; [|intros; apply IH].
  destruct st; [apply remove_nodes_no_timeout|discriminate].
Qed.

Lemma end_nodes_degree (g : Graph Pos) e : e ∈ end_nodes g -> degree g e = 1%nat.
Proof. unfold end_nodes. intros [H _]%list_elem_of_filter. exact H. Qed.

Lemma prune_pass_spec scal len_thres (g g' : Graph Pos) :
  prune_pass scal len_thres g = Ok g' ->
  (length (nodes g') <= length (nodes g))%nat
  /\ (length (nodes g') = length (nodes g) ->
      g' = g /\ forall e, e ∈ end_nodes g -> stub g scal len_thres e = Ok None)
  /\ (forall x, x ∈ node_ids g' -> x ∈ node_ids g)
  /\ (forall x, x ∈ node_ids g -> x ∉ node_ids g' ->
      exists e ns, e ∈ end_nodes g /\ stub g scal len_thres e = Ok (Some ns)
                   /\ x ∈ ns).
Proof. apply prune_ends_spec. apply end_nodes_degree. Qed.

(** *** The loop *)

(** The pruning loop finishes within its fuel. *)
Lemma prune_loop_no_timeout scal len_thres : forall fuel (g : Graph Pos),
  (length (nodes g) < fuel)%nat -> prune_loop fuel scal len_thres g <> OutOfFuel.
Proof.
  induction fuel as [|fuel IH]; intros g Hlen; [lia|]. simpl.
  apply bind_no_timeout; [apply prune_ends_no_timeout|].
  intros g' Hpass. destruct (prune_pass_spec _ _ _ _ Hpass) as (Hle & _).
  destruct (Nat.eqb_spec (length (nodes g')) (length (nodes g))); [discriminate|].
  apply IH. lia.
Qed.

Lemma prune_loop_spec scal len_thres : forall fuel (g g' : Graph Pos),
  prune_loop fuel scal len_thres g = Ok g' ->
  rtc (fun a b => prune_pass scal len_thres a = Ok b) g g'
  /\ prune_pass scal len_thres g' = Ok g'.
Proof.
  induction fuel as [|fuel IH]; intros g g' H; [discriminate|]. simpl in H.
  apply bind_Ok in H as (g1 & Hpass & H).
  destruct (Nat.eqb_spec (length (nodes g1)) (length (nodes g))) as [Heq|Hne].
  - injection H as <-.
    destruct (prune_pass_spec _ _ _ _ Hpass) as (_ & Hfix & _).
    destruct (Hfix Heq) as [-> _]. split; [reflexivity|exact Hpass].
  - destruct (IH _ _ H) as [Hrtc Hfix]. split; [|exact Hfix].
    eapply rtc_l; eauto.
Qed.

Lemma passes_removed scal len_thres (g g' : Graph Pos) :
  rtc (fun a b => prune_pass scal len_thres a = Ok b) g g' ->
  forall x, x ∈ node_ids g -> x ∉ node_ids g' ->
    exists h e ns,
      rtc (fun a b => prune_pass scal len_thres a = Ok b) g h
      /\ e ∈ end_nodes h /\ stub h scal len_thres e = Ok (Some ns) /\ x ∈ ns.
Proof.
  induction 1 as [g|g g1 g' Hpass Hrtc IH]; intros x Hx Hnx; [contradiction|].
  destruct (prune_pass_spec _ _ _ _ Hpass) as (_ & _ & _ & Hrem).
  destruct (decide (x ∈ node_ids g1)) as [Hx1|Hx1].
  - destruct (IH x Hx1 Hnx) as (h & e & ns & Hh & He).
    exists h, e, ns. split; [eapply rtc_l; eauto|exact He].
  - destruct (Hrem x Hx Hx1) as (e & ns & He).
    exists g, e, ns. split; [reflexivity|exact He].
Qed.

(** What the pruning loop of [prune_stub_branches] guarantees (C3 asks for
    path lengths instead).  When it ends without an exception, (1) in the graph it
    leaves, no end node whose depth-first walk meets a branch node lies at a
    straight-line distance below [len_thres] from that branch node, the
    distance being taken between the positions converted by [convert_coord];
    and (2) every node that was removed lay on the walk of an end node of
    some intermediate graph, from that end node to the first branch node,
    whose straight-line distance was below [len_thres]. *)
Theorem prune_loop_straight_line (scal : Pos) (len_thres : Z)
    (g g' : Graph Pos) :
  pruned scal len_thres g = Ok g' ->
  (forall e order ns b,
      e ∈ end_nodes g' ->
      dfs_preorder_nodes g' e = Ok order ->
      walk_to_branch g' order [] = (ns, Some b) ->
      norm_lt (b_len2 g' scal e b) len_thres = false)
  /\ (forall x, x ∈ node_ids g -> x ∉ node_ids g' ->
      exists h e order ns b,
        rtc (fun a b => prune_pass scal len_thres a = Ok b) g h
        /\ e ∈ end_nodes h
        /\ dfs_preorder_nodes h e = Ok order
        /\ walk_to_branch h order [] = (ns, Some b)
        /\ x ∈ ns
        /\ norm_lt (b_len2 h scal e b) len_thres = true).
Proof.
  intros Hrun. unfold pruned in Hrun.
  destruct (prune_loop_spec _ _ _ _ _ Hrun) as [Hrtc Hfix]. split.
  - intros e order ns b He Hd Hw.
    destruct (prune_pass_spec _ _ _ _ Hfix) as (_ & Hnone & _).
    destruct (Hnone eq_refl) as [_ Hstub].
    eapply stub_None; eauto.
  - intros x Hx Hnx.
    destruct (passes_removed _ _ _ _ Hrtc x Hx Hnx) as (h & e & ns & Hh & He & Hs & Hin).
    apply stub_Some in Hs as (order & b & Hd & Hw & Hn).
    exists h, e, order, ns, b. auto 10.
Qed.

Lemma pruned_no_timeout scal len_thres (g : Graph Pos) :
  pruned scal len_thres g <> OutOfFuel.
Proof. apply prune_loop_no_timeout. lia. Qed.

Lemma prune_loop_straight_line_witness :
  (forall e order ns b,
      e ∈ end_nodes Examples.pruned_winding ->
      dfs_preorder_nodes Examples.pruned_winding e = Ok order ->
      walk_to_branch Examples.pruned_winding order [] = (ns, Some b) ->
      norm_lt (b_len2 Examples.pruned_winding (1, 1, 1) e b) 10 = false)
  /\ (forall x, x ∈ node_ids Examples.winding ->
      x ∉ node_ids Examples.pruned_winding ->
      exists h e order ns b,
        rtc (fun a b => prune_pass (1, 1, 1) 10 a = Ok b) Examples.winding h
        /\ e ∈ end_nodes h
        /\ dfs_preorder_nodes h e = Ok order
        /\ walk_to_branch h order [] = (ns, Some b)
        /\ x ∈ ns
        /\ norm_lt (b_len2 h (1, 1, 1) e b) 10 = true).
Proof.
  apply (prune_loop_straight_line (1, 1, 1) 10 Examples.winding
           Examples.pruned_winding).
  vm_compute. reflexivity.
Defined.

(** C3 fails on the code: the stub 2 - 1 - 0 of [winding] is 19 + 20 = 39
    long, more than the threshold 10, and yet it is removed, because its tip
    lies at the straight-line distance 1 from the branch node. *)
Lemma prune_removes_long_winding_stub :
  pruned (1, 1, 1) 10 Examples.winding = Ok Examples.pruned_winding
  /\ node_ids Examples.pruned_winding = [0%nat; 3%nat; 4%nat]
  /\ edge_length2 Examples.winding (1, 1, 1) 2 1 = 19 * 19
  /\ edge_length2 Examples.winding (1, 1, 1) 1 0 = 20 * 20
  /\ 10 < 19 + 20
  /\ b_len2 Examples.winding (1, 1, 1) 2 0 = 1 * 1.
Proof. repeat split; vm_compute; reflexivity. Qed.

(** [convert_coord] swaps the first two axes before it scales: with the
    scaling (1, 100, 1) the stub 1 - 0 of [short_stub], 5 nm long, is
    measured as 500 and kept for the threshold 100. *)
Example prune_keeps_short_stub :
  edge_length2 Examples.short_stub (1, 100, 1) 1 0 = 5 * 5
  /\ b_len2 Examples.short_stub (1, 100, 1) 1 0 = 500 * 500
  /\ pruned (1, 100, 1) 100 Examples.short_stub = Ok Examples.short_stub.
Proof. repeat split; vm_compute; reflexivity. Qed.

(** In the call from [create_sso_skeleton_fast], where [sso] is [None], a
    pruned graph that is not one component ends in [AttributeError]. *)
Lemma prune_stub_branches_without_sso stitch_skel_nx scal len_thres
    (g g' : Graph Pos) :
  pruned scal len_thres g = Ok g' ->
  number_connected_components g' <> 1%nat ->
  prune_stub_branches stitch_skel_nx None g scal len_thres = Raise AttributeError.
Proof.
  intros Hp Hn. unfold prune_stub_branches. rewrite Hp. simpl.
  destruct (Nat.eqb_spec (number_connected_components g') 1); [contradiction|].
  reflexivity.
Qed.

End PrunerFacts.

(** ** Lists *)

Section FilterFacts.

Lemma filter_filter_app {A} (f : A -> nat) (S1 S2 : list nat) (l : list A) :
  filter (fun x => f x ∉ S2) (filter (fun x => f x ∉ S1) l)
  = filter (fun x => f x ∉ (S1 ++ S2)) l.
Proof.
  induction l as [|a l IH]; [reflexivity|].
  rewrite !filter_cons.
  destruct (decide (f a ∉ S1)) as [H1|H1].
  - rewrite filter_cons. destruct (decide (f a ∉ S2)) as [H2|H2].
    + rewrite decide_True by (rewrite elem_of_app; tauto). rewrite IH. reflexivity.
    + rewrite decide_False by (rewrite elem_of_app; tauto). exact IH.
  - rewrite decide_False by (rewrite elem_of_app; tauto). exact IH.
Qed.

Lemma filter_filter_app2 (S1 S2 : list nat) (l : list (nat * nat)) :
  filter (fun e => (fst e ∉ S2) /\ (snd e ∉ S2))
         (filter (fun e => (fst e ∉ S1) /\ (snd e ∉ S1)) l)
  = filter (fun e => (fst e ∉ (S1 ++ S2)) /\ (snd e ∉ (S1 ++ S2))) l.
Proof.
  induction l as [|a l IH]; [reflexivity|].
  rewrite !filter_cons.
  destruct (decide ((fst a ∉ S1) /\ (snd a ∉ S1))) as [H1|H1].
  - rewrite filter_cons. destruct (decide ((fst a ∉ S2) /\ (snd a ∉ S2))) as [H2|H2].
    + rewrite decide_True by (rewrite !elem_of_app; tauto). rewrite IH. reflexivity.
    + rewrite decide_False by (rewrite !elem_of_app; tauto). exact IH.
  - rewrite decide_False by (rewrite !elem_of_app; tauto). exact IH.
Qed.

Lemma filter_iff_in {A} (P Q : A -> Prop) `{!forall x, Decision (P x)}
    `{!forall x, Decision (Q x)} (l : list A) :
  (forall x, x ∈ l -> P x <-> Q x) -> filter P l = filter Q l.
Proof.
  induction l as [|a l IH]; intros Hall; [reflexivity|].
  rewrite !filter_cons.
  assert (Ha : P a <-> Q a) by (apply Hall; left).
  assert (Hl : filter P l = filter Q l)
    by (apply IH; intros; apply Hall; right; assumption).
  destruct (decide (P a)), (decide (Q a)); try tauto; rewrite Hl; reflexivity.
Qed.

Lemma map_fst_filter {A} (P : nat -> Prop) `{!forall x, Decision (P x)}
    (l : list (nat * A)) :
  map fst (filter (fun np => P (fst np)) l) = filter P (map fst l).
Proof.
  induction l as [|a l IH]; [reflexivity|]. simpl.
  rewrite !filter_cons. destruct (decide (P (fst a))); simpl; congruence.
Qed.

End FilterFacts.

(** ** Stitcher: the closest pair *)

Section StitchPairs.
Import Stitch.

Lemma argmin_from_min l : forall i best d j,
  argmin_from i best l = (d, j) ->
  d <= fst best /\ forall x, x ∈ l -> d <= x.
Proof.
  induction l as [|y l IH]; intros i best d j H; simpl in H.
  - subst best. split; [simpl; lia|]. intros x Hx. inversion Hx.
  - apply IH in H as [Hb Hl]. destruct (Z.ltb_spec y (fst best)); simpl in Hb.
    + split; [lia|]. intros x [->|Hx]%elem_of_cons; [lia|auto].
    + split; [lia|]. intros x [->|Hx]%elem_of_cons; [lia|auto].
Qed.

Lemma argmin_min l d j x : argmin l = Some (d, j) -> x ∈ l -> d <= x.
Proof.
  destruct l as [|y l]; [discriminate|]. simpl. intros [= H] Hx.
  apply argmin_from_min in H as [Hb Hl]. simpl in Hb.
  apply elem_of_cons in Hx as [->|Hx]; [lia|auto].
Qed.

Lemma ixs_of_elem sv_id_arr sv i :
  i ∈ ixs_of sv_id_arr sv <-> sv_id_arr !! i = Some sv.
Proof.
  unfold ixs_of. rewrite list_elem_of_filter, elem_of_seq. split; [tauto|].
  intros H. split; [exact H|]. apply lookup_lt_Some in H. lia.
Qed.

Lemma nth_elem_of {A} (l : list A) i d : (i < length l)%nat -> nth i l d ∈ l.
Proof. intros H. apply list_elem_of_In, nth_In, H. Qed.

Lemma elem_of_nth {A} (l : list A) x d :
  x ∈ l -> exists i, (i < length l)%nat /\ nth i l d = x.
Proof. intros H%list_elem_of_In. apply (In_nth l x d) in H. exact H. Qed.

(** What [closest_pair] hands back: a node of each supervoxel, at the
    smallest distance that a node of the one has to a node of the other. *)
Lemma closest_pair_spec nodes sv_id_arr scaling e1 e2 c :
  closest_pair nodes sv_id_arr scaling e1 e2 = Some c ->
  sv_id_arr !! ix1 c = Some e1 /\ sv_id_arr !! ix2 c = Some e2
  /\ node_dist_check2 c
     = sqdist scaling (nth (ix1 c) nodes (0, 0, 0)) (nth (ix2 c) nodes (0, 0, 0))
  /\ forall j1 j2, sv_id_arr !! j1 = Some e1 -> sv_id_arr !! j2 = Some e2 ->
       min_dists2 c
       <= sqdist scaling (nth j1 nodes (0, 0, 0)) (nth j2 nodes (0, 0, 0)).
Proof.
  unfold closest_pair.
  destruct ((length (nodes_of nodes sv_id_arr e1) =? 0)
            || (length (nodes_of nodes sv_id_arr e2) =? 0))%nat eqn:Hlen;
    [discriminate|].
  apply orb_false_iff in Hlen as [H1 H2].
  apply Nat.eqb_neq in H1, H2.
  set (nodes1 := nodes_of nodes sv_id_arr e1) in *.
  set (nodes2 := nodes_of nodes sv_id_arr e2) in *.
  set (res := map (fun q => default (0, 0%nat) (query scaling nodes1 q)) nodes2).
  destruct (argmin (map fst res)) as [[dmin j]|] eqn:Hmin; [|discriminate].
  intros [= <-]. simpl.
  pose proof (argmin_spec _ _ _ Hmin) as [Hj Hd].
  rewrite length_map in Hj. unfold res in Hj. rewrite length_map in Hj.
  assert (Hj2 : (j < length (ixs_of sv_id_arr e2))%nat).
  { unfold nodes2, nodes_of in Hj. rewrite length_map in Hj. exact Hj. }
  assert (Hres : nth j res (0, 0%nat)
                 = default (0, 0%nat) (query scaling nodes1 (nth j nodes2 (0, 0, 0)))).
  { unfold res.
    rewrite (nth_indep _ _ (default (0, 0%nat) (query scaling nodes1 (0, 0, 0))))
      by (rewrite length_map; exact Hj).
    apply (map_nth (fun q => default (0, 0%nat) (query scaling nodes1 q))). }
  rewrite Hres. unfold query.
  destruct (argmin (map (fun p => sqdist scaling p (nth j nodes2 (0, 0, 0))) nodes1))
    as [[d i]|] eqn:Hq.
  2:{ destruct nodes1; [simpl in H1; congruence|discriminate]. }
  pose proof (argmin_spec _ _ _ Hq) as [Hi _]. rewrite length_map in Hi. simpl.
  assert (Hi1 : (i < length (ixs_of sv_id_arr e1))%nat).
  { unfold nodes1, nodes_of in Hi. rewrite length_map in Hi. exact Hi. }
  split; [apply ixs_of_elem, nth_elem_of, Hi1|].
  split; [apply ixs_of_elem, nth_elem_of, Hj2|].
  split; [reflexivity|].
  intros j1 j2 Hj1 Hj2'.
  apply ixs_of_elem in Hj1, Hj2'.
  set (p1 := nth j1 nodes (0, 0, 0)). set (p2 := nth j2 nodes (0, 0, 0)).
  assert (Hp1 : p1 ∈ nodes1).
  { unfold nodes1, nodes_of. apply list_elem_of_fmap. exists j1. auto. }
  assert (Hp2 : p2 ∈ nodes2).
  { unfold nodes2, nodes_of. apply list_elem_of_fmap. exists j2. auto. }
  destruct (argmin (map (fun p => sqdist scaling p p2) nodes1)) as [[d2 i2]|] eqn:Hq2.
  2:{ destruct nodes1; [simpl in H1; congruence|discriminate]. }
  assert (Hd2 : d2 <= sqdist scaling p1 p2).
  { eapply argmin_min; [exact Hq2|].
    apply list_elem_of_fmap. exists p1. auto. }
  assert (Hdm : dmin <= d2).
  { eapply argmin_min; [exact Hmin|].
    apply list_elem_of_fmap. exists (d2, i2). split; [reflexivity|].
    unfold res. apply list_elem_of_fmap. exists p2. split; [|exact Hp2].
    unfold query. rewrite Hq2. reflexivity. }
  lia.
Qed.

(** A bridging edge of [from_sso_to_netkx_fast] joins a node of the first
    supervoxel to a node of the second one; no node of the one lies nearer
    to a node of the other than these two; and their distance does not
    exceed [max_edge_length]. *)
Theorem bridge_joins_closest_nodes (nodes : list Pos) (sv_id_arr : list nat)
    (scaling : Pos) (max_edge_length : Z) (e1 e2 i1 i2 : nat) :
  bridge nodes sv_id_arr scaling max_edge_length e1 e2 = Some (i1, i2) ->
  sv_id_arr !! i1 = Some e1 /\ sv_id_arr !! i2 = Some e2
  /\ (forall j1 j2, sv_id_arr !! j1 = Some e1 -> sv_id_arr !! j2 = Some e2 ->
        sqdist scaling (nth i1 nodes (0, 0, 0)) (nth i2 nodes (0, 0, 0))
        <= sqdist scaling (nth j1 nodes (0, 0, 0)) (nth j2 nodes (0, 0, 0)))
  /\ norm_gt (sqdist scaling (nth i1 nodes (0, 0, 0)) (nth i2 nodes (0, 0, 0)))
             max_edge_length = false.
Proof.
  intros H. apply bridge_added_exact in H as (c & Hc & [= -> ->] & Hn).
  pose proof (closest_pair_exact _ _ _ _ _ _ Hc) as Hex.
  destruct (closest_pair_spec _ _ _ _ _ _ Hc) as (H1 & H2 & Hd & Hmin).
  split; [exact H1|]. split; [exact H2|]. rewrite <- Hd. split; [|exact Hn].
  rewrite <- Hex. exact Hmin.
Qed.

Lemma bridge_joins_closest_nodes_witness :
  let nodes := [(0, 0, 0); (30, 0, 0); (40, 0, 0); (100, 0, 0)] in
  let sv_id_arr := [7%nat; 7%nat; 9%nat; 9%nat] in
  sv_id_arr !! 1%nat = Some 7%nat /\ sv_id_arr !! 2%nat = Some 9%nat
  /\ (forall j1 j2, sv_id_arr !! j1 = Some 7%nat -> sv_id_arr !! j2 = Some 9%nat ->
        sqdist (10, 10, 20) (nth 1 nodes (0, 0, 0)) (nth 2 nodes (0, 0, 0))
        <= sqdist (10, 10, 20) (nth j1 nodes (0, 0, 0)) (nth j2 nodes (0, 0, 0)))
  /\ norm_gt (sqdist (10, 10, 20) (nth 1 nodes (0, 0, 0)) (nth 2 nodes (0, 0, 0)))
             1500 = false.
Proof.
  apply (bridge_joins_closest_nodes
           [(0, 0, 0); (30, 0, 0); (40, 0, 0); (100, 0, 0)]
           [7%nat; 7%nat; 9%nat; 9%nat] (10, 10, 20) 1500 7 9 1 2).
  reflexivity.
Defined.

End StitchPairs.

(** ** Pruner: what is left of the graph *)

Section PrunerInvariants.
Import NX Pruner.

(** Removing the nodes [S] from a graph. *)
Lemma remove_nodes_without ns : forall (g g' : Graph Pos),
  remove_nodes g ns = Ok g' ->
  nodes g' = filter (fun np => fst np ∉ ns) (nodes g)
  /\ edges g' = filter (fun e => (fst e ∉ ns) /\ (snd e ∉ ns)) (edges g).
Proof.
  induction ns as [|n ns IH]; intros g g' H; simpl in H.
  - injection H as <-. split.
    + induction (nodes g) as [|a l IHl]; [reflexivity|].
      rewrite filter_cons, decide_True by (intros Hn; inversion Hn).
      f_equal. exact IHl.
    + induction (edges g) as [|a l IHl]; [reflexivity|].
      rewrite filter_cons, decide_True by (split; intros Hn; inversion Hn).
      f_equal. exact IHl.
  - apply bind_Ok in H as (g1 & Hrm & Hrest). unfold remove_node_checked in Hrm.
    destruct (bool_decide (n ∈ node_ids g)); [|discriminate].
    injection Hrm as <-. destruct (IH _ _ Hrest) as [Hn He].
    rewrite Hn, He. unfold remove_node. simpl. split.
    + rewrite <- (filter_filter_app fst [n] ns). f_equal.
      apply filter_iff_in. intros x _. rewrite list_elem_of_singleton. tauto.
    + rewrite <- (filter_filter_app2 [n] ns). f_equal.
      apply filter_iff_in. intros x _. rewrite !list_elem_of_singleton. tauto.
Qed.

Lemma prune_ends_without (nx_g : Graph Pos) scal len_thres ends :
  forall new_g new_g',
    prune_ends nx_g scal len_thres new_g ends = Ok new_g' ->
    exists S : list nat,
      nodes new_g' = filter (fun np => fst np ∉ S) (nodes new_g)
      /\ edges new_g' = filter (fun e => (fst e ∉ S) /\ (snd e ∉ S)) (edges new_g).
Proof.
  induction ends as [|e ends IH]; intros new_g new_g' H; simpl in H.
  - injection H as <-. exists []. apply (remove_nodes_without [] new_g new_g). reflexivity.
  - apply bind_Ok in H as (st & Hst & H).
    apply bind_Ok in H as (g1 & Hg1 & Hrest).
    destruct (IH _ _ Hrest) as (S2 & Hn2 & He2).
    assert (H1 : exists S1, remove_nodes new_g S1 = Ok g1).
    { destruct st as [ns|]; [eauto|]. exists []. exact Hg1. }
    destruct H1 as [S1 H1]. apply remove_nodes_without in H1 as [Hn1 He1].
    exists (S1 ++ S2). rewrite Hn2, He2, Hn1, He1.
    split; [apply (filter_filter_app fst)|apply filter_filter_app2].
Qed.

Lemma prune_passes_without scal len_thres (g g' : Graph Pos) :
  rtc (fun a b => prune_pass scal len_thres a = Ok b) g g' ->
  exists S : list nat,
    nodes g' = filter (fun np => fst np ∉ S) (nodes g)
    /\ edges g' = filter (fun e => (fst e ∉ S) /\ (snd e ∉ S)) (edges g).
Proof.
  induction 1 as [g|g g1 g' Hpass _ (S2 & Hn2 & He2)].
  - exists []. apply (remove_nodes_without [] g g). reflexivity.
  - apply prune_ends_without in Hpass as (S1 & Hn1 & He1).
    exists (S1 ++ S2). rewrite Hn2, He2, Hn1, He1.
    split; [apply (filter_filter_app fst)|apply filter_filter_app2].
Qed.

Lemma without_wf {A} (g g' : Graph A) (S : list nat) :
  wf_graph g = true ->
  nodes g' = filter (fun np => fst np ∉ S) (nodes g) ->
  edges g' = filter (fun e => (fst e ∉ S) /\ (snd e ∉ S)) (edges g) ->
  wf_graph g' = true
  /\ forall x, x ∈ node_ids g' <-> x ∈ node_ids g /\ (x ∉ S).
Proof.
  intros [Hnd Hed]%wf_graph_spec Hn He.
  assert (Hids : forall x, x ∈ node_ids g' <-> x ∈ node_ids g /\ (x ∉ S)).
  { intros x. unfold node_ids. rewrite Hn, !list_elem_of_fmap. split.
    - intros (np & -> & [Hs Hin]%list_elem_of_filter). eauto.
    - intros [(np & -> & Hin) Hs]. exists np. split; [reflexivity|].
      apply list_elem_of_filter. auto. }
  split; [|exact Hids]. apply wf_graph_intro.
  - unfold node_ids. rewrite Hn. clear -Hnd. unfold node_ids in Hnd.
    induction (nodes g) as [|a l IH]; [constructor|].
    simpl in Hnd. apply NoDup_cons in Hnd as [Ha Hl].
    rewrite filter_cons. destruct (decide (fst a ∉ S)); [|auto].
    simpl. apply NoDup_cons. split; [|auto].
    rewrite list_elem_of_fmap. intros (np & Hf & [_ Hin]%list_elem_of_filter).
    apply Ha. rewrite list_elem_of_fmap. eauto.
  - intros e. rewrite He. intros [[H1 H2] Hin]%list_elem_of_filter.
    destruct (Hed e Hin). rewrite !Hids. auto.
Qed.

Lemma pruned_induced (scal : Pos) (len_thres : Z)
    (g g' : Graph Pos) :
  wf_graph g = true ->
  pruned scal len_thres g = Ok g' ->
  nodes g' = filter (fun np => fst np ∈ node_ids g') (nodes g)
  /\ edges g'
     = filter (fun e => fst e ∈ node_ids g' /\ snd e ∈ node_ids g') (edges g)
  /\ wf_graph g' = true.
Proof.
  intros Hwf Hrun. unfold pruned in Hrun.
  destruct (prune_loop_spec _ _ _ _ _ Hrun) as [Hrtc _].
  destruct (prune_passes_without _ _ _ _ Hrtc) as (S & Hn & He).
  destruct (without_wf g g' S Hwf Hn He) as [Hwf' Hids].
  destruct (wf_graph_spec _ Hwf) as [_ Hed].
  split; [|split; [|exact Hwf']].
  - rewrite Hn. apply filter_iff_in. intros np Hin. rewrite Hids.
    split; [|tauto]. intros Hs. split; [|exact Hs].
    apply list_elem_of_fmap. eauto.
  - rewrite He. apply filter_iff_in. intros e Hin. rewrite !Hids.
    destruct (Hed e Hin). tauto.
Qed.

(** Pruning only takes nodes away: what [prune_stub_branches] leaves
    before the spanning tree is taken is the input graph restricted to the
    nodes that are left.  The nodes keep their order and positions, every
    edge between two of them is kept, and no edge is added. *)
Theorem pruned_is_induced_subgraph (scal : Pos) (len_thres : Z)
    (g g' : Graph Pos) :
  wf_graph g = true ->
  pruned scal len_thres g = Ok g' ->
  nodes g' = filter (fun np => fst np ∈ node_ids g') (nodes g)
  /\ edges g'
     = filter (fun e => fst e ∈ node_ids g' /\ snd e ∈ node_ids g') (edges g)
  /\ wf_graph g' = true.
Proof. apply pruned_induced. Qed.

Lemma pruned_is_induced_subgraph_witness :
  nodes Examples.pruned_winding
  = filter (fun np => fst np ∈ node_ids Examples.pruned_winding)
           (nodes Examples.winding)
  /\ edges Examples.pruned_winding
     = filter (fun e => fst e ∈ node_ids Examples.pruned_winding
                        /\ snd e ∈ node_ids Examples.pruned_winding)
              (edges Examples.winding)
  /\ wf_graph Examples.pruned_winding = true.
Proof.
  apply (pruned_is_induced_subgraph (1, 1, 1) 10 Examples.winding
           Examples.pruned_winding); vm_compute; reflexivity.
Defined.

(** Pruning is idempotent: the graph that the pruning loop leaves is left
    as it is by the loop, which the first round finds complete. *)
Theorem pruned_fixed_point (scal : Pos) (len_thres : Z) (g g' : Graph Pos) :
  pruned scal len_thres g = Ok g' ->
  prune_pass scal len_thres g' = Ok g'
  /\ pruned scal len_thres g' = Ok g'.
Proof.
  intros Hrun. unfold pruned in Hrun.
  destruct (prune_loop_spec _ _ _ _ _ Hrun) as [_ Hfix].
  split; [exact Hfix|]. unfold pruned. simpl. rewrite Hfix. simpl.
  rewrite Nat.eqb_refl. reflexivity.
Qed.

Lemma pruned_fixed_point_witness :
  prune_pass (1, 1, 1) 10 Examples.pruned_winding = Ok Examples.pruned_winding
  /\ pruned (1, 1, 1) 10 Examples.pruned_winding = Ok Examples.pruned_winding.
Proof.
  apply (pruned_fixed_point (1, 1, 1) 10 Examples.winding).
  vm_compute. reflexivity.
Defined.

(** [prune_stub_branches] as [create_sso_skeleton_fast] calls it, without
    an [sso]: when the pruned graph is one component, the call returns a
    spanning tree of it (one edge less than nodes, all nodes connected, every
    edge an edge of the input); when it is not, the warning that formats
    [sso.id] ends the call in [AttributeError]. *)
Theorem prune_stub_branches_spanning_tree
    (stitch_skel_nx : Graph Pos -> Graph Pos) (scal : Pos) (len_thres : Z)
    (g g' : Graph Pos) :
  wf_graph g = true ->
  pruned scal len_thres g = Ok g' ->
  (number_connected_components g' = 1%nat ->
   exists t,
     prune_stub_branches stitch_skel_nx None g scal len_thres = Ok t
     /\ nodes t = nodes g'
     /\ length (nodes t) = S (length (edges t))
     /\ (forall x y, x ∈ node_ids t -> y ∈ node_ids t -> connected (edges t) x y)
     /\ (forall e, e ∈ edges t -> e ∈ edges g))
  /\ (number_connected_components g' <> 1%nat ->
      prune_stub_branches stitch_skel_nx None g scal len_thres
      = Raise AttributeError).
Proof.
  intros Hwf Hrun.
  destruct (pruned_induced _ _ _ _ Hwf Hrun) as (_ & He & Hwf').
  split.
  - intros Hcc. exists (minimum_spanning_tree scal g').
    unfold prune_stub_branches. rewrite Hrun. simpl. rewrite Hcc. simpl.
    split; [reflexivity|]. split; [reflexivity|].
    destruct (one_component_connected _ Hcc) as [Hne Hconn].
    assert (Hconn' : forall x y, x ∈ node_ids g' -> y ∈ node_ids g' ->
              connected (edges (minimum_spanning_tree scal g')) x y).
    { intros x y Hx Hy. apply mst_connected. auto. }
    split; [|split; [exact Hconn'|]].
    + apply (mst_edge_count scal g' Hwf').
      apply connected_one_component; [apply mst_wf, Hwf'|exact Hne|exact Hconn'].
    + intros e Hin%mst_edges_subset. rewrite He in Hin.
      apply list_elem_of_filter in Hin as [_ Hin]. exact Hin.
  - intros Hcc. eapply prune_stub_branches_without_sso; eauto.
Qed.

Lemma prune_stub_branches_spanning_tree_witness :
  (number_connected_components Examples.pruned_winding = 1%nat ->
   exists t,
     prune_stub_branches (fun g => g) None Examples.winding (1, 1, 1) 10 = Ok t
     /\ nodes t = nodes Examples.pruned_winding
     /\ length (nodes t) = S (length (edges t))
     /\ (forall x y, x ∈ node_ids t -> y ∈ node_ids t -> connected (edges t) x y)
     /\ (forall e, e ∈ edges t -> e ∈ edges Examples.winding))
  /\ (number_connected_components Examples.pruned_winding <> 1%nat ->
      prune_stub_branches (fun g => g) None Examples.winding (1, 1, 1) 10
      = Raise AttributeError).
Proof.
  apply (prune_stub_branches_spanning_tree (fun g => g) (1, 1, 1) 10
           Examples.winding Examples.pruned_winding); vm_compute; reflexivity.
Defined.

End PrunerInvariants.

(** ** Array form of a skeleton: the renumbering *)

Section SkelRelabel.
Import NX Skel.

Lemma strict_sorted_lookup_lt (l : list nat) : StronglySorted lt l ->
  forall i j a b, l !! i = Some a -> l !! j = Some b -> (i < j)%nat -> (a < b)%nat.
Proof.
  induction 1 as [|x l Hl IH Hx]; intros i j a b Hi Hj Hij.
  - rewrite lookup_nil in Hi. discriminate.
  - destruct j as [|j]; [lia|]. simpl in Hj. destruct i as [|i]; simpl in Hi.
    + injection Hi as <-. rewrite Forall_forall in Hx. apply Hx.
      eapply list_elem_of_lookup_2, Hj.
    + eapply IH; eauto. lia.
Qed.

Lemma temp_edges_dict_lookup {A} (g : Graph A) u :
  u ∈ flatten_edges (edges g) ->
  exists i, np_unique (np_sort (flatten_edges (edges g))) !! i = Some u
    /\ temp_edges_dict g !! u = Some i.
Proof.
  intros Hu. apply np_sort_elem, np_unique_elem in Hu.
  apply list_elem_of_lookup_1 in Hu as [i Hi]. exists i. split; [exact Hi|].
  unfold temp_edges_dict.
  rewrite (enumerate_dict_lookup _ 0 ∅ i u); [reflexivity| |exact Hi].
  apply strict_sorted_NoDup, np_unique_strict.
Qed.

(** The edge array that [from_netkx_to_arr] and [from_netkx_to_sso] build
    is the edge list of the graph under a renumbering of the end points.
    The renumbering is strictly increasing (so two end points never share a
    number), and its values are below the number of nodes: an edge of the
    array never points outside the node array. *)
Theorem rebuilt_edges_renumbered (g : Graph Pos) :
  wf_graph g = true ->
  exists f : nat -> nat,
    sk_edges (from_netkx_to_arr g) = map (fun e => (f (fst e), f (snd e))) (edges g)
    /\ (forall u, u ∈ flatten_edges (edges g) ->
          (f u < length (sk_nodes (from_netkx_to_arr g)))%nat)
    /\ (forall u v, u ∈ flatten_edges (edges g) -> v ∈ flatten_edges (edges g) ->
          (u < v)%nat -> (f u < f v)%nat).
Proof.
  intros [Hnd Hed]%wf_graph_spec.
  exists (fun u => default 0%nat (temp_edges_dict g !! u)).
  split; [reflexivity|]. split.
  - intros u Hu. destruct (temp_edges_dict_lookup g u Hu) as (i & Hi & ->). simpl.
    apply lookup_lt_Some in Hi. rewrite length_map.
    assert (Hsub : np_unique (np_sort (flatten_edges (edges g))) ⊆+ node_ids g).
    { apply NoDup_submseteq; [apply strict_sorted_NoDup, np_unique_strict|].
      intros x Hx. rewrite np_unique_elem, np_sort_elem in Hx.
      apply flatten_edges_elem in Hx as (e & He & [->| ->]); apply Hed, He. }
    apply submseteq_length in Hsub. unfold node_ids in Hsub.
    rewrite length_map in Hsub. lia.
  - intros u v Hu Hv Huv.
    destruct (temp_edges_dict_lookup g u Hu) as (i & Hi & ->).
    destruct (temp_edges_dict_lookup g v Hv) as (j & Hj & ->). simpl.
    pose proof (np_unique_strict (np_sort (flatten_edges (edges g)))) as Hs.
    destruct (Nat.lt_trichotomy i j) as [Hlt|[->|Hgt]]; [exact Hlt| |].
    + rewrite Hi in Hj. injection Hj as ->. lia.
    + pose proof (strict_sorted_lookup_lt _ Hs _ _ _ _ Hj Hi Hgt). lia.
Qed.

Lemma rebuilt_edges_renumbered_witness :
  exists f : nat -> nat,
    sk_edges (from_netkx_to_arr Examples.isolated3)
    = map (fun e => (f (fst e), f (snd e))) (edges Examples.isolated3)
    /\ (forall u, u ∈ flatten_edges (edges Examples.isolated3) ->
          (f u < length (sk_nodes (from_netkx_to_arr Examples.isolated3)))%nat)
    /\ (forall u v, u ∈ flatten_edges (edges Examples.isolated3) ->
          v ∈ flatten_edges (edges Examples.isolated3) ->
          (u < v)%nat -> (f u < f v)%nat).
Proof.
  apply (rebuilt_edges_renumbered Examples.isolated3). vm_compute. reflexivity.
Defined.

(** Canonicalization yields a skeleton exactly for the graphs that are one
    connected component (at least one node, and a chain of edges between any
    two nodes); on every other graph the assertion of [from_netkx_to_sso]
    fails. *)
Theorem canonicalize_iff_connected (scal : Pos) (g : Graph Pos) :
  wf_graph g = true ->
  let one_component :=
    node_ids g <> []
    /\ forall x y, x ∈ node_ids g -> y ∈ node_ids g -> connected (edges g) x y in
  (one_component -> exists sk, canonicalize scal g = inr sk)
  /\ (~ one_component -> canonicalize scal g = inl AssertionError).
Proof.
  intros Hwf one_component.
  destruct (canonicalize_total scal g Hwf) as [Hyes Hno]. split.
  - intros [Hne Hconn]. apply Hyes, connected_one_component; assumption.
  - intros Hnot. apply Hno. intros Hcc. apply Hnot.
    apply one_component_connected, Hcc.
Qed.

Lemma canonicalize_iff_connected_witness :
  let one_component :=
    node_ids Examples.isolated3 <> []
    /\ forall x y, x ∈ node_ids Examples.isolated3 ->
         y ∈ node_ids Examples.isolated3 ->
         connected (edges Examples.isolated3) x y in
  (one_component ->
   exists sk, canonicalize (10, 10, 20) Examples.isolated3 = inr sk)
  /\ (~ one_component ->
      canonicalize (10, 10, 20) Examples.isolated3 = inl AssertionError).
Proof.
  apply (canonicalize_iff_connected (10, 10, 20) Examples.isolated3).
  vm_compute. reflexivity.
Defined.

End SkelRelabel.

(** ** Window Aggregator: the calls that succeed *)

Section WindowSuccess.
Import Window.
Local Open Scope Q_scope.

Lemma Qltb_false a b : Qltb a b = false <-> b <= a.
Proof. unfold Qltb. rewrite negb_false_iff. apply Qle_bool_iff. Qed.

Lemma entry_leb_key x m : entry_leb x m = true -> fst (fst x) <= fst (fst m).
Proof.
  destruct x as [[d c] v], m as [[d' c'] v']. simpl.
  intros [H|[H _]%andb_true_iff]%orb_true_iff.
  - destruct (Qle_bool d d') eqn:Hle; [apply Qle_bool_iff, Hle|].
    unfold Qltb in H. apply negb_true_iff in H.
    apply Qlt_le_weak, Qnot_le_lt. intros Hc. apply Qle_bool_iff in Hc. congruence.
  - apply Qle_bool_iff, H.
Qed.

Lemma entry_leb_key_false x m : entry_leb x m = false -> fst (fst m) <= fst (fst x).
Proof.
  destruct x as [[d c] v], m as [[d' c'] v']. simpl.
  intros [H _]%orb_false_iff. apply Qltb_false, H.
Qed.

(** [heappop] takes an entry of the heap of the smallest distance. *)
Lemma pop_min_spec l : forall m rest,
  pop_min l = Some (m, rest) ->
  (forall y, y ∈ l <-> y = m \/ y ∈ rest)
  /\ forall y, y ∈ rest -> fst (fst m) <= fst (fst y).
Proof.
  induction l as [|x l IH]; intros m rest H; [discriminate|].
  simpl in H. destruct (pop_min l) as [[m' rest']|] eqn:Hp.
  - destruct (IH _ _ eq_refl) as [Hel Hmin].
    destruct (entry_leb x m') eqn:Hleb; injection H as <- <-.
    + split; [intros y; apply elem_of_cons|].
      intros y [->|Hy]%Hel.
      * apply entry_leb_key, Hleb.
      * eapply Qle_trans; [apply entry_leb_key, Hleb|apply Hmin, Hy].
    + split.
      * intros y. rewrite !elem_of_cons, Hel. tauto.
      * intros y [->|Hy]%elem_of_cons; [apply entry_leb_key_false, Hleb|auto].
  - injection H as <- <-. destruct l as [|y l].
    + split; [intros y; apply elem_of_cons|]. intros y Hy. inversion Hy.
    + simpl in Hp. destruct (pop_min l) as [[? ?]|]; [|discriminate].
      destruct (entry_leb _ _); discriminate.
Qed.

Lemma adj_ends g v u w :
  (u, w) ∈ adj g v -> exists a b, (a, b, w) ∈ wedges g /\ (u = a \/ u = b).
Proof.
  unfold adj. rewrite list_elem_of_In, in_flat_map.
  intros ([[a b] w'] & He & Hin). rewrite <- list_elem_of_In in He.
  destruct (a =? v)%nat; [|destruct (b =? v)%nat]; simpl in Hin;
    try destruct Hin as [[= <- <-]|[]]; try contradiction; eauto 6.
Qed.

(** No finalised node lies farther than [dv]: the relaxation of an edge of
    weight at least 0 finds no contradictory path. *)
Lemma relax_nonneg cutoff dv st u cost :
  (forall x dx, dist st !! x = Some dx -> dx <= dv) -> 0 <= cost ->
  exists st', relax cutoff dv st (u, cost) = inr st'
    /\ dist st' = dist st
    /\ (forall y, y ∈ fringe st' -> y ∈ fringe st \/ dv <= fst (fst y))
    /\ (forall k, k ∈ path_keys st -> k ∈ path_keys st')
    /\ (forall k, k ∈ path_keys st' -> k ∈ path_keys st \/ k = u).
Proof.
  intros Hfin Hcost. unfold relax.
  assert (Hsame : exists st', inr (A := error) st = inr st'
    /\ dist st' = dist st
    /\ (forall y, y ∈ fringe st' -> y ∈ fringe st \/ dv <= fst (fst y))
    /\ (forall k, k ∈ path_keys st -> k ∈ path_keys st')
    /\ (forall k, k ∈ path_keys st' -> k ∈ path_keys st \/ k = u)).
  { exists st. auto 10. }
  assert (Hge : dv <= dv + cost).
  { rewrite <- (Qplus_0_r dv) at 1. apply Qplus_le_r, Hcost. }
  destruct (Qltb cutoff (dv + cost)); [exact Hsame|].
  destruct (dist st !! u) as [u_dist|] eqn:Hu.
  { assert (Hno : Qltb (dv + cost) u_dist = false).
    { apply Qltb_false. eapply Qle_trans; [apply (Hfin u), Hu|exact Hge]. }
    rewrite Hno. exact Hsame. }
  assert (Hpush : exists st',
    inr (A := error)
      (mkDstate (dist st) (<[u := dv + cost]> (seen st))
         (fringe st ++ [(dv + cost, counter st, u)]) (S (counter st))
         (if bool_decide (u ∈ path_keys st) then path_keys st
          else path_keys st ++ [u])) = inr st'
    /\ dist st' = dist st
    /\ (forall y, y ∈ fringe st' -> y ∈ fringe st \/ dv <= fst (fst y))
    /\ (forall k, k ∈ path_keys st -> k ∈ path_keys st')
    /\ (forall k, k ∈ path_keys st' -> k ∈ path_keys st \/ k = u)).
  { eexists. split; [reflexivity|]. simpl. split; [reflexivity|]. split; [|split].
    - intros y [Hy|Hy]%elem_of_app; [auto|].
      apply list_elem_of_singleton in Hy as ->. right. exact Hge.
    - intros k Hk. destruct (bool_decide (u ∈ path_keys st)); [exact Hk|].
      apply elem_of_app. auto.
    - intros k Hk. destruct (bool_decide (u ∈ path_keys st)); [auto|].
      apply elem_of_app in Hk as [Hk|Hk]; [auto|].
      apply list_elem_of_singleton in Hk. auto. }
  destruct (seen st !! u); [|exact Hpush].
  destruct (Qltb _ _); [exact Hpush|exact Hsame].
Qed.

Lemma relax_all_nonneg cutoff dv l : forall st,
  (forall x dx, dist st !! x = Some dx -> dx <= dv) ->
  (forall u cost, (u, cost) ∈ l -> 0 <= cost) ->
  exists st', relax_all cutoff dv st l = inr st'
    /\ dist st' = dist st
    /\ (forall y, y ∈ fringe st' -> y ∈ fringe st \/ dv <= fst (fst y))
    /\ (forall k, k ∈ path_keys st -> k ∈ path_keys st')
    /\ (forall k, k ∈ path_keys st' ->
          k ∈ path_keys st \/ exists cost, (k, cost) ∈ l).
Proof.
  induction l as [|[u cost] l IH]; intros st Hfin Hcost; cbn [relax_all].
  - exists st. auto 10.
  - destruct (relax_nonneg cutoff dv st u cost Hfin) as (st1 & -> & Hd1 & Hf1 & Hk1 & Hk1').
    { apply (Hcost u). left. }
    destruct (IH st1) as (st' & Hr & Hd & Hf & Hk & Hk').
    { rewrite Hd1. exact Hfin. }
    { intros u' c' Hin. apply (Hcost u'). right. exact Hin. }
    exists st'. split; [exact Hr|]. split; [congruence|]. split; [|split].
    + intros y [Hy|Hy]%Hf; [|auto]. apply Hf1, Hy.
    + auto.
    + intros k [Hk0|[c Hc]]%Hk'.
      * apply Hk1' in Hk0 as [Hk0| ->]; [auto|]. right. exists cost. left.
      * right. exists c. right. exact Hc.
Qed.

(** On weights that are not negative the search raises nothing: when a
    node is finalised, no node finalised before lies farther. *)
Lemma dijkstra_loop_nonneg g cutoff :
  (forall a b w, (a, b, w) ∈ wedges g -> 0 <= w) ->
  forall fuel st r,
    (forall x dx y, dist st !! x = Some dx -> y ∈ fringe st -> dx <= fst (fst y)) ->
    dijkstra_loop fuel g cutoff st = Some r ->
    exists st', r = inr st'
      /\ (forall k, k ∈ path_keys st -> k ∈ path_keys st')
      /\ (forall k, k ∈ path_keys st' ->
            k ∈ path_keys st
            \/ exists a b w, (a, b, w) ∈ wedges g /\ (k = a \/ k = b)).
Proof.
  intros Hpos. induction fuel as [|fuel IH]; intros st r Hinv H; [discriminate|].
  simpl in H. destruct (pop_min (fringe st)) as [[[[d c] v] rest]|] eqn:Hp.
  2:{ injection H as <-. exists st. auto. }
  destruct (pop_min_spec _ _ _ Hp) as [Hel Hmin]. simpl in Hmin.
  destruct (dist st !! v) eqn:Hv.
  - apply IH in H; [exact H|]. simpl. intros x dx y Hx Hy.
    apply (Hinv x dx y Hx). apply Hel. auto.
  - set (st2 := mkDstate (<[v := d]> (dist st)) (seen st) rest (counter st)
                         (path_keys st)) in *.
    assert (Hfin2 : forall x dx, dist st2 !! x = Some dx -> dx <= d).
    { intros x dx. simpl. destruct (decide (v = x)) as [->|Hne].
      - rewrite lookup_insert_eq. intros [= <-]. apply Qle_refl.
      - rewrite lookup_insert_ne by exact Hne. intros Hx.
        apply (Hinv x dx (d, c, v) Hx). apply Hel. auto. }
    destruct (relax_all_nonneg cutoff d (adj g v) st2 Hfin2)
      as (st3 & Hr & Hd3 & Hf3 & Hk3 & Hk3').
    { intros u cost Hin. apply adj_ends in Hin as (a & b & Hin & _). eauto. }
    rewrite Hr in H. apply IH in H.
    + destruct H as (st' & -> & Hk & Hk'). exists st'. split; [reflexivity|].
      split; [intros k Hin; apply Hk, Hk3, Hin|].
      intros k [Hin|Hin]%Hk'; [|auto].
      apply Hk3' in Hin as [Hin|[cost Hin]]; [auto|].
      apply adj_ends in Hin as (a & b & Hin & Hab). right. eauto.
    + intros x dx y Hx Hy. rewrite Hd3 in Hx.
      apply Hf3 in Hy as [Hy|Hy].
      * simpl in Hy. simpl in Hx. destruct (decide (v = x)) as [->|Hne].
        -- rewrite lookup_insert_eq in Hx. injection Hx as <-. apply Hmin, Hy.
        -- rewrite lookup_insert_ne in Hx by exact Hne.
           apply (Hinv x dx y Hx). apply Hel. auto.
      * eapply Qle_trans; [apply (Hfin2 x), Hx|exact Hy].
Qed.

(** The window of a node on a skeleton whose weights are not negative: the
    search returns it, it holds the node, and besides the node only end
    points of edges. *)
Lemma dijkstra_path_keys_nonneg g n max_dist :
  (forall a b w, (a, b, w) ∈ wedges g -> 0 <= w) ->
  exists neighs,
    single_source_dijkstra_path_keys g n max_dist = Some (inr neighs)
    /\ n ∈ neighs
    /\ forall k, k ∈ neighs ->
         k = n \/ exists a b w, (a, b, w) ∈ wedges g /\ (k = a \/ k = b).
Proof.
  intros Hpos.
  destruct (single_source_dijkstra_path_keys_total g n max_dist) as [r Hr].
  unfold single_source_dijkstra_path_keys in *.
  destruct (dijkstra_loop _ _ _ _) as [r'|] eqn:Hloop; [|discriminate].
  apply (dijkstra_loop_nonneg g _ Hpos) in Hloop as (st' & -> & Hk & Hk').
  - exists (path_keys st'). split; [reflexivity|]. split.
    + apply Hk. simpl. left.
    + intros k [Hin|Hin]%Hk'; [|auto]. simpl in Hin.
      apply list_elem_of_singleton in Hin. auto.
  - simpl. intros x dx y Hx. rewrite lookup_empty in Hx. discriminate.
Qed.

Lemma take_ixs_in_range prop : forall neighs,
  (forall k, k ∈ neighs -> (k < length prop)%nat) ->
  exists vals, take_ixs prop neighs = inr vals
    /\ length vals = length neighs
    /\ forall c, c ∈ vals -> exists k, k ∈ neighs /\ prop !! k = Some c.
Proof.
  induction neighs as [|i l IH]; intros Hr; simpl.
  - exists []. split; [reflexivity|]. split; [reflexivity|].
    intros c Hc. inversion Hc.
  - destruct (lookup_lt_is_Some_2 prop i) as [x Hx]; [apply Hr; left|].
    rewrite Hx. destruct IH as (vals & -> & Hlen & Hin).
    { intros k Hk. apply Hr. right. exact Hk. }
    exists (x :: vals). split; [reflexivity|]. split; [simpl; congruence|].
    intros c [->|Hc]%elem_of_cons.
    + exists i. split; [left|exact Hx].
    + destruct (Hin c Hc) as (k & Hk & Hpk). exists k. split; [right|]; assumption.
Qed.

Lemma vote_all_in ns : forall g prop max_dist,
  (forall n, n ∈ ns -> exists c, vote_at g prop max_dist n = Some (inr c)) ->
  exists avg, vote_all g prop max_dist ns = Some (inr avg).
Proof.
  induction ns as [|n ns IH]; intros g prop max_dist H; simpl; [eauto|].
  destruct (H n) as [c ->]; [left|].
  destruct (IH g prop max_dist) as [avg ->]; [|eauto].
  intros m Hm. apply H. right. exact Hm.
Qed.

(** On a well-formed skeleton (every edge joins two of the nodes
    [0 .. number_of_nodes - 1] and has a weight that is not negative) and a
    property array with an entry for every node, the vote raises nothing
    and yields one value per node.  The value of node [n] is taken from a
    window [neighs] of nodes that holds [n] itself: it is the value of a node
    of the window, and no value occurs more often among the values of the
    window. *)
Theorem majorityvote_succeeds (g : WGraph) (skeleton : gmap string (list Z))
    (prop_key : string) (prop : list Z) (max_dist : Z) :
  (forall a b w, (a, b, w) ∈ wedges g ->
     (a < number_of_nodes g)%nat /\ (b < number_of_nodes g)%nat /\ 0 <= w) ->
  skeleton !! prop_key = Some prop ->
  (number_of_nodes g <= length prop)%nat ->
  exists avg_prop,
    majorityvote_skeleton_property g skeleton prop_key max_dist true
      = Some (inr (Some avg_prop), skeleton)
    /\ majorityvote_skeleton_property g skeleton prop_key max_dist false
      = Some (inr None, <[avg_key prop_key max_dist := avg_prop]> skeleton)
    /\ length avg_prop = number_of_nodes g
    /\ forall n c, avg_prop !! n = Some c ->
         exists neighs vals,
           single_source_dijkstra_path_keys g n max_dist = Some (inr neighs)
           /\ n ∈ neighs
           /\ take_ixs prop neighs = inr vals
           /\ (exists k, k ∈ neighs /\ prop !! k = Some c)
           /\ forall v, (length (filter (fun x => x = v) vals)
                         <= length (filter (fun x => x = c) vals))%nat.
Proof.
  intros Hwf Hkey Hlen.
  assert (Hpos : forall a b w, (a, b, w) ∈ wedges g -> 0 <= w).
  { intros a b w Hin. apply (Hwf a b w Hin). }
  assert (Hvote : forall n, (n < number_of_nodes g)%nat ->
    exists neighs vals c,
      single_source_dijkstra_path_keys g n max_dist = Some (inr neighs)
      /\ n ∈ neighs
      /\ take_ixs prop neighs = inr vals
      /\ (forall c', c' ∈ vals -> exists k, k ∈ neighs /\ prop !! k = Some c')
      /\ Np.majority vals = inr c).
  { intros n Hn.
    destruct (dijkstra_path_keys_nonneg g n max_dist Hpos) as (neighs & Hd & Hin & Hends).
    destruct (take_ixs_in_range prop neighs) as (vals & Ht & Hl & Hv).
    { intros k [->|(a & b & w & He & [->| ->])]%Hends;
        [lia|destruct (Hwf _ _ _ He) as (? & ? & _); lia..]. }
    destruct (majority_nonempty vals) as [c Hc].
    { intros ->. destruct neighs; [inversion Hin|discriminate]. }
    exists neighs, vals, c. auto. }
  assert (Hall : exists avg,
    vote_all g prop max_dist (seq 0 (number_of_nodes g)) = Some (inr avg)).
  { apply vote_all_in. intros n [_ Hn]%elem_of_seq.
    destruct (Hvote n) as (neighs & vals & c & Hd & _ & Ht & _ & Hc); [lia|].
    exists c. unfold vote_at. rewrite Hd, Ht. f_equal. exact Hc. }
  destruct Hall as [avg Havg]. exists avg.
  unfold majorityvote_skeleton_property. rewrite Hkey, Havg.
  split; [reflexivity|]. split; [reflexivity|]. split.
  { rewrite (vote_all_length _ _ _ _ _ Havg). apply length_seq. }
  intros n c Hn.
  destruct (vote_all_lookup _ _ _ _ _ _ _ Havg Hn) as (m & Hm & Hvm).
  apply lookup_seq in Hm as [-> Hlt]. simpl in Hvm.
  destruct (Hvote n Hlt) as (neighs & vals & c' & Hd & Hin & Ht & Hv & Hc).
  unfold vote_at in Hvm. rewrite Hd, Ht, Hc in Hvm. injection Hvm as ->.
  apply majority_most_frequent in Hc as [Hcin Hmax].
  exists neighs, vals. auto 10.
Qed.

Lemma majorityvote_succeeds_witness :
  exists avg_prop,
    majorityvote_skeleton_property Examples.wpath3 Examples.myelin_skeleton
        "myelin" 6 true
      = Some (inr (Some avg_prop), Examples.myelin_skeleton)
    /\ majorityvote_skeleton_property Examples.wpath3 Examples.myelin_skeleton
        "myelin" 6 false
      = Some (inr None, <[avg_key "myelin" 6 := avg_prop]> Examples.myelin_skeleton)
    /\ length avg_prop = number_of_nodes Examples.wpath3
    /\ forall n c, avg_prop !! n = Some c ->
         exists neighs vals,
           single_source_dijkstra_path_keys Examples.wpath3 n 6 = Some (inr neighs)
           /\ n ∈ neighs
           /\ take_ixs [1; 0; 1]%Z neighs = inr vals
           /\ (exists k, k ∈ neighs /\ [1; 0; 1]%Z !! k = Some c)
           /\ forall v, (length (filter (fun x => x = v) vals)
                         <= length (filter (fun x => x = c) vals))%nat.
Proof.
  apply (majorityvote_succeeds Examples.wpath3 Examples.myelin_skeleton
           "myelin" [1; 0; 1]%Z 6).
  - intros a b w H.
    apply elem_of_cons in H as [[= -> -> ->]|H];
      [simpl; repeat split; [lia|lia|discriminate]|].
    apply elem_of_cons in H as [[= -> -> ->]|H];
      [simpl; repeat split; [lia|lia|discriminate]|].
    inversion H.
  - reflexivity.
  - simpl. lia.
Defined.

Lemma vote_all_raises g prop max_dist e : forall ns,
  (forall n, n ∈ ns ->
     (exists c, vote_at g prop max_dist n = Some (inr c))
     \/ vote_at g prop max_dist n = Some (inl e)) ->
  (exists n, n ∈ ns /\ vote_at g prop max_dist n = Some (inl e)) ->
  vote_all g prop max_dist ns = Some (inl e).
Proof.
  induction ns as [|n ns IH]; intros Hall (n0 & Hin & Hn0); [inversion Hin|].
  simpl. destruct (Hall n) as [[c Hc]|He]; [left| |rewrite He; reflexivity].
  rewrite Hc. rewrite IH; [reflexivity| |].
  - intros m Hm. apply Hall. right. exact Hm.
  - apply elem_of_cons in Hin as [->|Hin]; [congruence|]. eauto.
Qed.

Lemma take_ixs_error prop : forall neighs e,
  take_ixs prop neighs = inl e -> e = IndexError.
Proof.
  induction neighs as [|i l IH]; intros e H; simpl in H; [discriminate|].
  destruct (prop !! i); [|congruence].
  destruct (take_ixs prop l) as [e'|xs]; [|discriminate].
  injection H as <-. apply IH. reflexivity.
Qed.

Lemma take_ixs_out_of_range prop : forall neighs n,
  n ∈ neighs -> prop !! n = None -> take_ixs prop neighs = inl IndexError.
Proof.
  induction neighs as [|i l IH]; intros n Hin Hn; [inversion Hin|]. simpl.
  destruct (prop !! i) eqn:Hi.
  - apply elem_of_cons in Hin as [->|Hin]; [congruence|].
    rewrite (IH n Hin Hn). reflexivity.
  - reflexivity.
Qed.

(** A property array with fewer entries than the skeleton has nodes: on
    weights that are not negative the vote ends in [IndexError], at the
    latest at the first node without an entry (whose window holds the node
    itself), and the skeleton dictionary stays as it was. *)
Theorem majorityvote_short_array (g : WGraph) (skeleton : gmap string (list Z))
    (prop_key : string) (prop : list Z) (max_dist : Z) (return_res : bool) :
  (forall a b w, (a, b, w) ∈ wedges g -> 0 <= w) ->
  skeleton !! prop_key = Some prop ->
  (length prop < number_of_nodes g)%nat ->
  majorityvote_skeleton_property g skeleton prop_key max_dist return_res
    = Some (inl IndexError, skeleton).
Proof.
  intros Hpos Hkey Hlen. unfold majorityvote_skeleton_property. rewrite Hkey.
  rewrite (vote_all_raises g prop max_dist IndexError); [reflexivity| |].
  - intros n _. unfold vote_at.
    destruct (dijkstra_path_keys_nonneg g n max_dist Hpos) as (neighs & -> & Hin & _).
    destruct (take_ixs prop neighs) as [e|vals] eqn:Ht.
    + right. apply take_ixs_error in Ht as ->. reflexivity.
    + left. destruct (majority_nonempty vals) as [c Hc]; [|exists c; congruence].
      intros ->. destruct neighs as [|k l]; [inversion Hin|]. simpl in Ht.
      destruct (prop !! k); [|discriminate].
      destruct (take_ixs prop l); discriminate.
  - exists (length prop). split; [apply elem_of_seq; lia|].
    unfold vote_at.
    destruct (dijkstra_path_keys_nonneg g (length prop) max_dist Hpos)
      as (neighs & -> & Hin & _).
    rewrite (take_ixs_out_of_range prop neighs (length prop) Hin); [reflexivity|].
    apply lookup_ge_None. lia.
Qed.

Lemma majorityvote_short_array_witness :
  majorityvote_skeleton_property Examples.wpath3 {[ "myelin" := [1; 0]%Z ]}
      "myelin" 10000 true
    = Some (inl IndexError, {[ "myelin" := [1; 0]%Z ]}).
Proof.
  apply (majorityvote_short_array Examples.wpath3 {[ "myelin" := [1; 0]%Z ]}
           "myelin" [1; 0]%Z 10000 true).
  - intros a b w H.
    apply elem_of_cons in H as [[= _ _ ->]|H]; [discriminate|].
    apply elem_of_cons in H as [[= _ _ ->]|H]; [discriminate|].
    inversion H.
  - reflexivity.
  - simpl. lia.
Defined.

End WindowSuccess.

(** ** Windows of an annotation *)

Section AnnoWindows.
Import Anno.
Local Open Scope Q_scope.

Lemma collect_bfs_prefix norm anno m : forall es len,
  collect norm anno m len es `prefix_of` map snd es.
Proof.
  induction es as [|e es IH]; intros len; simpl; [reflexivity|].
  destruct (Window.Qltb m _); [apply prefix_nil|].
  apply prefix_cons, IH.
Qed.

Lemma collect_monotone norm anno m m' : m <= m' -> forall es len,
  collect norm anno m len es `prefix_of` collect norm anno m' len es.
Proof.
  intros Hm. induction es as [|e es IH]; intros len; simpl; [reflexivity|].
  destruct (Window.Qltb m _) eqn:H1; [apply prefix_nil|].
  destruct (Window.Qltb m' _) eqn:H2.
  - exfalso. unfold Window.Qltb in H1, H2.
    apply negb_false_iff, Qle_bool_iff in H1. apply negb_true_iff in H2.
    assert (Hle : Qle_bool
      (len + norm (vsub (getCoordinate_scaled anno (snd e))
                        (getCoordinate_scaled anno (fst e)))) m' = true).
    { apply Qle_bool_iff. eapply Qle_trans; [exact H1|exact Hm]. }
    congruence.
  - apply prefix_cons, IH.
Qed.

Lemma windows_of_lookup norm anno m sources : forall ws i n,
  windows_of norm anno m sources = Some ws ->
  sources !! i = Some n ->
  exists es, bfs_edges anno n = Some es
    /\ ws !! i = Some (n :: collect norm anno m 0 es).
Proof.
  induction sources as [|s ss IH]; intros ws i n H Hi; [discriminate|].
  simpl in H. destruct (bfs_edges anno s) as [es|] eqn:Hes; [|discriminate].
  destruct (windows_of norm anno m ss) as [ws'|] eqn:Hws; [|discriminate].
  injection H as <-. destruct i as [|i]; simpl in Hi.
  - injection Hi as <-. exists es. auto.
  - apply (IH ws' i n eq_refl Hi).
Qed.

Lemma windows_of_length norm anno m sources : forall ws,
  windows_of norm anno m sources = Some ws -> length ws = length sources.
Proof.
  induction sources as [|s ss IH]; intros ws H; simpl in H.
  - injection H as <-. reflexivity.
  - destruct (bfs_edges anno s); [|discriminate].
    destruct (windows_of norm anno m ss) as [ws'|]; [|discriminate].
    injection H as <-. simpl. f_equal. apply IH. reflexivity.
Qed.

(** [nodes_in_pathlength] returns one window per node of the annotation,
    in the order of the nodes.  The window of a node starts with the node and
    goes on with the first nodes that the breadth-first search from it
    reaches, in the order of the search; a larger [max_path_len] extends the
    windows and never changes what a smaller one has collected. *)
Theorem nodes_in_pathlength_windows (norm : Pos -> Q)
    (anno : SkeletonAnnotation) (max_path_len max_path_len' : Q) :
  max_path_len <= max_path_len' ->
  exists ws ws',
    nodes_in_pathlength norm anno max_path_len = Some ws
    /\ nodes_in_pathlength norm anno max_path_len' = Some ws'
    /\ length ws = length (getNodes anno)
    /\ length ws' = length (getNodes anno)
    /\ forall i n, getNodes anno !! i = Some n ->
         exists rest rest' es,
           ws !! i = Some (n :: rest) /\ ws' !! i = Some (n :: rest')
           /\ bfs_edges anno n = Some es
           /\ rest `prefix_of` rest' /\ rest' `prefix_of` map snd es.
Proof.
  intros Hm. unfold nodes_in_pathlength.
  destruct (windows_of_total norm anno max_path_len (getNodes anno)) as [ws Hws].
  destruct (windows_of_total norm anno max_path_len' (getNodes anno)) as [ws' Hws'].
  exists ws, ws'. split; [exact Hws|]. split; [exact Hws'|].
  split; [eapply windows_of_length, Hws|].
  split; [eapply windows_of_length, Hws'|].
  intros i n Hi.
  destruct (windows_of_lookup _ _ _ _ _ _ _ Hws Hi) as (es & Hes & Hw).
  destruct (windows_of_lookup _ _ _ _ _ _ _ Hws' Hi) as (es' & Hes' & Hw').
  rewrite Hes in Hes'. injection Hes' as <-.
  exists (collect norm anno max_path_len 0 es),
         (collect norm anno max_path_len' 0 es), es.
  split; [exact Hw|]. split; [exact Hw'|]. split; [exact Hes|].
  split; [apply collect_monotone, Hm|apply collect_bfs_prefix].
Qed.

Lemma nodes_in_pathlength_windows_witness :
  exists ws ws',
    nodes_in_pathlength Examples.floor_norm Examples.soma_pair 5 = Some ws
    /\ nodes_in_pathlength Examples.floor_norm Examples.soma_pair 100 = Some ws'
    /\ length ws = length (getNodes Examples.soma_pair)
    /\ length ws' = length (getNodes Examples.soma_pair)
    /\ forall i n, getNodes Examples.soma_pair !! i = Some n ->
         exists rest rest' es,
           ws !! i = Some (n :: rest) /\ ws' !! i = Some (n :: rest')
           /\ bfs_edges Examples.soma_pair n = Some es
           /\ rest `prefix_of` rest' /\ rest' `prefix_of` map snd es.
Proof.
  apply (nodes_in_pathlength_windows Examples.floor_norm Examples.soma_pair 5 100).
  discriminate.
Defined.

Lemma pred_value_set_key d n m key key' v :
  key <> key' -> pred_value (setDataElem d n key v) key' m = pred_value d key' m.
Proof.
  intros Hk. unfold pred_value, setDataElem.
  destruct (decide (n = m)) as [->|Hne].
  - rewrite lookup_insert_eq, lookup_insert_ne by exact Hk.
    destruct (d !! m); [reflexivity|]. simpl. rewrite lookup_empty. reflexivity.
  - rewrite lookup_insert_ne by exact Hne. reflexivity.
Qed.

Lemma vote_window_frame old cur cur' prop w :
  vote_window old cur prop w = inr cur' ->
  (forall n key, key <> prop +:+ "_pred" ->
     pred_value cur' key n = pred_value cur key n)
  /\ (forall n, head w <> Some n -> cur' !! n = cur !! n).
Proof.
  unfold vote_window. destruct w as [|src rest]; [discriminate|].
  assert (Hset : forall v c,
    inr (A := error) (setDataElem cur src (prop +:+ "_pred") v) = inr c ->
    (forall n key, key <> prop +:+ "_pred" ->
       pred_value c key n = pred_value cur key n)
    /\ (forall n, head (src :: rest) <> Some n -> c !! n = cur !! n)).
  { intros v c [= <-]. split.
    - intros n key Hk. apply pred_value_set_key. congruence.
    - intros n Hn. unfold setDataElem. apply lookup_insert_ne.
      simpl in Hn. congruence. }
  assert (Hassign : forall c,
    match vote old prop (src :: rest) with
    | inl e => inl e
    | inr new_ax => inr (setDataElem cur src (prop +:+ "_pred") new_ax)
    end = inr c ->
    (forall n key, key <> prop +:+ "_pred" ->
       pred_value c key n = pred_value cur key n)
    /\ (forall n, head (src :: rest) <> Some n -> c !! n = cur !! n)).
  { intros c Hc. destruct (vote old prop (src :: rest)) as [e|v]; [discriminate|].
    eapply Hset, Hc. }
  destruct (bool_decide (prop = "axoness")) eqn:Hax; [|apply Hassign].
  apply bool_decide_eq_true in Hax. subst prop.
  destruct (pred_value cur "axoness_pred" src) as [e|v]; [discriminate|].
  destruct (v =? 2)%Z; [|apply Hassign]. apply (Hset 2%Z).
Qed.

Lemma vote_windows_frame old prop ws : forall cur d',
  vote_windows old cur prop ws = inr d' ->
  (forall n key, key <> prop +:+ "_pred" ->
     pred_value d' key n = pred_value cur key n)
  /\ (forall n, Some n ∉ map head ws -> d' !! n = cur !! n).
Proof.
  induction ws as [|w ws IH]; intros cur d' H; simpl in H.
  - injection H as <-. auto.
  - destruct (vote_window old cur prop w) as [e|cur1] eqn:Hstep; [discriminate|].
    apply vote_window_frame in Hstep as [Hk1 Hn1].
    apply IH in H as [Hk Hn]. split.
    + intros n key Hne. rewrite Hk, Hk1 by assumption. reflexivity.
    + intros n Hnot. simpl in Hnot. apply not_elem_of_cons in Hnot as [Hh Hrest].
      rewrite Hn, Hn1 by (assumption || congruence). reflexivity.
Qed.

(** [majority_vote] writes nothing but the entry [prop + "_pred"] of the
    nodes of the annotation: every other entry of every node reads as before
    the call, and the data of a node that is not among [getNodes()] is left
    as it was. *)
Theorem majority_vote_frame (norm : Pos -> Q) (anno : SkeletonAnnotation)
    (prop : string) (max_dist : Q) (d' : gmap nat (gmap string Z)) :
  majority_vote norm anno prop max_dist = Some (inr d') ->
  (forall n key, key <> prop +:+ "_pred" ->
     pred_value d' key n = pred_value (data anno) key n)
  /\ (forall n, n ∉ getNodes anno -> d' !! n = data anno !! n).
Proof.
  unfold majority_vote, nodes_in_pathlength.
  destruct (windows_of norm anno max_dist (getNodes anno)) as [ws|] eqn:Hws;
    [|discriminate].
  intros [= Hrun]. apply vote_windows_frame in Hrun as [Hk Hn].
  split; [exact Hk|]. intros n Hnot. apply Hn.
  rewrite (windows_of_heads _ _ _ _ _ Hws).
  intros (m & [= ->] & Hin)%list_elem_of_fmap. contradiction.
Qed.

Lemma majority_vote_frame_witness :
  exists d',
    majority_vote Examples.floor_norm Examples.soma_pair "axoness" 100
      = Some (inr d')
    /\ (forall n key, key <> "axoness" +:+ "_pred" ->
          pred_value d' key n = pred_value (data Examples.soma_pair) key n)
    /\ (forall n, n ∉ getNodes Examples.soma_pair ->
          d' !! n = data Examples.soma_pair !! n).
Proof.
  destruct majority_vote_axoness_soma as (d' & Hrun & _).
  exists d'. split; [exact Hrun|].
  apply (majority_vote_frame Examples.floor_norm Examples.soma_pair "axoness" 100).
  exact Hrun.
Defined.

End AnnoWindows.

(** ** Compartment Partitioner: the labels *)

Section CompartmentLabels.
Import NX Compartments.

Lemma weighted_graph_wf axoness axoness' es :
  length axoness' = length axoness ->
  wf_graph (weighted_graph axoness es) = true ->
  wf_graph (weighted_graph axoness' es) = true.
Proof.
  intros Hlen [Hnd Hed]%wf_graph_spec. rewrite weighted_graph_ids in Hnd, Hed.
  apply wf_graph_intro; rewrite weighted_graph_ids, Hlen; assumption.
Qed.

(** What one run of [majority_vote_compartments] computes, component by
    component. *)
Lemma compartments_run axoness es :
  wf_graph (weighted_graph axoness es) = true ->
  let sf := soma_free (weighted_graph axoness es) in
  exists arr,
    majority_vote_compartments axoness es = inr arr
    /\ length arr = length axoness
    /\ (forall n, axoness !! n = Some 2%Z -> arr !! n = Some 2%Z)
    /\ (forall cc, cc ∈ connected_components sf ->
          exists m, biased_majority (map snd (cc_nodes sf cc)) = inr m
            /\ forall n, n ∈ cc -> n ∈ node_ids sf /\ arr !! n = Some m)
    /\ (forall n d, axoness !! n = Some d -> d <> 2%Z ->
          n ∈ node_ids sf /\ exists cc, cc ∈ connected_components sf /\ n ∈ cc).
Proof.
  intros Hwf sf. set (g := weighted_graph axoness es) in *.
  destruct (soma_free_spec g Hwf) as [Hwsf Hsf]. fold sf in Hwsf, Hsf.
  destruct (connected_components_spec sf Hwsf) as (Hdisj & Hcomp & Hcover).
  assert (Hsub : forall n, n ∈ node_ids sf -> n ∈ node_ids g).
  { intros n (nd & -> & Hin)%list_elem_of_fmap. destruct nd as [n d].
    apply Hsf in Hin as [Hin _]. apply list_elem_of_fmap. exists (n, d). auto. }
  assert (Hlt : forall n, n ∈ node_ids g -> (n < length axoness)%nat).
  { intros n Hn. unfold g in Hn. rewrite weighted_graph_ids in Hn.
    apply elem_of_seq in Hn. lia. }
  assert (Hne : forall cc, cc ∈ connected_components sf -> cc_nodes sf cc <> []).
  { intros cc Hcc Hnil. destruct (Hcomp cc Hcc) as (v & Hv & ->).
    assert (Hin : v ∈ map fst (cc_nodes sf (component sf v))).
    { apply cc_nodes_ids. split; [assumption|].
      apply component_spec; [assumption..|]. reflexivity. }
    rewrite Hnil in Hin. inversion Hin. }
  destruct (assign_ccs_spec sf (connected_components sf) (list_to_map (nodes g))
              Hdisj Hne) as (dc & Hrun & Hkeep & Hset).
  assert (Harr : forall n, (n < length axoness)%nat ->
            map (fun n => default 0%Z (dc !! n)) (seq 0 (length axoness)) !! n
            = Some (default 0%Z (dc !! n))).
  { intros n Hn. rewrite list_lookup_fmap, lookup_seq_lt by assumption.
    reflexivity. }
  unfold majority_vote_compartments. fold g. fold sf. rewrite Hrun.
  eexists. split; [reflexivity|]. split; [|split; [|split]].
  - rewrite length_map, length_seq. reflexivity.
  - intros n Hn.
    assert (Hg : (n, 2%Z) ∈ nodes g) by (apply weighted_graph_nodes, Hn).
    rewrite Harr by (eapply lookup_lt_Some, Hn).
    rewrite Hkeep.
    + destruct (wf_graph_spec g Hwf) as [Hnd _].
      apply (elem_of_list_to_map (M := gmap nat)) in Hg; [|exact Hnd].
      rewrite Hg. reflexivity.
    + intros cc Hcc Hin. apply cc_nodes_ids in Hin as [Hin _].
      apply list_elem_of_fmap in Hin as ([n' d] & Heq & Hin). simpl in Heq.
      subst n'. apply Hsf in Hin as [_ Hno]. contradiction.
  - intros cc Hcc.
    destruct (biased_majority (map snd (cc_nodes sf cc))) as [e|m] eqn:Hm.
    { exfalso. destruct (Hcomp cc Hcc) as (v & Hv & ->).
      destruct (Hset (component sf v) v Hcc) as (m & Hm' & _);
        [apply component_spec; [assumption..|reflexivity]|assumption|].
      congruence. }
    exists m. split; [reflexivity|]. intros n Hn.
    assert (Hids : n ∈ node_ids sf).
    { destruct (Hcomp cc Hcc) as (v & Hv & ->). eapply component_nodes; eauto. }
    split; [exact Hids|].
    destruct (Hset cc n Hcc Hn Hids) as (m' & Hm' & Hdc).
    rewrite Harr by (apply Hlt, Hsub, Hids). rewrite Hdc. simpl. congruence.
  - intros n d Hn Hd.
    assert (Hids : n ∈ node_ids sf).
    { apply list_elem_of_fmap. exists (n, d). split; [reflexivity|].
      apply Hsf. split; [apply weighted_graph_nodes, Hn|].
      intros H2%weighted_graph_nodes. congruence. }
    split; [exact Hids|]. apply Hcover, Hids.
Qed.

Lemma soma_free_labels axoness es n d :
  wf_graph (weighted_graph axoness es) = true ->
  (n, d) ∈ nodes (soma_free (weighted_graph axoness es)) <->
  axoness !! n = Some d /\ d <> 2%Z.
Proof.
  intros Hwf. destruct (soma_free_spec _ Hwf) as [_ Hsf].
  rewrite Hsf, !weighted_graph_nodes. split.
  - intros [Hd Hno]. split; [exact Hd|]. intros ->. contradiction.
  - intros [Hd Hne]. split; [exact Hd|]. congruence.
Qed.

Lemma biased_majority_in preds m :
  biased_majority preds = inr m -> m = 0%Z \/ m ∈ preds.
Proof.
  intros (maj & Hmaj & ->)%biased_majority_spec. unfold biased.
  destruct (decide _); [auto|]. right.
  apply majority_most_frequent in Hmaj as [Hin _]. exact Hin.
Qed.

Lemma biased_majority_constant preds m c :
  biased_majority preds = inr m -> (forall x, x ∈ preds -> x = c) -> m = c.
Proof.
  intros (maj & Hmaj & ->)%biased_majority_spec Hall.
  apply majority_most_frequent in Hmaj as [Hin _].
  pose proof (Hall maj Hin) as ->. unfold biased.
  destruct (decide _) as [[-> Hlt]|_]; [|reflexivity]. exfalso.
  assert (Hf : filter (fun x => x = 1%Z) preds = preds).
  { clear -Hall. induction preds as [|a l IH]; [reflexivity|].
    rewrite filter_cons, decide_True by (apply Hall; left).
    f_equal. apply IH. intros x Hx. apply Hall. right. exact Hx. }
  rewrite Hf in Hlt. destruct preds; [inversion Hin|]. simpl in Hlt. lia.
Qed.

Lemma compartments_result_labels (axoness : list Z) (es : list (nat * nat)) :
  wf_graph (weighted_graph axoness es) = true ->
  exists arr,
    majority_vote_compartments axoness es = inr arr
    /\ (forall n, arr !! n = Some 2%Z <-> axoness !! n = Some 2%Z)
    /\ (forall n c, arr !! n = Some c -> c = 0%Z \/ c ∈ axoness)
    /\ (forall cc,
          cc ∈ connected_components (soma_free (weighted_graph axoness es)) ->
          exists m, forall n, n ∈ cc -> arr !! n = Some m).
Proof.
  intros Hwf.
  destruct (compartments_run axoness es Hwf)
    as (arr & Hrun & Hlen & Hsoma & Hcc & Hcover).
  set (sf := soma_free (weighted_graph axoness es)) in *.
  assert (Hother : forall n d, axoness !! n = Some d -> d <> 2%Z ->
    exists m, arr !! n = Some m /\ m <> 2%Z /\ (m = 0%Z \/ m ∈ axoness)).
  { intros n d Hn Hd. destruct (Hcover n d Hn Hd) as (_ & cc & Hin & Hncc).
    destruct (Hcc cc Hin) as (m & Hm & Hall). exists m.
    split; [apply Hall, Hncc|].
    assert (Hlab : forall x, x ∈ map snd (cc_nodes sf cc) ->
              x <> 2%Z /\ x ∈ axoness).
    { intros x ([k x'] & -> & [_ Hk]%list_elem_of_filter)%list_elem_of_fmap.
      apply soma_free_labels in Hk as [Hk Hx]; [|exact Hwf]. simpl.
      split; [exact Hx|]. eapply list_elem_of_lookup_2, Hk. }
    apply biased_majority_in in Hm as [->|Hm].
    - split; [discriminate|auto].
    - destruct (Hlab m Hm). auto. }
  exists arr. split; [exact Hrun|]. split; [|split].
  - intros n. split; [|apply Hsoma]. intros Harr.
    destruct (axoness !! n) as [d|] eqn:Hn.
    + destruct (Z.eq_dec d 2) as [->|Hd]; [reflexivity|].
      destruct (Hother n d Hn Hd) as (m & Hm & Hne & _). congruence.
    + apply lookup_ge_None in Hn. apply lookup_lt_Some in Harr. lia.
  - intros n c Harr.
    destruct (axoness !! n) as [d|] eqn:Hn.
    + destruct (Z.eq_dec d 2) as [->|Hd].
      * rewrite (Hsoma n Hn) in Harr. injection Harr as <-. right.
        eapply list_elem_of_lookup_2, Hn.
      * destruct (Hother n d Hn Hd) as (m & Hm & _ & Hin). congruence.
    + apply lookup_ge_None in Hn. apply lookup_lt_Some in Harr. lia.
  - intros cc Hin. destruct (Hcc cc Hin) as (m & _ & Hall).
    exists m. intros n Hn. apply Hall, Hn.
Qed.

(** The compartment vote keeps the soma where it is: a node carries the
    label 2 after the call exactly when it did before.  Every label of the
    result is 0 or a label of the input, and the nodes of one connected
    component of the soma-free skeleton all carry the same label. *)
Theorem compartments_labels (axoness : list Z) (es : list (nat * nat)) :
  wf_graph (weighted_graph axoness es) = true ->
  exists arr,
    majority_vote_compartments axoness es = inr arr
    /\ (forall n, arr !! n = Some 2%Z <-> axoness !! n = Some 2%Z)
    /\ (forall n c, arr !! n = Some c -> c = 0%Z \/ c ∈ axoness)
    /\ (forall cc,
          cc ∈ connected_components (soma_free (weighted_graph axoness es)) ->
          exists m, forall n, n ∈ cc -> arr !! n = Some m).
Proof. apply compartments_result_labels. Qed.

Lemma compartments_labels_witness :
  exists arr,
    majority_vote_compartments [1; 0; 2; 1; 1]%Z Examples.row_edges = inr arr
    /\ (forall n, arr !! n = Some 2%Z <-> [1; 0; 2; 1; 1]%Z !! n = Some 2%Z)
    /\ (forall n c, arr !! n = Some c -> c = 0%Z \/ c ∈ [1; 0; 2; 1; 1]%Z)
    /\ (forall cc,
          cc ∈ connected_components
                 (soma_free (weighted_graph [1; 0; 2; 1; 1]%Z Examples.row_edges)) ->
          exists m, forall n, n ∈ cc -> arr !! n = Some m).
Proof.
  apply (compartments_labels [1; 0; 2; 1; 1]%Z Examples.row_edges).
  vm_compute. reflexivity.
Defined.

End CompartmentLabels.

Section CompartmentIdempotent.
Import NX Compartments.

Lemma soma_free_without l : forall g : Graph Z,
  let S := map fst (filter (fun nd : nat * Z => snd nd = 2%Z) l) in
  let sf := foldl (fun sf nd => if (snd nd =? 2)%Z
                                then remove_node sf (fst nd) else sf) g l in
  nodes sf = filter (fun np => fst np ∉ S) (nodes g)
  /\ edges sf = filter (fun e => (fst e ∉ S) /\ (snd e ∉ S)) (edges g).
Proof.
  induction l as [|[n d] l IH]; intros g; cbn [foldl].
  - cbv zeta. simpl. split.
    + induction (nodes g) as [|a k IHk]; [reflexivity|].
      rewrite filter_cons, decide_True by (intros Hn; inversion Hn).
      f_equal. exact IHk.
    + induction (edges g) as [|a k IHk]; [reflexivity|].
      rewrite filter_cons, decide_True by (split; intros Hn; inversion Hn).
      f_equal. exact IHk.
  - cbn [fst snd]. rewrite filter_cons. cbn [snd].
    destruct (Z.eqb_spec d 2) as [->|Hd].
    + rewrite decide_True by reflexivity. cbn [map fst].
      destruct (IH (remove_node g n)) as [Hn He]. cbv zeta in Hn, He.
      rewrite Hn, He. unfold remove_node. cbn [nodes edges]. split.
      * change (n :: ?S) with ([n] ++ S).
        rewrite <- (filter_filter_app fst [n]). f_equal.
        apply filter_iff_in. intros x _. rewrite list_elem_of_singleton. tauto.
      * change (n :: ?S) with ([n] ++ S).
        rewrite <- (filter_filter_app2 [n]). f_equal.
        apply filter_iff_in. intros x _. rewrite !list_elem_of_singleton. tauto.
    + rewrite decide_False by exact Hd. apply IH.
Qed.

(** The soma-free graph depends on the labels only through the places of
    the label 2. *)
Lemma soma_free_same_soma axoness axoness' es :
  length axoness' = length axoness ->
  (forall n, axoness' !! n = Some 2%Z <-> axoness !! n = Some 2%Z) ->
  node_ids (soma_free (weighted_graph axoness' es))
  = node_ids (soma_free (weighted_graph axoness es))
  /\ edges (soma_free (weighted_graph axoness' es))
     = edges (soma_free (weighted_graph axoness es)).
Proof.
  intros Hlen Hsoma.
  assert (HS : forall a l n,
    n ∈ map fst (filter (fun nd : nat * Z => snd nd = 2%Z)
                   (nodes (weighted_graph a l)))
    <-> a !! n = Some 2%Z).
  { intros a l n. rewrite list_elem_of_fmap. split.
    - intros ([k d] & Hk & [Hd Hin]%list_elem_of_filter).
      cbn [fst snd] in Hk, Hd. subst k d.
      apply weighted_graph_nodes in Hin. exact Hin.
    - intros Ha. exists (n, 2%Z). split; [reflexivity|].
      apply list_elem_of_filter. split; [reflexivity|].
      apply weighted_graph_nodes, Ha. }
  unfold soma_free.
  destruct (soma_free_without (nodes (weighted_graph axoness es))
              (weighted_graph axoness es)) as [Hn He].
  destruct (soma_free_without (nodes (weighted_graph axoness' es))
              (weighted_graph axoness' es)) as [Hn' He'].
  cbv zeta in Hn, He, Hn', He'.
  assert (Hids : forall a (S : list nat),
    map fst (filter (fun np : nat * Z => fst np ∉ S) (nodes (weighted_graph a es)))
    = filter (fun x => x ∉ S) (seq 0 (length a))).
  { intros a S. rewrite <- (weighted_graph_ids a es).
    exact (map_fst_filter (fun x => x ∉ S) _). }
  unfold node_ids. rewrite Hn, He, Hn', He', !Hids, Hlen.
  cbn [edges weighted_graph]. split.
  - apply filter_iff_in. intros n _. rewrite !HS, Hsoma. tauto.
  - apply filter_iff_in. intros e _. rewrite !HS, !Hsoma. tauto.
Qed.

Lemma cc_loop_ext {A B} (g1 : Graph A) (g2 : Graph B) :
  length (nodes g1) = length (nodes g2) -> edges g1 = edges g2 ->
  forall vs seen, cc_loop g1 vs seen = cc_loop g2 vs seen.
Proof.
  intros Hn He. induction vs as [|v vs IH]; intros seen; [reflexivity|].
  simpl. unfold component. rewrite Hn, He.
  destruct (decide (v ∈ seen)); [apply IH|]. f_equal. apply IH.
Qed.

(** The compartment vote is idempotent: voting again on the labels that a
    vote has returned returns the same labels. *)
Theorem compartments_idempotent (axoness arr : list Z)
    (es : list (nat * nat)) :
  wf_graph (weighted_graph axoness es) = true ->
  majority_vote_compartments axoness es = inr arr ->
  majority_vote_compartments arr es = inr arr.
Proof.
  intros Hwf Hmv.
  destruct (compartments_run axoness es Hwf)
    as (arr0 & Hrun & Hlen & Hsoma & Hcc & Hcover).
  rewrite Hmv in Hrun. injection Hrun as <-.
  destruct (compartments_result_labels axoness es Hwf) as (arr0 & Hrun & Hiff & _).
  rewrite Hmv in Hrun. injection Hrun as <-.
  pose proof (weighted_graph_wf axoness arr es Hlen Hwf) as Hwf'.
  destruct (compartments_run arr es Hwf')
    as (arr2 & Hrun2 & Hlen2 & Hsoma2 & Hcc2 & Hcover2).
  destruct (soma_free_same_soma axoness arr es Hlen Hiff) as [Hids Hed].
  set (sf := soma_free (weighted_graph axoness es)) in *.
  set (sf' := soma_free (weighted_graph arr es)) in *.
  assert (Hccs : connected_components sf' = connected_components sf).
  { unfold connected_components. rewrite Hids. apply cc_loop_ext; [|exact Hed].
    unfold node_ids in Hids.
    rewrite <- (length_map fst (nodes sf')), <- (length_map fst (nodes sf)).
    congruence. }
  rewrite Hrun2. f_equal. apply list_eq. intros n.
  destruct (arr !! n) as [c|] eqn:Hn.
  2:{ apply lookup_ge_None in Hn. apply lookup_ge_None. lia. }
  destruct (Z.eq_dec c 2) as [->|Hc]; [apply Hsoma2, Hn|].
  destruct (Hcover2 n c Hn Hc) as (Hnsf & cc & Hin & Hncc).
  destruct (Hcc2 cc Hin) as (m2 & Hm2 & Hall2).
  rewrite Hccs in Hin. destruct (Hcc cc Hin) as (m & _ & Hall).
  rewrite (proj2 (Hall2 n Hncc)). f_equal.
  destruct (Hall n Hncc) as [_ Hm]. rewrite Hn in Hm. injection Hm as <-.
  apply (biased_majority_constant _ _ _ Hm2).
  intros x ([k x'] & -> & [Hk Hkin]%list_elem_of_filter)%list_elem_of_fmap.
  simpl in *. apply soma_free_labels in Hkin as [Hkin _]; [|exact Hwf'].
  destruct (Hall k Hk) as [_ Hkm]. congruence.
Qed.

Lemma compartments_idempotent_witness :
  majority_vote_compartments [0; 0; 2; 1; 1]%Z Examples.row_edges
  = inr [0; 0; 2; 1; 1]%Z.
Proof.
  apply (compartments_idempotent [1; 0; 2; 1; 1]%Z [0; 0; 2; 1; 1]%Z
           Examples.row_edges); vm_compute; reflexivity.
Defined.

End CompartmentIdempotent.

(** ** Supervoxel agglomeration *)

Section MergelistFacts.
Import Mergelist.

Lemma getitem_in ml k v :
  NoDup (map fst ml) -> (k, v) ∈ ml -> getitem ml k = Some v.
Proof.
  induction ml as [|[k' v'] ml IH]; intros Hnd Hin; [inversion Hin|].
  simpl in Hnd. apply NoDup_cons in Hnd as [Hk Hnd]. simpl.
  apply elem_of_cons in Hin as [[= -> ->]|Hin].
  - rewrite Nat.eqb_refl. reflexivity.
  - destruct (Nat.eqb_spec k' k) as [->|Hne]; [|auto].
    exfalso. apply Hk. apply list_elem_of_fmap. exists (k, v). auto.
Qed.

Lemma foldl_max_ge l : forall x y,
  (y = x \/ y ∈ l) -> (y <= foldl Nat.max x l)%nat.
Proof.
  induction l as [|a l IH]; intros x y Hy; simpl.
  - destruct Hy as [Hy|Hy]; [subst y; lia|inversion Hy].
  - destruct Hy as [Hy|[Hy|Hy]%elem_of_cons].
    + subst y. transitivity (Nat.max x a); [lia|]. apply IH. auto.
    + subst y. transitivity (Nat.max x a); [lia|]. apply IH. auto.
    + apply IH. auto.
Qed.

Lemma np_max_ge l m x : np_max l = inr m -> x ∈ l -> (x <= m)%nat.
Proof.
  destruct l as [|a l]; [discriminate|]. simpl. intros [= <-] Hx.
  apply foldl_max_ge. apply elem_of_cons in Hx. exact Hx.
Qed.

Lemma reset_values_lookup ml : forall md k,
  reset_values md ml !! k
  = if decide (k ∈ map snd ml) then Some [] else md !! k.
Proof.
  unfold reset_values. induction ml as [|[a b] ml IH]; intros md k; simpl.
  - destruct (decide (k ∈ [])) as [H|_]; [inversion H|reflexivity].
  - rewrite IH. destruct (decide (k ∈ map snd ml)) as [Hin|Hnin].
    + rewrite decide_True by (right; exact Hin). reflexivity.
    + destruct (decide (k = b)) as [->|Hne].
      * rewrite decide_True by left. apply lookup_insert_eq.
      * rewrite decide_False by (intros [?|?]%elem_of_cons; contradiction).
        apply lookup_insert_ne. congruence.
Qed.

Section Loop.

Variables (ml : mergelist) (md0 : gmap nat (list nat)) (m : nat).
Hypothesis keys_unique : NoDup (map fst ml).
Hypothesis keys_below : forall k, k ∈ map fst ml -> (k <= m)%nat.

Local Abbreviation entered := (Mergelist.entered ml md0 m).

Lemma assign_all_entered : forall R P st,
  ml = P ++ R -> entered P st ->
  exists st', assign_all ml st (map fst R) = inr st' /\ entered ml st'.
Proof.
  induction R as [|[k v] R IH]; intros P st Hml Hent.
  - rewrite app_nil_r in Hml. subst P. exists st. auto.
  - destruct Hent as (Hlen & Hid & Hfree & Hmd & Hoth).
    assert (Hin : (k, v) ∈ ml).
    { rewrite Hml. apply elem_of_app. right. left. }
    assert (Hkm : (k <= m)%nat).
    { apply keys_below. apply list_elem_of_fmap. exists (k, v). auto. }
    assert (Hv : v ∈ map snd ml).
    { apply list_elem_of_fmap. exists (k, v). auto. }
    assert (HkP : k ∉ map fst P).
    { intros HkP. rewrite Hml, map_app in keys_unique.
      apply NoDup_app in keys_unique as (_ & Hdis & _).
      apply (Hdis k HkP). left. }
    cbn [map fst assign_all]. unfold assign.
    rewrite (getitem_in ml k v keys_unique Hin), (Hmd v Hv).
    destruct (Nat.ltb_spec k (length (id_changer st))) as [Hlt|Hge]; [|lia].
    apply (IH (P ++ [(k, v)])).
    { rewrite <- app_assoc. exact Hml. }
    unfold Mergelist.entered. cbn [id_changer mapping_dict].
    split; [|split; [|split; [|split]]].
    + rewrite length_insert. exact Hlen.
    + intros sv ssv [Hp|Hp]%elem_of_app.
      * rewrite list_lookup_insert_ne; [apply Hid, Hp|].
        intros <-. apply HkP. apply list_elem_of_fmap. exists (k, ssv). auto.
      * apply list_elem_of_singleton in Hp as [= -> ->].
        apply list_lookup_insert_eq, Hlt.
    + intros sv Hsv Hle. rewrite map_app, elem_of_app in Hsv.
      rewrite list_lookup_insert_ne; [apply Hfree; tauto|].
      intros <-. apply Hsv. right. left.
    + intros ssv Hssv. rewrite (filter_app _ P [(k, v)]), map_app.
      destruct (decide (v = ssv)) as [->|Hne].
      * rewrite lookup_insert_eq. f_equal. f_equal.
        rewrite filter_cons, decide_True by reflexivity. reflexivity.
      * rewrite lookup_insert_ne by exact Hne. rewrite (Hmd ssv Hssv).
        rewrite filter_cons, decide_False by exact Hne.
        rewrite filter_nil, app_nil_r. reflexivity.
    + intros k' Hk'. rewrite lookup_insert_ne; [apply Hoth, Hk'|].
      intros <-. contradiction.
Qed.

End Loop.

(** [assemble_from_mergelist] on a dictionary.  An empty dictionary ends
    in [ValueError] (the maximum of no keys).  Otherwise the call succeeds,
    and the two tables it writes are inverse to each other and agree with
    the dictionary: [id_changer] has an entry for every key, maps a
    supervoxel of the dictionary to its cell and every other id to -1;
    [mapping_dict] maps a cell of the dictionary to its supervoxels, in the
    order of the dictionary, and keeps the entries of all other keys. *)
Theorem assemble_round_trip (ssd : ssd_state) (ml : mergelist) :
  NoDup (map fst ml) ->
  (ml = [] -> assemble_from_mergelist true ssd (Some ml) = inl ValueError)
  /\ (ml <> [] ->
      exists st,
        assemble_from_mergelist true ssd (Some ml) = inr st
        /\ (forall sv ssv, (sv, ssv) ∈ ml ->
              id_changer st !! sv = Some (Z.of_nat ssv)
              /\ exists svs, mapping_dict st !! ssv = Some svs /\ sv ∈ svs)
        /\ (forall sv, sv ∉ map fst ml -> (sv < length (id_changer st))%nat ->
              id_changer st !! sv = Some (-1)%Z)
        /\ (forall ssv, ssv ∈ map snd ml ->
              mapping_dict st !! ssv
              = Some (map fst (filter (fun kv => snd kv = ssv) ml)))
        /\ (forall k, k ∉ map snd ml ->
              mapping_dict st !! k = mapping_dict ssd !! k)).
Proof.
  intros Hnd. split; [intros ->; reflexivity|]. intros Hne.
  unfold assemble_from_mergelist. cbn [negb].
  destruct (np_max (map fst ml)) as [e|m] eqn:Hmax.
  { destruct ml; [contradiction|discriminate]. }
  destruct (assign_all_entered ml (mapping_dict ssd) m Hnd
              (fun k => np_max_ge _ _ k Hmax) ml []
              (mkSsd (reset_values (mapping_dict ssd) ml) (replicate (m + 1) (-1)%Z))
              eq_refl)
    as (st & Hrun & Hlen & Hid & Hfree & Hmd & Hoth).
  { unfold Mergelist.entered. cbn [id_changer mapping_dict]. split; [apply length_replicate|].
    split; [intros sv ssv Hin; inversion Hin|]. split; [|split].
    - intros sv _ Hle. apply lookup_replicate_2. lia.
    - intros ssv Hssv. rewrite reset_values_lookup, decide_True by exact Hssv.
      reflexivity.
    - intros k Hk. rewrite reset_values_lookup, decide_False by exact Hk.
      reflexivity. }
  exists st. split; [exact Hrun|]. split; [|split; [|split; [exact Hmd|exact Hoth]]].
  - intros sv ssv Hin. split; [apply Hid, Hin|].
    eexists. split; [apply Hmd; apply list_elem_of_fmap; exists (sv, ssv); auto|].
    apply list_elem_of_fmap. exists (sv, ssv). split; [reflexivity|].
    apply list_elem_of_filter. auto.
  - intros sv Hsv Hlt. apply Hfree; [exact Hsv|lia].
Qed.

Lemma assemble_round_trip_witness :
  let ml := [(5%nat, 1%nat); (2%nat, 7%nat); (3%nat, 1%nat)] in
  let ssd := mkSsd {[ 9%nat := [4%nat] ]} [] in
  (ml = [] -> assemble_from_mergelist true ssd (Some ml) = inl ValueError)
  /\ (ml <> [] ->
      exists st,
        assemble_from_mergelist true ssd (Some ml) = inr st
        /\ (forall sv ssv, (sv, ssv) ∈ ml ->
              id_changer st !! sv = Some (Z.of_nat ssv)
              /\ exists svs, mapping_dict st !! ssv = Some svs /\ sv ∈ svs)
        /\ (forall sv, sv ∉ map fst ml -> (sv < length (id_changer st))%nat ->
              id_changer st !! sv = Some (-1)%Z)
        /\ (forall ssv, ssv ∈ map snd ml ->
              mapping_dict st !! ssv
              = Some (map fst (filter (fun kv => snd kv = ssv) ml)))
        /\ (forall k, k ∉ map snd ml ->
              mapping_dict st !! k = mapping_dict ssd !! k)).
Proof.
  apply (assemble_round_trip (mkSsd {[ 9%nat := [4%nat] ]} [])
           [(5%nat, 1%nat); (2%nat, 7%nat); (3%nat, 1%nat)]).
  refine (bool_decide_unpack _ _). vm_compute. exact I.
Defined.

End MergelistFacts.

(** ** Label counts per mesh vertex *)

Section SemSegFacts.
Import SemSeg.

Lemma increment_entry count_arr vi l0 c' :
  increment count_arr vi l0 = Some c' ->
  exists x, entry count_arr vi l0 = Some x
    /\ entry c' vi l0 = Some (uint8 (x + 1))
    /\ forall v l, (v, l) <> (vi, l0) -> entry c' v l = entry count_arr v l.
Proof.
  unfold increment, entry.
  destruct (count_arr !! vi) as [row|] eqn:Hrow; [|discriminate].
  destruct (row !! l0) as [x|] eqn:Hx; [|discriminate].
  intros [= <-]. exists x. split; [reflexivity|].
  assert (Hvi : (vi < length count_arr)%nat) by (eapply lookup_lt_Some, Hrow).
  assert (Hl0 : (l0 < length row)%nat) by (eapply lookup_lt_Some, Hx).
  split.
  - rewrite list_lookup_insert_eq by exact Hvi.
    apply list_lookup_insert_eq, Hl0.
  - intros v l Hne. destruct (decide (v = vi)) as [->|Hv].
    + rewrite list_lookup_insert_eq, Hrow by exact Hvi.
      apply list_lookup_insert_ne. congruence.
    + rewrite list_lookup_insert_ne by congruence. reflexivity.
Qed.

Lemma increment_defined count_arr vi l0 x :
  entry count_arr vi l0 = Some x ->
  exists c', increment count_arr vi l0 = Some c'.
Proof.
  unfold increment, entry. destruct (count_arr !! vi) as [row|]; [|discriminate].
  intros ->. eauto.
Qed.

Lemma uint8_range x : 0 <= uint8 x < 256.
Proof. unfold uint8. apply Z.mod_pos_bound. lia. Qed.

Lemma uint8_add x y : uint8 (uint8 x + y) = uint8 (x + y).
Proof. unfold uint8. apply Zplus_mod_idemp_l. Qed.

Lemma hits_background iis index_arr label_arr bg l :
  hits iis index_arr label_arr bg bg l = 0%nat.
Proof.
  unfold hits. induction iis as [|a k IHk]; [reflexivity|].
  rewrite filter_cons, decide_False; [exact IHk|]. intros (_ & Hne & _).
  apply Hne. reflexivity.
Qed.

(** The loop counts, in [np.uint8]. *)
Lemma counter_loop_counts index_arr label_arr bg : forall iis count_arr,
  (forall ii, ii ∈ iis ->
     exists v, index_arr !! ii = Some v
       /\ (v = bg \/ exists l, label_arr !! ii = Some l
                      /\ is_Some (entry count_arr v l))) ->
  (forall v l x, entry count_arr v l = Some x -> 0 <= x < 256) ->
  exists c,
    counter_loop iis index_arr label_arr bg count_arr = Some c
    /\ forall v l,
         entry c v l
         = (fun x => uint8 (x + Z.of_nat (hits iis index_arr label_arr bg v l)))
             <$> entry count_arr v l.
Proof.
  induction iis as [|ii rest IH]; intros count_arr Hin Hrange.
  - exists count_arr. split; [reflexivity|]. intros v l. unfold hits. simpl.
    destruct (entry count_arr v l) as [x|] eqn:Hx; [|reflexivity]. simpl.
    f_equal. rewrite Z.add_0_r. unfold uint8. symmetry.
    apply Z.mod_small. eapply Hrange, Hx.
  - destruct (Hin ii) as (vi & Hvi & Hcase); [left|].
    cbn [counter_loop]. rewrite Hvi.
    assert (Hrest : forall c1,
      (forall v l, is_Some (entry count_arr v l) -> is_Some (entry c1 v l)) ->
      forall ii', ii' ∈ rest ->
        exists v, index_arr !! ii' = Some v
          /\ (v = bg \/ exists l, label_arr !! ii' = Some l
                         /\ is_Some (entry c1 v l))).
    { intros c1 Hc1 ii' Hii'. destruct (Hin ii') as (v & Hv & Hc); [right; exact Hii'|].
      exists v. split; [exact Hv|]. destruct Hc as [->|(l & Hl & Hs)]; [auto|].
      right. exists l. auto. }
    destruct (Nat.eqb_spec vi bg) as [->|Hne].
    + destruct (IH count_arr (Hrest count_arr (fun _ _ H => H)) Hrange)
        as (c & Hrun & Hc).
      exists c. split; [exact Hrun|]. intros v l. rewrite Hc. unfold hits.
      rewrite filter_cons, decide_False; [reflexivity|].
      intros (Hv & Hnb & _). rewrite Hvi in Hv. congruence.
    + destruct Hcase as [->|(l0 & Hl0 & [x0 Hx0])]; [contradiction|].
      rewrite Hl0.
      destruct (increment_defined _ _ _ _ Hx0) as [c1 Hinc]. rewrite Hinc.
      destruct (increment_entry _ _ _ _ Hinc) as (x & Hx & Hnew & Hold).
      rewrite Hx0 in Hx. injection Hx as <-.
      destruct (IH c1) as (c & Hrun & Hc).
      { apply Hrest. intros v l Hs. destruct (decide ((v, l) = (vi, l0))) as [[= -> ->]|Hd].
        - rewrite Hnew. eauto.
        - rewrite Hold by exact Hd. exact Hs. }
      { intros v l x Hx. destruct (decide ((v, l) = (vi, l0))) as [[= -> ->]|Hd].
        - rewrite Hnew in Hx. injection Hx as <-. apply uint8_range.
        - rewrite Hold in Hx by exact Hd. eapply Hrange, Hx. }
      exists c. split; [exact Hrun|]. intros v l. rewrite Hc. unfold hits.
      rewrite filter_cons.
      destruct (decide ((v, l) = (vi, l0))) as [[= -> ->]|Hd].
      * rewrite decide_True by auto. rewrite Hnew, Hx0. simpl. f_equal.
        rewrite uint8_add. f_equal. lia.
      * rewrite Hold by exact Hd. rewrite decide_False; [reflexivity|].
        intros (Hv & _ & Hl). rewrite Hvi in Hv. rewrite Hl0 in Hl. congruence.
Qed.

(** [semseg2mesh_counter] on an array of [np.uint8] that is large enough
    for every vertex and label it meets: the entry of a vertex and a label
    grows by the number of places at which the vertex is shown with the
    label, modulo 256; the places that show the background id are skipped. *)
Theorem semseg2mesh_counter_counts (index_arr label_arr : list nat)
    (bg_label : nat) (count_arr : list (list Z)) :
  (forall ii v, index_arr !! ii = Some v -> v <> bg_label ->
     exists l, label_arr !! ii = Some l /\ is_Some (entry count_arr v l)) ->
  (forall v l x, entry count_arr v l = Some x -> 0 <= x < 256) ->
  exists c,
    semseg2mesh_counter index_arr label_arr bg_label count_arr = Some c
    /\ forall v l x, entry count_arr v l = Some x ->
         entry c v l
         = Some ((x + Z.of_nat (hits (seq 0 (length index_arr)) index_arr
                                     label_arr bg_label v l)) mod 256)
         /\ (v = bg_label -> entry c v l = Some x).
Proof.
  intros Hin Hrange.
  destruct (counter_loop_counts index_arr label_arr bg_label
              (seq 0 (length index_arr)) count_arr) as (c & Hrun & Hc).
  { intros ii [_ Hii]%elem_of_seq.
    destruct (lookup_lt_is_Some_2 index_arr ii) as [v Hv]; [lia|].
    exists v. split; [exact Hv|].
    destruct (decide (v = bg_label)) as [->|Hne]; [auto|]. right. eauto. }
  { exact Hrange. }
  exists c. split; [exact Hrun|]. intros v l x Hx. rewrite Hc, Hx. simpl.
  split; [reflexivity|]. intros ->. f_equal. rewrite hits_background.
  simpl. rewrite Z.add_0_r. apply Z.mod_small. eapply Hrange, Hx.
Qed.

Lemma semseg2mesh_counter_counts_witness :
  exists c,
    semseg2mesh_counter [0; 2; 0; 1; 0]%nat [1; 0; 1; 0; 0]%nat 2
      [[0; 0]; [0; 0]]%Z = Some c
    /\ forall v l x, entry [[0; 0]; [0; 0]]%Z v l = Some x ->
         entry c v l
         = Some ((x + Z.of_nat (hits (seq 0 (length [0; 2; 0; 1; 0]%nat))
                                     [0; 2; 0; 1; 0]%nat [1; 0; 1; 0; 0]%nat
                                     2 v l)) mod 256)
         /\ (v = 2%nat -> entry c v l = Some x).
Proof.
  apply (semseg2mesh_counter_counts [0; 2; 0; 1; 0]%nat [1; 0; 1; 0; 0]%nat 2
           [[0; 0]; [0; 0]]%Z).
  - intros ii v Hv Hne.
    destruct ii as [|[|[|[|[|ii]]]]]; simpl in Hv; try discriminate;
      injection Hv as <-; try contradiction; eexists; split;
      try reflexivity; eexists; reflexivity.
  - intros v l x Hx.
    destruct v as [|[|v]]; try discriminate;
      destruct l as [|[|l]]; try discriminate; injection Hx as <-; lia.
Defined.

End SemSegFacts.

(** ** Ratio of symmetric synapses *)

Section SynRatioFacts.
Import SynRatio.
Local Open Scope Q_scope.

Lemma collect_sizes comp_types syns : forall l,
  (forall syn a, syn ∈ syns -> mesh_area syn = Some a -> 0 <= a) ->
  collect comp_types syns = inr l -> forall ss, ss ∈ l -> 0 <= snd ss.
Proof.
  induction syns as [|syn rest IH]; intros l Hpos H ss Hss; simpl in H.
  - injection H as <-. inversion Hss.
  - assert (Hrest : forall syn a, syn ∈ rest -> mesh_area syn = Some a -> 0 <= a).
    { intros s a Hs. apply Hpos. right. exact Hs. }
    destruct (bool_decide _); [|eapply IH; eauto].
    destruct (mesh_area syn) as [area|] eqn:Ha; [|discriminate].
    destruct (syn_sign syn) as [sign|]; [|discriminate].
    destruct (collect comp_types rest) as [e|l'] eqn:Hc; [discriminate|].
    injection H as <-. apply elem_of_cons in Hss as [->|Hss].
    + simpl. apply Qle_shift_div_l; [reflexivity|]. rewrite Qmult_0_l.
      apply (Hpos syn); [left|exact Ha].
    + eapply IH; eauto.
Qed.

Lemma Qsum_nonneg l : (forall x, x ∈ l -> 0 <= x) -> 0 <= Qsum l.
Proof.
  induction l as [|a l IH]; intros H; simpl; [apply Qle_refl|].
  rewrite <- (Qplus_0_r 0). apply Qplus_le_compat.
  - apply H. left.
  - apply IH. intros x Hx. apply H. right. exact Hx.
Qed.

Lemma Qsum_filter_le (P : Z * Q -> Prop) `{!forall x, Decision (P x)} l :
  (forall ss, ss ∈ l -> 0 <= snd ss) ->
  Qsum (map snd (filter P l)) <= Qsum (map snd l).
Proof.
  induction l as [|a l IH]; intros Hpos; [apply Qle_refl|].
  assert (Hl : Qsum (map snd (filter P l)) <= Qsum (map snd l)).
  { apply IH. intros ss Hss. apply Hpos. right. exact Hss. }
  rewrite filter_cons. destruct (decide (P a)); simpl.
  - apply Qplus_le_compat; [apply Qle_refl|exact Hl].
  - rewrite <- (Qplus_0_l (Qsum (map snd (filter P l)))).
    apply Qplus_le_compat; [apply Hpos; left|exact Hl].
Qed.

(** The ratio that [syn_sign_ratio_celltype] computes ([recompute=True])
    from synapses whose areas are not negative is -1 or lies between 0 and
    1.  It is -1 exactly when no synapse lies on one of the compartments
    asked for, or when the sizes of those that do add up to 0. *)
Theorem syn_sign_ratio_bounds (cached : option Q) (syns : list synapse)
    (weighted : bool) (comp_types : option (list Z)) (r : Q) :
  (forall syn a, syn ∈ syns -> mesh_area syn = Some a -> 0 <= a) ->
  syn_sign_ratio_celltype cached syns weighted true comp_types = inr r ->
  exists l, collect (default [1%Z] comp_types) syns = inr l
    /\ ((r = -1 /\ (l = [] \/ Qsum (map snd l) == 0))
        \/ (0 <= r /\ r <= 1 /\ l <> [] /\ ~ Qsum (map snd l) == 0)).
Proof.
  intros Hpos. unfold syn_sign_ratio_celltype.
  destruct (Nat.eqb_spec (length syns) 0) as [Hnil|Hlen].
  { intros [= <-]. destruct syns; [|discriminate]. exists []. simpl. auto. }
  destruct (collect (default [1%Z] comp_types) syns) as [e|l] eqn:Hc; [discriminate|].
  pose proof (collect_sizes _ _ _ Hpos Hc) as Hl.
  intros H. exists l. split; [reflexivity|].
  destruct (Nat.eqb_spec (length l) 0) as [Hl0|Hl0]; cbn [orb] in H.
  { injection H as <-. left. split; [reflexivity|]. left. destruct l; [reflexivity|discriminate]. }
  destruct (Qeq_bool (Qsum (map snd l)) 0) eqn:Hs.
  { injection H as <-. left. split; [reflexivity|]. right. apply Qeq_bool_iff, Hs. }
  assert (Hne : ~ Qsum (map snd l) == 0).
  { intros Heq. apply Qeq_bool_iff in Heq. congruence. }
  assert (Htot : 0 < Qsum (map snd l)).
  { assert (Hge : 0 <= Qsum (map snd l)).
    { apply Qsum_nonneg.
      intros x (ss & -> & Hss)%list_elem_of_fmap. apply Hl, Hss. }
    apply Qle_lteq in Hge as [Hlt|Heq]; [exact Hlt|].
    destruct Hne. symmetry. exact Heq. }
  right. assert (Hnil : l <> []) by (intros ->; apply Hl0; reflexivity).
  destruct weighted; injection H as <-.
  - split; [|split; [|auto]].
    + apply Qle_shift_div_l; [exact Htot|]. rewrite Qmult_0_l.
      apply Qsum_nonneg. intros x (ss & -> & [_ Hss]%list_elem_of_filter)%list_elem_of_fmap.
      apply Hl, Hss.
    + apply Qle_shift_div_r; [exact Htot|]. rewrite Qmult_1_l.
      apply Qsum_filter_le, Hl.
  - assert (Hlen' : 0 < inject_Z (Z.of_nat (length l))).
    { change 0 with (inject_Z 0). rewrite <- Zlt_Qlt. lia. }
    split; [|split; [|auto]].
    + apply Qle_shift_div_l; [exact Hlen'|]. rewrite Qmult_0_l.
      change 0 with (inject_Z 0). rewrite <- Zle_Qle. lia.
    + apply Qle_shift_div_r; [exact Hlen'|]. rewrite Qmult_1_l.
      rewrite <- Zle_Qle. apply inj_le, length_filter.
Qed.

Lemma syn_sign_ratio_bounds_witness :
  let syns := [mkSynapse 1 (Some (-1)%Z) (Some 4); mkSynapse 3 (Some 1%Z) (Some 12);
               mkSynapse 0 (Some 1%Z) (Some 6)] in
  exists r,
    syn_sign_ratio_celltype None syns true true None = inr r
    /\ exists l, collect (default [1%Z] None) syns = inr l
         /\ ((r = -1 /\ (l = [] \/ Qsum (map snd l) == 0))
             \/ (0 <= r /\ r <= 1 /\ l <> [] /\ ~ Qsum (map snd l) == 0)).
Proof.
  cbv zeta. eexists. split; [vm_compute; reflexivity|].
  apply (syn_sign_ratio_bounds None
           [mkSynapse 1 (Some (-1)%Z) (Some 4); mkSynapse 3 (Some 1%Z) (Some 12);
            mkSynapse 0 (Some 1%Z) (Some 6)] true None).
  - intros syn a Hin Ha.
    repeat (apply elem_of_cons in Hin as [->|Hin];
            [simpl in Ha; injection Ha as <-; discriminate|]).
    inversion Hin.
  - vm_compute. reflexivity.
Defined.

End SynRatioFacts.

(** ** Merging the skeletons of the supervoxels *)

Section FragmentFacts.
Import Skel Fragments.

Lemma cumsum_from_length l : forall acc, length (cumsum_from acc l) = length l.
Proof. induction l as [|x l IH]; intros acc; simpl; [reflexivity|]. f_equal. apply IH. Qed.

Lemma cumsum_from_lookup l : forall acc k, (k < length l)%nat ->
  cumsum_from acc l !! k = Some (acc + sum_list (take (S k) l))%nat.
Proof.
  induction l as [|x l IH]; intros acc k Hk; simpl in Hk; [lia|].
  destruct k as [|k]; simpl.
  - rewrite ?take_0. simpl. f_equal. lia.
  - rewrite IH by lia. f_equal. simpl. lia.
Qed.

Lemma nodes_before_sum res ii :
  nodes_before res ii
  = sum_list (take ii (map (fun el => length (sk_nodes (snd el))) res)).
Proof.
  unfold nodes_before. rewrite length_concat, <- fmap_take, <- list_fmap_compose.
  reflexivity.
Qed.

Lemma n_nodes_per_sv_nth res ii : (ii < length res)%nat ->
  nth ii (n_nodes_per_sv res) 0%nat = nodes_before res ii.
Proof.
  intros Hii. rewrite nodes_before_sum. unfold n_nodes_per_sv.
  set (lens := map (fun el => length (sk_nodes (snd el))) res).
  assert (Hlen : length lens = length res) by apply length_map.
  destruct ii as [|k]; [reflexivity|]. cbn [nth].
  rewrite nth_lookup, removelast_firstn_len.
  change (firstn ?n ?l) with (take n l).
  rewrite lookup_take_lt by (rewrite cumsum_from_length; lia).
  rewrite cumsum_from_lookup by lia. reflexivity.
Qed.

Lemma collect_spec offsets : forall rest ii nodes diams edges ids,
  collect offsets ii rest = (nodes, diams, edges, ids) ->
  concat nodes = concat (map (fun el => sk_nodes (snd el)) rest)
  /\ concat ids
     = concat (map (fun el => replicate (length (sk_nodes (snd el))) (fst el)) rest)
  /\ (forall e, e ∈ concat edges <->
        exists k sv el, rest !! k = Some (sv, el) /\ sk_nodes el <> []
          /\ e ∈ shift (nth (ii + k) offsets 0%nat) (sk_edges el))
  /\ ((forall el, el ∈ rest -> sk_nodes (snd el) = []) -> nodes = [])
  /\ (nodes <> [] -> diams <> [] /\ edges <> [] /\ ids <> []).
Proof.
  induction rest as [|[sv el] rest IH]; intros ii nodes diams edges ids H.
  - injection H as <- <- <- <-. split; [reflexivity|]. split; [reflexivity|].
    split; [|split; [reflexivity|intros Hc; destruct Hc; reflexivity]].
    intros e. split; [intros He; inversion He|].
    intros (k & sv & el & Hk & _). rewrite lookup_nil in Hk. discriminate.
  - cbn [collect] in H.
    destruct (collect offsets (S ii) rest) as [[[nodes' diams'] edges'] ids'] eqn:Hc.
    destruct (IH _ _ _ _ _ Hc) as (Hn & Hi & He & Hnil & Hne).
    assert (Hshift : forall e,
      (exists k sv0 el0, ((sv, el) :: rest) !! k = Some (sv0, el0) /\ sk_nodes el0 <> []
         /\ e ∈ shift (nth (ii + k) offsets 0%nat) (sk_edges el0))
      <-> (sk_nodes el <> [] /\ e ∈ shift (nth ii offsets 0%nat) (sk_edges el))
          \/ e ∈ concat edges').
    { intros e. rewrite He. split.
      - intros (k & sv0 & el0 & Hk & Hne0 & Hin). destruct k as [|k].
        + injection Hk as <- <-. rewrite Nat.add_0_r in Hin. auto.
        + right. exists k, sv0, el0. simpl in Hk.
          replace (S ii + k)%nat with (ii + S k)%nat by lia. auto.
      - intros [[Hne0 Hin]|(k & sv0 & el0 & Hk & Hne0 & Hin)].
        + exists 0%nat, sv, el. rewrite Nat.add_0_r. auto.
        + exists (S k), sv0, el0.
          replace (ii + S k)%nat with (S ii + k)%nat by lia. auto. }
    destruct (Nat.eqb_spec (length (sk_nodes el)) 0) as [Hz|Hz].
    + injection H as <- <- <- <-.
      assert (Hel : sk_nodes el = []) by (destruct (sk_nodes el); [reflexivity|discriminate]).
      cbn [map concat fst snd]. rewrite Hel. simpl.
      split; [exact Hn|]. split; [exact Hi|]. split; [|split; [|exact Hne]].
      * intros e. rewrite Hshift. split; [auto|]. intros [[Hc' _]|Hin]; [|exact Hin].
        destruct Hc'. exact Hel.
      * intros Hall. apply Hnil. intros el0 Hel0. apply Hall. right. exact Hel0.
    + injection H as <- <- <- <-. cbn [map concat fst snd].
      rewrite Hn, Hi. split; [reflexivity|]. split; [reflexivity|].
      split; [|split].
      * intros e. rewrite Hshift, elem_of_app. split.
        -- intros [Hin|Hin]; [left|right; exact Hin].
           split; [|exact Hin]. intros Hel. rewrite Hel in Hz. apply Hz. reflexivity.
        -- intros [[_ Hin]|Hin]; auto.
      * intros Hall. exfalso. apply Hz.
        assert (Hel : sk_nodes (snd (sv, el)) = []) by (apply Hall; left).
        cbn [snd] in Hel. rewrite Hel. reflexivity.
      * intros _. repeat split; discriminate.
Qed.

Lemma concat_lookup_middle {A B} (f : B -> list A) (l : list B) ii x a :
  l !! ii = Some x ->
  concat (map f l) !! (length (concat (map f (take ii l))) + a)%nat
  = if decide (a < length (f x))%nat then f x !! a
    else concat (map f (drop (S ii) l)) !! (a - length (f x))%nat.
Proof.
  intros Hx.
  assert (Hl : map f l = map f (take ii l) ++ f x :: map f (drop (S ii) l)).
  { rewrite <- (map_cons f), <- map_app, take_drop_middle by exact Hx. reflexivity. }
  rewrite Hl at 1. rewrite concat_app. cbn [concat].
  rewrite lookup_app_r by lia.
  replace (length (concat (map f (take ii l))) + a
           - length (concat (map f (take ii l))))%nat with a by lia.
  destruct (decide (a < length (f x))%nat).
  - apply lookup_app_l. assumption.
  - rewrite lookup_app_r by lia. reflexivity.
Qed.

Lemma ids_length (l : list fragment) :
  length (concat (map (fun el => replicate (length (sk_nodes (snd el))) (fst el)) l))
  = length (concat (map (fun el => sk_nodes (snd el)) l)).
Proof.
  induction l as [|el l IH]; [reflexivity|]. simpl.
  rewrite !length_app, length_replicate, IH. reflexivity.
Qed.

Lemma bridges_in_range nodes sv_id_arr scaling max_edge_length sv_graph i j :
  (i, j) ∈ concat (bridges nodes sv_id_arr scaling max_edge_length sv_graph) ->
  (i < length sv_id_arr)%nat /\ (j < length sv_id_arr)%nat.
Proof.
  rewrite list_elem_of_In, in_concat. intros (l & Hl & Hin).
  apply list_elem_of_In in Hl. apply list_elem_of_In in Hin. unfold bridges in Hl.
  apply list_elem_of_omap in Hl as (e & _ & He).
  destruct (Stitch.bridge _ _ _ _ _ _) as [pr|] eqn:Hb; [|discriminate].
  injection He as <-. apply list_elem_of_singleton in Hin as <-.
  apply bridge_added_exact in Hb as (c & Hc & [= -> ->] & _).
  apply closest_pair_spec in Hc as (H1 & H2 & _).
  split; eapply lookup_lt_Some; eassumption.
Qed.

(** The arrays that [from_sso_to_netkx_fast] assembles from the skeletons
    of the supervoxels, whose edges index their own nodes.  Without a
    supervoxel that has a node, [np.concatenate] ends the call in
    [ValueError] (so the test for an empty node array that follows is never
    met with one).  Otherwise the node array is the concatenation of the node
    arrays, every edge of the edge array joins two indices of the node
    array, and a supervoxel finds its nodes, tagged with its id, and its
    edges at the offset given by the number of nodes before it. *)
Theorem merged_skeleton_consistent (res : list fragment)
    (sv_graph : list (nat * nat)) (scaling : Pos) (max_edge_length : Z) :
  (forall sv el a b, (sv, el) ∈ res -> (a, b) ∈ sk_edges el ->
     (a < length (sk_nodes el))%nat /\ (b < length (sk_nodes el))%nat) ->
  ((forall el, el ∈ res -> sk_nodes (snd el) = []) ->
   merged_skeleton res sv_graph scaling max_edge_length = inl ValueError)
  /\ ((exists el, el ∈ res /\ sk_nodes (snd el) <> []) ->
      exists sk ids,
        merged_skeleton res sv_graph scaling max_edge_length = inr (sk, ids)
        /\ sk_nodes sk = concat (map (fun el => sk_nodes (snd el)) res)
        /\ sk_nodes sk <> []
        /\ length ids = length (sk_nodes sk)
        /\ (forall i j, (i, j) ∈ sk_edges sk ->
              (i < length (sk_nodes sk))%nat /\ (j < length (sk_nodes sk))%nat)
        /\ (forall ii sv el, res !! ii = Some (sv, el) ->
              (forall a p, sk_nodes el !! a = Some p ->
                 sk_nodes sk !! (nodes_before res ii + a)%nat = Some p
                 /\ ids !! (nodes_before res ii + a)%nat = Some sv)
              /\ (forall a b, (a, b) ∈ sk_edges el ->
                    (a + nodes_before res ii, b + nodes_before res ii)%nat
                    ∈ sk_edges sk))).
Proof.
  intros Hwf. unfold merged_skeleton.
  destruct (collect (n_nodes_per_sv res) 0 res) as [[[nodes diams] edges] ids] eqn:Hc.
  destruct (collect_spec _ _ _ _ _ _ _ Hc) as (Hn & Hi & He & Hnil & Hne).
  split.
  { intros Hall. rewrite (Hnil Hall). reflexivity. }
  intros (el0 & Hel0 & Hne0).
  assert (Hcat : concat nodes <> []).
  { rewrite Hn. intros Hcat. apply Hne0.
    apply list_elem_of_lookup_1 in Hel0 as [k Hk].
    pose proof (concat_lookup_middle (fun el => sk_nodes (snd el)) res k el0 0 Hk) as Hl.
    rewrite Hcat, lookup_nil in Hl.
    destruct (decide (0 < length (sk_nodes el0.2))%nat) as [Hpos|Hz].
    - symmetry in Hl. apply lookup_ge_None in Hl. lia.
    - destruct (sk_nodes el0.2); [reflexivity|simpl in Hz; lia]. }
  assert (Hnodes : nodes <> []) by (intros ->; apply Hcat; reflexivity).
  destruct (Hne Hnodes) as (Hd & Hed & Hids).
  destruct nodes as [|n0 nodes]; [contradiction|].
  destruct diams as [|d0 diams]; [contradiction|].
  destruct ids as [|i0 ids]; [contradiction|].
  cbn [np_concatenate].
  set (edges' := if (1 <? length res)%nat
                 then edges ++ bridges (concat (n0 :: nodes)) (concat (i0 :: ids)) scaling max_edge_length sv_graph
                 else edges).
  assert (Hedges' : edges' <> []).
  { unfold edges'. destruct (1 <? length res)%nat; [|exact Hed].
    destruct edges; [contradiction|discriminate]. }
  assert (Hrun : np_concatenate edges' = inr (concat edges')).
  { destruct edges'; [contradiction|reflexivity]. }
  rewrite Hrun. eexists _, _. split; [reflexivity|]. cbn [sk_nodes sk_edges].
  assert (Hlen : length (concat (i0 :: ids)) = length (concat (n0 :: nodes))).
  { rewrite Hi, Hn. apply ids_length. }
  assert (Hfrag : forall ii sv el, res !! ii = Some (sv, el) ->
    forall a p, sk_nodes el !! a = Some p ->
      (concat (n0 :: nodes)) !! (nodes_before res ii + a)%nat = Some p
      /\ (concat (i0 :: ids)) !! (nodes_before res ii + a)%nat = Some sv).
  { intros ii sv el Hii a p Ha.
    assert (Hlt : (a < length (sk_nodes el))%nat) by (eapply lookup_lt_Some, Ha).
    split.
    - rewrite Hn. unfold nodes_before.
      pose proof (concat_lookup_middle (fun el => sk_nodes (snd el)) res ii
                    (sv, el) a Hii) as Hm.
      cbn [snd] in Hm. rewrite decide_True in Hm by exact Hlt.
      rewrite <- Ha. exact Hm.
    - rewrite Hi. unfold nodes_before.
      rewrite <- (ids_length (take ii res)).
      pose proof (concat_lookup_middle
                    (fun el => replicate (length (sk_nodes (snd el))) (fst el))
                    res ii (sv, el) a Hii) as Hm.
      cbn [fst snd] in Hm.
      rewrite length_replicate, decide_True in Hm by exact Hlt.
      etransitivity; [exact Hm|]. apply lookup_replicate_2, Hlt. }
  assert (Hfe : forall e, e ∈ concat edges ->
    (fst e < length (concat (n0 :: nodes)))%nat /\ (snd e < length (concat (n0 :: nodes)))%nat).
  { intros e (k & sv & el & Hk & _ & Hin)%He.
    unfold shift in Hin. apply list_elem_of_fmap in Hin as ([a b] & -> & Hab).
    cbn [fst snd]. rewrite Nat.add_0_l.
    rewrite (n_nodes_per_sv_nth res k) by (eapply lookup_lt_Some, Hk).
    destruct (Hwf sv el a b) as [Ha Hb]; [eapply list_elem_of_lookup_2, Hk|exact Hab|].
    destruct (lookup_lt_is_Some_2 _ _ Ha) as [pa Hpa].
    destruct (lookup_lt_is_Some_2 _ _ Hb) as [pb Hpb].
    destruct (Hfrag k sv el Hk a pa Hpa) as [Hna _].
    destruct (Hfrag k sv el Hk b pb Hpb) as [Hnb _].
    apply lookup_lt_Some in Hna, Hnb. lia. }
  split; [exact Hn|]. split; [exact Hcat|]. split; [exact Hlen|]. split; [|split].
  - intros i j Hij. unfold edges' in Hij.
    assert (Hcase : (i, j) ∈ concat edges
              \/ (i, j) ∈ concat (bridges (concat (n0 :: nodes)) (concat (i0 :: ids)) scaling max_edge_length sv_graph)).
    { destruct (1 <? length res)%nat; [|auto].
      rewrite concat_app in Hij. apply elem_of_app in Hij. exact Hij. }
    destruct Hcase as [Hin|Hin]; [apply (Hfe (i, j) Hin)|].
    apply bridges_in_range in Hin. rewrite <- Hlen. exact Hin.
  - apply Hfrag; assumption.
  - intros a b Hab.
    assert (Hin : (a + nodes_before res ii, b + nodes_before res ii)%nat ∈ concat edges).
    { apply He. exists ii, sv, el. split; [assumption|]. split.
      - intros Hel. destruct (Hwf sv el a b) as [Ha _];
          [eapply list_elem_of_lookup_2; eassumption|exact Hab|].
        rewrite Hel in Ha. simpl in Ha. lia.
      - rewrite Nat.add_0_l, (n_nodes_per_sv_nth res ii)
          by (eapply lookup_lt_Some; eassumption).
        unfold shift. apply list_elem_of_fmap. exists (a, b). auto. }
    unfold edges'. destruct (1 <? length res)%nat; [|exact Hin].
    rewrite concat_app. apply elem_of_app. auto.
Qed.

Lemma merged_skeleton_consistent_witness :
  let res := Examples.three_supervoxels in
  ((forall el, el ∈ res -> sk_nodes (snd el) = []) ->
   merged_skeleton res [(7%nat, 9%nat)] (10, 10, 20) 1500 = inl ValueError)
  /\ ((exists el, el ∈ res /\ sk_nodes (snd el) <> []) ->
      exists sk ids,
        merged_skeleton res [(7%nat, 9%nat)] (10, 10, 20) 1500 = inr (sk, ids)
        /\ sk_nodes sk = concat (map (fun el => sk_nodes (snd el)) res)
        /\ sk_nodes sk <> []
        /\ length ids = length (sk_nodes sk)
        /\ (forall i j, (i, j) ∈ sk_edges sk ->
              (i < length (sk_nodes sk))%nat /\ (j < length (sk_nodes sk))%nat)
        /\ (forall ii sv el, res !! ii = Some (sv, el) ->
              (forall a p, sk_nodes el !! a = Some p ->
                 sk_nodes sk !! (nodes_before res ii + a)%nat = Some p
                 /\ ids !! (nodes_before res ii + a)%nat = Some sv)
              /\ (forall a b, (a, b) ∈ sk_edges el ->
                    (a + nodes_before res ii, b + nodes_before res ii)%nat
                    ∈ sk_edges sk))).
Proof.
  apply (merged_skeleton_consistent Examples.three_supervoxels
           [(7%nat, 9%nat)] (10, 10, 20) 1500).
  intros sv el a b Hin Hab.
  repeat (apply elem_of_cons in Hin as [[= -> ->]|Hin];
          [simpl in Hab |- *;
           repeat (apply elem_of_cons in Hab as [[= -> ->]|Hab]; [lia|]);
           inversion Hab|]).
  inversion Hin.
Defined.

End FragmentFacts.

(** ** Sparsening a skeleton *)

Section SparsifyFacts.
Import NX Sparsify.

Lemma neighbors_elem {A} (g : Graph A) v x :
  x ∈ neighbors g v <-> sc (linked (edges g)) v x.
Proof.
  unfold neighbors, sc, linked. rewrite list_elem_of_In, in_flat_map. split.
  - intros ([a b] & He & Hin). rewrite <- list_elem_of_In in He. cbn [fst snd] in Hin.
    destruct (Nat.eqb_spec a v) as [->|Ha].
    + destruct Hin as [<-|[]]. left. exact He.
    + destruct (Nat.eqb_spec b v) as [->|Hb]; [|destruct Hin].
      destruct Hin as [<-|[]]. right. exact He.
  - intros [He|He].
    + exists (v, x). rewrite <- list_elem_of_In. split; [exact He|].
      cbn [fst snd]. rewrite Nat.eqb_refl. left. reflexivity.
    + exists (x, v). rewrite <- list_elem_of_In. split; [exact He|].
      cbn [fst snd]. destruct (Nat.eqb_spec x v) as [->|Hx]; [left; reflexivity|].
      rewrite Nat.eqb_refl. left. reflexivity.
Qed.

Lemma has_edge_spec {A} (g : Graph A) u w :
  has_edge g u w = true <-> sc (linked (edges g)) u w.
Proof.
  unfold has_edge, sc, linked. rewrite existsb_exists. split.
  - intros ([a b] & He & Hab). rewrite <- list_elem_of_In in He. cbn [fst snd] in Hab.
    apply orb_true_iff in Hab as [Hab|Hab]; apply andb_true_iff in Hab as [H1 H2];
      apply Nat.eqb_eq in H1, H2; subst; auto.
  - intros [He|He].
    + exists (u, w). rewrite <- list_elem_of_In. split; [exact He|].
      cbn [fst snd]. rewrite !Nat.eqb_refl. reflexivity.
    + exists (w, u). rewrite <- list_elem_of_In. split; [exact He|].
      cbn [fst snd]. rewrite !Nat.eqb_refl. apply orb_true_r.
Qed.

Lemma add_edge_nodes {A} (g : Graph A) u w : nodes (add_edge g u w) = nodes g.
Proof. unfold add_edge. destruct (has_edge g u w); reflexivity. Qed.

Lemma add_edge_edges {A} (g : Graph A) u w e :
  e ∈ edges (add_edge g u w) <->
  e ∈ edges g \/ (e = (u, w) /\ has_edge g u w = false).
Proof.
  unfold add_edge. destruct (has_edge g u w) eqn:Hh; simpl.
  - split; [auto|]. intros [H|[_ H]]; [exact H|discriminate].
  - rewrite elem_of_app, list_elem_of_singleton. tauto.
Qed.

Lemma add_edge_linked {A} (g : Graph A) u w :
  sc (linked (edges (add_edge g u w))) u w.
Proof.
  destruct (has_edge g u w) eqn:Hh.
  - apply has_edge_spec in Hh. destruct Hh as [H|H]; [left|right];
      apply add_edge_edges; auto.
  - left. apply add_edge_edges. auto.
Qed.

Lemma remove_node_edges {A} (g : Graph A) v e :
  e ∈ edges (remove_node g v) <-> e ∈ edges g /\ fst e <> v /\ snd e <> v.
Proof. unfold remove_node. simpl. rewrite list_elem_of_filter. tauto. Qed.

Lemma connected_sym es x y : connected es x y -> connected es y x.
Proof. unfold connected. intros H. symmetry. exact H. Qed.

Lemma connected_step es x y : sc (linked es) x y -> connected es x y.
Proof. intros H. apply rtc_once. exact H. Qed.

Section Bypass.

Context {A : Type} (g : Graph A) (v l r : nat).
Hypothesis Hnb : neighbors g v = [l; r].

Local Abbreviation g1 := (add_edge (remove_node g v) l r).

Lemma bypass_left : sc (linked (edges g)) v l.
Proof. apply neighbors_elem. rewrite Hnb. left. Qed.

Lemma bypass_right : sc (linked (edges g)) v r.
Proof. apply neighbors_elem. rewrite Hnb. right. left. Qed.

Lemma bypass_ends z : sc (linked (edges g)) v z -> z = l \/ z = r.
Proof.
  intros Hz%neighbors_elem. rewrite Hnb in Hz.
  apply elem_of_cons in Hz as [->|Hz]; [auto|].
  apply list_elem_of_singleton in Hz. auto.
Qed.

Lemma bypass_back x y :
  connected (edges g1) x y -> connected (edges g) x y.
Proof.
  assert (Hlr : connected (edges g) l r).
  { transitivity v; [apply connected_sym|]; apply connected_step;
      [apply bypass_left|apply bypass_right]. }
  assert (Hedge : forall a b, linked (edges g1) a b -> connected (edges g) a b).
  { intros a b Hab. apply add_edge_edges in Hab as [Hab|[[= -> ->] _]]; [|exact Hlr].
    apply remove_node_edges in Hab as [Hab _]. apply connected_step. left. exact Hab. }
  intros H. induction H as [x|x z y Hstep _ IH]; [reflexivity|].
  transitivity z; [|exact IH].
  destruct Hstep as [Hstep|Hstep]; [|apply connected_sym]; apply Hedge, Hstep.
Qed.

Lemma bypass_forth x y :
  connected (edges g) x y -> x <> v -> y <> v -> connected (edges g1) x y.
Proof.
  intros H Hx.
  assert (Hlr : connected (edges g1) l r) by (apply connected_step, add_edge_linked).
  assert (Hkeep : forall a b, a <> v -> b <> v ->
            sc (linked (edges g)) a b -> connected (edges g1) a b).
  { intros a b Ha Hb Hab. apply connected_step.
    destruct Hab as [Hab|Hab]; [left|right]; apply add_edge_edges; left;
      apply remove_node_edges; cbn [fst snd]; auto. }
  assert (Hto : forall z, z = l \/ z = r -> connected (edges g1) z l).
  { intros z [->| ->]; [reflexivity|apply connected_sym, Hlr]. }
  enough (HP : (y <> v -> connected (edges g1) x y)
               /\ (y = v -> connected (edges g1) x l)) by apply HP.
  revert y H. apply (rtc_ind_r (fun y => (y <> v -> connected (edges g1) x y)
                                  /\ (y = v -> connected (edges g1) x l))).
  - split; [reflexivity|]. intros ->. contradiction.
  - intros z y _ Hstep [IH1 IH2].
    destruct (decide (z = v)) as [->|Hz].
    + split; [|intros _; apply IH2; reflexivity].
      intros Hy. transitivity l; [apply IH2; reflexivity|].
      apply connected_sym, Hto, bypass_ends, Hstep.
    + split.
      * intros Hy. transitivity z; [apply IH1, Hz|]. apply Hkeep; assumption.
      * intros ->. transitivity z; [apply IH1, Hz|].
        apply Hto, bypass_ends. destruct Hstep; [right|left]; assumption.
Qed.

End Bypass.

Lemma norm_edge_eq a b c d :
  norm_edge (a, b) = norm_edge (c, d) <-> (a, b) = (c, d) \/ (a, b) = (d, c).
Proof.
  unfold norm_edge. cbn [fst snd]. split.
  - intros [= H1 H2].
    destruct (Nat.le_ge_cases a b), (Nat.le_ge_cases c d);
      [left|right|right|left]; f_equal; lia.
  - intros [[= -> ->]|[= -> ->]]; [reflexivity|]. f_equal; lia.
Qed.

Lemma simple_spec {A} (g : Graph A) :
  simple g = true <->
  wf_graph g = true
  /\ (forall e, e ∈ edges g -> fst e <> snd e)
  /\ NoDup (map norm_edge (edges g)).
Proof.
  unfold simple. rewrite !andb_true_iff, forallb_forall, bool_decide_eq_true.
  split.
  - intros [[Hwf Hloop] Hnd]. split; [exact Hwf|]. split; [|exact Hnd].
    intros e He. apply list_elem_of_In, Hloop in He.
    apply negb_true_iff, Nat.eqb_neq in He. exact He.
  - intros (Hwf & Hloop & Hnd). split; [split; [exact Hwf|]|exact Hnd].
    intros e He. apply negb_true_iff, Nat.eqb_neq, Hloop, list_elem_of_In, He.
Qed.

Lemma sc_linked_norm es a b :
  sc (linked es) a b <-> norm_edge (a, b) ∈ map norm_edge es /\
                         exists e, e ∈ es /\ norm_edge e = norm_edge (a, b).
Proof.
  split.
  - intros [H|H].
    + split; [apply list_elem_of_fmap; exists (a, b); auto|eauto].
    + assert (Hn : norm_edge (b, a) = norm_edge (a, b)) by (apply norm_edge_eq; auto).
      split; [apply list_elem_of_fmap; exists (b, a); auto|eauto].
  - intros [_ ([c d] & He & Hn)]. apply norm_edge_eq in Hn as [[= -> ->]|[= -> ->]];
      [left|right]; exact He.
Qed.

(** In a simple graph the neighbours of a node are distinct, the node is
    not among them, and its degree is their number. *)
Lemma simple_neighbors {A} (g : Graph A) v :
  simple g = true ->
  NoDup (neighbors g v) /\ (v ∉ neighbors g v)
  /\ degree g v = length (neighbors g v).
Proof.
  intros (_ & Hloop & Hnd)%simple_spec. split; [|split].
  - destruct g as [ns es]. cbn [edges] in *. unfold neighbors. cbn [edges].
    induction es as [|[a b] es IH]; [constructor|].
    cbn [map] in Hnd. apply NoDup_cons in Hnd as [Hab Hnd].
    specialize (IH (fun e He => Hloop e (list_elem_of_further _ _ _ He)) Hnd).
    cbn [flat_map fst snd].
    assert (Hnew : forall x, norm_edge (v, x) = norm_edge (a, b) ->
              x ∉ flat_map (fun e => if (fst e =? v)%nat then [snd e]
                                     else if (snd e =? v)%nat then [fst e] else []) es).
    { intros x Hn Hin.
      apply (neighbors_elem (mkGraph ns es) v x), sc_linked_norm in Hin as [Hin _].
      cbn [edges] in Hin. rewrite Hn in Hin. contradiction. }
    destruct (Nat.eqb_spec a v) as [->|Ha].
    + cbn [app]. apply NoDup_cons. split; [apply Hnew; reflexivity|exact IH].
    + destruct (Nat.eqb_spec b v) as [->|Hb]; [|exact IH].
      cbn [app]. apply NoDup_cons. split; [|exact IH].
      apply Hnew, norm_edge_eq. auto.
  - intros [H|H]%neighbors_elem; apply Hloop in H; apply H; reflexivity.
  - unfold degree.
    assert (Hf : filter (fun e : nat * nat => fst e = v /\ snd e = v) (edges g) = []).
    { clear -Hloop. revert Hloop. generalize (edges g) as es.
      induction es as [|e es IH]; intros Hloop; [reflexivity|].
      rewrite filter_cons, decide_False.
      - apply IH. intros e' He'. apply Hloop. right. exact He'.
      - intros [H1 H2]. apply (Hloop e); [left|congruence]. }
    rewrite Hf. simpl. lia.
Qed.

Lemma remove_node_ids' {A} (g : Graph A) n x :
  x ∈ node_ids (remove_node g n) <-> x ∈ node_ids g /\ x <> n.
Proof.
  unfold node_ids. rewrite !list_elem_of_fmap. split.
  - intros (nd & -> & Hin). apply remove_node_nodes in Hin as [Hin Hne]. eauto.
  - intros [(nd & -> & Hin) Hne]. exists nd. split; [reflexivity|].
    apply remove_node_nodes. auto.
Qed.

(** The step of the loop keeps the graph simple. *)
Lemma simple_bypass {A} (g : Graph A) v l r :
  simple g = true -> neighbors g v = [l; r] ->
  simple (add_edge (remove_node g v) l r) = true
  /\ l <> v /\ r <> v /\ l <> r
  /\ v ∈ node_ids g /\ l ∈ node_ids g /\ r ∈ node_ids g.
Proof.
  intros Hs Hnb. destruct (simple_neighbors g v Hs) as (Hnd & Hv & _).
  pose proof (proj1 (simple_spec g) Hs) as (Hwf & Hloop & Hnorm).
  destruct (wf_graph_spec g Hwf) as [Hids Hends].
  rewrite Hnb in Hnd, Hv.
  assert (Hlv : l <> v) by (intros ->; apply Hv; left).
  assert (Hrv : r <> v) by (intros ->; apply Hv; right; left).
  assert (Hlr : l <> r).
  { apply NoDup_cons in Hnd as [Hl _]. intros ->. apply Hl. left. }
  assert (Hin : forall z, sc (linked (edges g)) v z -> v ∈ node_ids g /\ z ∈ node_ids g).
  { intros z [H|H]; apply Hends in H; cbn [fst snd] in H; tauto. }
  destruct (Hin l (bypass_left g v l r Hnb)) as [Hvg Hlg].
  destruct (Hin r (bypass_right g v l r Hnb)) as [_ Hrg].
  split; [|auto 10].
  pose proof (remove_node_wf g v Hwf) as Hwf'.
  destruct (wf_graph_spec _ Hwf') as [Hids' Hends'].
  apply simple_spec. split; [|split].
  - apply wf_graph_intro.
    + unfold node_ids. rewrite add_edge_nodes. exact Hids'.
    + intros e He. unfold node_ids. rewrite add_edge_nodes.
      apply add_edge_edges in He as [He|[-> _]]; [apply Hends', He|].
      cbn [fst snd]. fold (node_ids (remove_node g v)).
      rewrite !remove_node_ids'. auto.
  - intros e He. apply add_edge_edges in He as [He|[-> _]]; [|exact Hlr].
    apply remove_node_edges in He as [He _]. apply Hloop, He.
  - assert (Hsub : NoDup (map norm_edge (edges (remove_node g v)))).
    { eapply sublist_NoDup; [exact Hnorm|]. apply (fmap_sublist norm_edge).
      unfold remove_node. cbn [edges]. apply sublist_filter. }
    unfold add_edge. destruct (has_edge (remove_node g v) l r) eqn:Hh; [exact Hsub|].
    cbn [edges]. rewrite map_app. apply NoDup_app. split; [exact Hsub|].
    split; [|apply NoDup_singleton].
    intros x Hx Hx'. apply list_elem_of_singleton in Hx'. subst x.
    apply list_elem_of_fmap in Hx as ([c d] & Hn & Hcd).
    assert (Hsc : sc (linked (edges (remove_node g v))) l r).
    { apply sc_linked_norm. split; [|eauto].
      apply list_elem_of_fmap. exists (c, d). auto. }
    apply has_edge_spec in Hsc. congruence.
Qed.

Lemma sparser_refl (g : Graph Pos) : simple g = true -> sparser g g.
Proof.
  intros Hs. split; [exact Hs|]. split; [|split].
  - exists []. induction (nodes g) as [|a l IH]; [reflexivity|].
    rewrite filter_cons, decide_True by (intros Hn; inversion Hn).
    f_equal. exact IH.
  - tauto.
  - intros x Hx. exists x. split; [exact Hx|reflexivity].
Qed.

Section Loop.

Variables (scal : Pos) (dot_prod_thresh : Q)
          (max_dist_thresh min_dist_thresh : Z).

Local Abbreviation visit :=
  (Sparsify.visit scal dot_prod_thresh max_dist_thresh min_dist_thresh).
Local Abbreviation visit_all :=
  (Sparsify.visit_all scal dot_prod_thresh max_dist_thresh min_dist_thresh).
Local Abbreviation settled :=
  (Sparsify.settled scal dot_prod_thresh max_dist_thresh min_dist_thresh).

Lemma visit_spec (g h : Graph Pos) c v :
  sparser g h ->
  exists h' c',
    visit (h, c) v = Ok (h', c')
    /\ sparser g h'
    /\ (length (nodes h') + c' <= length (nodes h) + c)%nat
    /\ (c <= c')%nat
    /\ (c' = c -> h' = h /\ settled h v).
Proof.
  intros (Hs & [gone HS] & Hconn & Hcover).
  assert (Hsame : exists h' c',
    Ok (h, c) = Ok (h', c') /\ sparser g h'
    /\ (length (nodes h') + c' <= length (nodes h) + c)%nat
    /\ (c <= c')%nat
    /\ (c' = c -> h' = h)).
  { exists h, c. split; [reflexivity|]. split; [|auto].
    split; [exact Hs|]. split; [exists gone; exact HS|]. auto. }
  unfold Sparsify.visit.
  destruct (Nat.eqb_spec (degree h v) 2) as [Hdeg|Hdeg].
  2:{ destruct Hsame as (h' & c' & He & Hh & Hl & Hc & Hu). exists h', c'.
      split; [exact He|]. split; [exact Hh|]. split; [exact Hl|].
      split; [exact Hc|]. intros Hcc. split; [auto|]. intros Hd.
      destruct (Hu Hcc). contradiction. }
  destruct (simple_neighbors h v Hs) as (_ & _ & Hlen). rewrite Hdeg in Hlen.
  destruct (neighbors h v) as [|l [|r [|? ?]]] eqn:Hnb; try discriminate.
  destruct (removable h scal dot_prod_thresh max_dist_thresh min_dist_thresh v l r)
    eqn:Hrm.
  2:{ destruct Hsame as (h' & c' & He & Hh & Hl & Hc & Hu). exists h', c'.
      split; [exact He|]. split; [exact Hh|]. split; [exact Hl|].
      split; [exact Hc|]. intros Hcc. destruct (Hu Hcc). split; [reflexivity|].
      intros _. exists l, r. rewrite Hnb. auto. }
  destruct (simple_bypass h v l r Hs Hnb)
    as (Hs' & Hlv & Hrv & Hlr & Hvh & Hlh & Hrh).
  set (h' := add_edge (remove_node h v) l r).
  assert (Hids : forall x, x ∈ node_ids h' <-> x ∈ node_ids h /\ x <> v).
  { intros x. unfold node_ids, h'. rewrite add_edge_nodes.
    apply remove_node_ids'. }
  exists h', (S c). split; [reflexivity|]. split; [|split; [|split; [lia|lia]]].
  - split; [exact Hs'|]. split; [|split].
    + exists (gone ++ [v]). unfold h'. rewrite add_edge_nodes.
      unfold remove_node. cbn [nodes]. rewrite HS.
      rewrite <- (filter_filter_app fst gone [v]). apply filter_iff_in.
      intros x _. rewrite list_elem_of_singleton. tauto.
    + intros x y [Hx Hxv]%Hids [Hy Hyv]%Hids. rewrite <- (Hconn x y Hx Hy).
      split; [apply bypass_back, Hnb|intros H; apply bypass_forth; assumption].
    + intros x Hx. destruct (Hcover x Hx) as (y & Hy & Hxy).
      destruct (decide (y = v)) as [->|Hyv].
      * exists l. split; [apply Hids; auto|].
        transitivity v; [exact Hxy|]. apply (Hconn v l Hvh Hlh).
        apply connected_step, (bypass_left h v l r Hnb).
      * exists y. split; [apply Hids; auto|exact Hxy].
  - pose proof (remove_node_length_lt h v Hvh) as Hlt.
    unfold h'. rewrite add_edge_nodes. lia.
Qed.

Lemma visit_all_spec (g : Graph Pos) vs : forall h c,
  sparser g h ->
  exists h' c',
    visit_all (h, c) vs = Ok (h', c')
    /\ sparser g h'
    /\ (length (nodes h') + c' <= length (nodes h) + c)%nat
    /\ (c <= c')%nat
    /\ (c' = c -> h' = h /\ forall v, v ∈ vs -> settled h v).
Proof.
  induction vs as [|v vs IH]; intros h c Hh.
  - exists h, c. split; [reflexivity|]. split; [exact Hh|]. split; [lia|].
    split; [lia|]. intros _. split; [reflexivity|]. intros v Hv. inversion Hv.
  - destruct (visit_spec g h c v Hh) as (h1 & c1 & Hv & Hh1 & Hl1 & Hc1 & Hu1).
    destruct (IH h1 c1 Hh1) as (h' & c' & Hvs & Hh' & Hl & Hc & Hu).
    exists h', c'. cbn [Sparsify.visit_all]. rewrite Hv. cbn [mbind result_bind].
    split; [exact Hvs|]. split; [exact Hh'|]. split; [lia|]. split; [lia|].
    intros Hcc. assert (Hc1c : c1 = c) by lia.
    destruct (Hu1 Hc1c) as [-> Hset]. destruct (Hu ltac:(lia)) as [-> Hrest].
    split; [reflexivity|]. intros w [->|Hw]%elem_of_cons; auto.
Qed.

Lemma sparsify_loop_spec set_order (g : Graph Pos) : forall fuel h,
  sparser g h -> (length (nodes h) < fuel)%nat ->
  exists g',
    sparsify_loop set_order fuel scal dot_prod_thresh max_dist_thresh
                  min_dist_thresh h = Ok g'
    /\ sparser g g'
    /\ forall v, v ∈ visiting_nodes set_order g' -> settled g' v.
Proof.
  induction fuel as [|fuel IH]; intros h Hh Hfuel; [lia|].
  cbn [sparsify_loop].
  destruct (visit_all_spec g (visiting_nodes set_order h) h 0 Hh)
    as (h' & c' & Hv & Hh' & Hl & _ & Hu).
  rewrite Hv. cbn [mbind result_bind fst snd].
  destruct (Nat.ltb_spec 0 c') as [Hpos|Hz].
  - apply IH; [exact Hh'|lia].
  - exists h'. split; [reflexivity|]. split; [exact Hh'|].
    destruct (Hu ltac:(lia)) as [-> Hset]. exact Hset.
Qed.

End Loop.

(** [sparsify_skeleton_fast] on a simple graph, in whatever order the
    nodes of degree 2 are visited: the call returns a graph and raises
    nothing.  The graph it returns is simple; its nodes are nodes of the
    input, in their order and with their positions; two of its nodes are
    joined by a chain of edges exactly when they were in the input; and every
    node of the input was connected to one of them.  Sparsening a skeleton of
    one connected component leaves one connected component. *)
Theorem sparsify_keeps_connectivity (set_order : list nat -> list nat)
    (g : Graph Pos) (scal : Pos) (dot_prod_thresh : Q)
    (max_dist_thresh min_dist_thresh : Z) :
  simple g = true ->
  exists g',
    sparsify_skeleton_fast set_order g scal dot_prod_thresh max_dist_thresh
                           min_dist_thresh = Ok g'
    /\ simple g' = true
    /\ nodes g' = filter (fun np => fst np ∈ node_ids g') (nodes g)
    /\ (forall x y, x ∈ node_ids g' -> y ∈ node_ids g' ->
          connected (edges g') x y <-> connected (edges g) x y)
    /\ (forall x, x ∈ node_ids g ->
          exists y, y ∈ node_ids g' /\ connected (edges g) x y)
    /\ (number_connected_components g = 1%nat ->
        number_connected_components g' = 1%nat).
Proof.
  intros Hs.
  destruct (sparsify_loop_spec scal dot_prod_thresh max_dist_thresh
              min_dist_thresh set_order g (S (length (nodes g))) g
              (sparser_refl g Hs) ltac:(lia))
    as (g' & Hrun & (Hs' & [gone HS] & Hconn & Hcover) & _).
  exists g'. split; [exact Hrun|]. split; [exact Hs'|].
  assert (Hids : forall x, x ∈ node_ids g' <-> x ∈ node_ids g /\ (x ∉ gone)).
  { intros x. unfold node_ids. rewrite HS, !list_elem_of_fmap. split.
    - intros (np & -> & [Hn Hin]%list_elem_of_filter). eauto.
    - intros [(np & -> & Hin) Hn]. exists np. split; [reflexivity|].
      apply list_elem_of_filter. auto. }
  split; [|split; [exact Hconn|split; [exact Hcover|]]].
  - rewrite HS at 1. apply filter_iff_in. intros np Hin. rewrite Hids.
    split; [|tauto]. intros Hn. split; [|exact Hn]. apply list_elem_of_fmap. eauto.
  - intros Hcc. destruct (one_component_connected g Hcc) as [Hne Hall].
    apply simple_spec in Hs' as (Hwf' & _).
    apply connected_one_component; [exact Hwf'| |].
    + destruct (node_ids g) as [|x ids] eqn:Hg; [contradiction|].
      destruct (Hcover x) as (y & Hy & _); [left|].
      intros Hnil. rewrite Hnil in Hy. inversion Hy.
    + intros x y Hx Hy. apply Hconn; [assumption..|].
      apply Hall; [apply Hids in Hx|apply Hids in Hy]; tauto.
Qed.

Lemma sparsify_keeps_connectivity_witness :
  exists g',
    sparsify_skeleton_fast (fun l => l) Examples.bent (1, 1, 1) (8 # 10) 500 50
      = Ok g'
    /\ simple g' = true
    /\ nodes g' = filter (fun np => fst np ∈ node_ids g') (nodes Examples.bent)
    /\ (forall x y, x ∈ node_ids g' -> y ∈ node_ids g' ->
          connected (edges g') x y <-> connected (edges Examples.bent) x y)
    /\ (forall x, x ∈ node_ids Examples.bent ->
          exists y, y ∈ node_ids g' /\ connected (edges Examples.bent) x y)
    /\ (number_connected_components Examples.bent = 1%nat ->
        number_connected_components g' = 1%nat).
Proof.
  apply (sparsify_keeps_connectivity (fun l => l) Examples.bent (1, 1, 1)
           (8 # 10) 500 50).
  vm_compute. reflexivity.
Defined.

(** When [sparsify_skeleton_fast] returns, its last round has visited every
    node of degree 2 and removed none: each of them has two neighbours and
    fails the test on the angle and the distances. *)
Theorem sparsify_fixed_point (set_order : list nat -> list nat)
    (g g' : Graph Pos) (scal : Pos) (dot_prod_thresh : Q)
    (max_dist_thresh min_dist_thresh : Z) :
  simple g = true ->
  (forall l x, x ∈ l -> x ∈ set_order l) ->
  sparsify_skeleton_fast set_order g scal dot_prod_thresh max_dist_thresh
                         min_dist_thresh = Ok g' ->
  forall v, v ∈ node_ids g' -> degree g' v = 2%nat ->
    exists l r,
      neighbors g' v = [l; r]
      /\ removable g' scal dot_prod_thresh max_dist_thresh min_dist_thresh v l r
         = false.
Proof.
  intros Hs Hord Hrun v Hv Hdeg.
  destruct (sparsify_loop_spec scal dot_prod_thresh max_dist_thresh
              min_dist_thresh set_order g (S (length (nodes g))) g
              (sparser_refl g Hs) ltac:(lia))
    as (g2 & Hrun2 & _ & Hset).
  unfold sparsify_skeleton_fast in Hrun. rewrite Hrun in Hrun2.
  injection Hrun2 as <-. apply (Hset v); [|exact Hdeg].
  apply Hord, list_elem_of_filter. auto.
Qed.

Lemma sparsify_fixed_point_witness :
  sparsify_skeleton_fast (fun l => l) Examples.bent (1, 1, 1) (8 # 10) 500 50
    = Ok Examples.sparse_bent
  /\ forall v, v ∈ node_ids Examples.sparse_bent ->
       degree Examples.sparse_bent v = 2%nat ->
       exists l r,
         neighbors Examples.sparse_bent v = [l; r]
         /\ removable Examples.sparse_bent (1, 1, 1) (8 # 10) 500 50 v l r = false.
Proof.
  split; [vm_compute; reflexivity|].
  apply (sparsify_fixed_point (fun l => l) Examples.bent Examples.sparse_bent
           (1, 1, 1) (8 # 10) 500 50).
  - vm_compute. reflexivity.
  - auto.
  - vm_compute. reflexivity.
Defined.

End SparsifyFacts.
